(** * maps_scraper: the orchestration layer of the Google Maps scraper

    A shallow embedding of [scraper.js] (browser pool, URL chunking,
    chunk workers, merge) and of the HTTP server (admission counter,
    synchronous and asynchronous scrape handlers, job map), followed by
    the properties of the orchestration layer.

    Conventions of the embedding.
    - JavaScript strings are [string]; [null] and [undefined] are [None].
    - Counts ([workers], [maxSize], [activeJobs], array lengths and
      indices) are natural numbers, and so are the request fields the
      server only passes on through [Math.min]. The caps [maxResults],
      [maxTotal] and [maxUrls] of [scraper.js] are compared with
      lengths and given to [slice] as whatever finite number the caller
      passed: they are rationals.
    - A [Set] of strings is a [gset string]; the job [Map] is a
      [gmap string Job]; an object created by [{}] and used as a map is
      a [gmap] of its own keys, written through [assign].
    - What the browser answers (page contents, rejected calls,
      connectivity of a browser) and the order in time in which promises
      settle are inputs of the model.
    - Code between two awaits runs in one piece. A call of [acquire] is
      modelled on its own and, stretch by stretch, among calls that
      overlap; the workers of a run are taken to their end one after
      the other, which changes nothing of what each of them does, and
      [Promise.all] then settles by the order in time.
    - A function that may spin ([acquire], the loops) takes a fuel
      argument and answers [None] when the fuel runs out. *)

From Stdlib Require Import Ascii QArith.QArith_base QArith.Qround.
From stdpp Require Import gmap strings list.

(** ** JavaScript array helpers *)

(** [array.slice(i, j)] for indices [0 <= i]: the items at positions
    [i .. min j (length array) - 1]. *)
Definition slice {A : Type} (array : list A) (i j : nat) : list A :=
  take (j - i) (drop i array).

(** [Math.ceil(n / parts)] for [parts >= 1]. *)
Definition ceil_div (n parts : nat) : nat := (n + parts - 1) / parts.

(** ** JavaScript numbers *)

(** A length, a size or a count, as a number. *)
Definition of_nat (n : nat) : Q := inject_Z (Z.of_nat n).

(** [n >= x], for a length, a size or a count [n] and a finite number
    [x]. *)
Definition at_least (n : nat) (x : Q) : bool := Qle_bool x (of_nat n).

(** The integer an index argument stands for: its fraction is dropped
    (for a finite number, [ToIntegerOrInfinity]). *)
Definition to_integer (x : Q) : Z := (Qnum x ÷ Z.pos (Qden x))%Z.

(** [array.slice(0, x)] for a finite number [x]: a negative end counts
    from the end of the array, and the end is kept within the array. *)
Definition slice_to {A : Type} (array : list A) (x : Q) : list A :=
  let final := to_integer x in
  if (final <? 0)%Z
  then take (Z.to_nat (Z.of_nat (length array) + final)) array
  else take (Z.to_nat final) array.

(** ** scraper.js: chunkArray *)

Module Partitioner.
Section Chunks.
Context {A : Type}.

(** The [for (let i = 0; i < array.length; i += chunkSize)] loop of
    [chunkArray], entered at index [i] with the chunks pushed so far. *)
Fixpoint chunk_loop (fuel : nat) (array : list A) (chunkSize i : nat)
    (chunks : list (list A)) : option (list (list A)) :=
  if i <? length array then
    match fuel with
    | 0 => None
    | S fuel' =>
        chunk_loop fuel' array chunkSize (i + chunkSize)
                   (chunks ++ [slice array i (i + chunkSize)])
    end
  else Some chunks.

(** [chunkArray(array, parts)]. With [parts = 0] the division gives
    [Infinity] ([NaN] on the empty array): the body runs once, slices
    the whole array and leaves the loop; on the empty array it never
    runs. *)
Definition chunkArray (fuel : nat) (array : list A) (parts : nat)
    : option (list (list A)) :=
  match parts with
  | 0 => Some (if length array =? 0 then [] else [array])
  | S _ => chunk_loop fuel array (ceil_div (length array) parts) 0 []
  end.

(** The shape the specification gives to the partition: exactly
    [workerCount] chunks, every chunk but the last of the ceiling size,
    and any two sizes at most one apart. *)
Definition spec_partition_shape (items : list A) (workerCount : nat)
    (chunks : list (list A)) : Prop :=
  length chunks = workerCount ∧
  (∀ k c, chunks !! k = Some c → S k < length chunks →
          length c = ceil_div (length items) workerCount) ∧
  (∀ c1 c2, c1 ∈ chunks → c2 ∈ chunks →
            length c1 ≤ S (length c2)).
End Chunks.
End Partitioner.

(** ** JavaScript string helpers *)

(** White space for [String.prototype.trim] and the regular expression
    class [\s], on the code units a [string] holds: tab, line feed,
    vertical tab, form feed, carriage return, space and no-break space. *)
Definition is_js_space (c : ascii) : bool :=
  match c with
  | "009" | "010" | "011" | "012" | "013" | " " | "160" => true
  | _ => false
  end%char.

Definition is_digit (c : ascii) : bool :=
  match Ascii.is_nat c with Some _ => true | None => false end.

Fixpoint trimStart (s : string) : string :=
  match s with
  | String c rest => if is_js_space c then trimStart rest else s
  | EmptyString => EmptyString
  end.

Definition trimEnd (s : string) : string :=
  String.rev (trimStart (String.rev s)).

Definition trim (s : string) : string := trimEnd (trimStart s).

Fixpoint string_filter (keep : ascii → bool) (s : string) : string :=
  match s with
  | String c rest =>
      if keep c then String c (string_filter keep rest)
      else string_filter keep rest
  | EmptyString => EmptyString
  end.

(** Truthiness of a possibly absent string: [null], [undefined] and the
    empty string are falsy. *)
Definition truthy (s : option string) : bool :=
  match s with
  | Some (String _ _) => true
  | _ => false
  end.

(** ** scraper.js: records and what a page shows *)

Definition Error := string.

(** How an awaited call settles: it returns a value or throws. *)
Inductive Outcome (A : Type) : Type :=
  | Returned (a : A)
  | Thrown (e : Error).
Arguments Returned {A} a.
Arguments Thrown {A} e.

(** The [business] object of [scrapeDirectUrl]. *)
Record Business := {
  name : option string;
  address : option string;
  website : option string;
  domain : option string;
  phone : option string;
  rating : option Q;
  reviews : option Z;
  category : option string;
  coordinates : option (Q * Q);
  googleMapsUrl : string
}.

(** What the browser shows when a place URL is opened. *)
Record PageObs := {
  goto_error : option Error;      (* [page.goto] rejects with this error *)
  name_visible : bool;            (* [waitForSelector(NAME)] resolves in time *)
  name_text : option string;      (* [extractText(page, NAME)] *)
  address_text : option string;
  website_text : option string;
  phone_text : option string;
  review_data : option (option Q * option Z)   (* [extractReviewData(page)] *)
}.

(** [normalizePhone(phone)]: drop every character outside
    [[\d+\s()-]], trim, and answer [null] for an empty rest. *)
Definition phone_char (c : ascii) : bool :=
  is_digit c || is_js_space c ||
  match c with "+" | "(" | ")" | "-" => true | _ => false end%char.

Definition normalizePhone (phone : option string) : option string :=
  if truthy phone then
    let cleaned := trim (string_filter phone_char (default "" phone)) in
    if truthy (Some cleaned) then Some cleaned else None
  else None.

(** The dedup key of both the worker and the merge:
    [`${business.name}|${business.phone || ''}`]. *)
Definition dedupKey (business : Business) : string :=
  default "undefined" (name business) +:+ "|" +:+
  (if truthy (phone business) then default "" (phone business) else "").

(** [scrapeDirectUrl(page, url)]. [coords] is the match of the
    coordinate pattern on the URL, already parsed. *)
Definition scrapeDirectUrl (obs : PageObs) (coords : option (Q * Q))
    (url : string) : Outcome (option Business) :=
  match goto_error obs with
  | Some e => Thrown e
  | None =>
      if negb (name_visible obs) then Returned None
      else
        let has_site := truthy (website_text obs) in
        let business := {|
          name := trim <$> name_text obs;
          address := address_text obs;
          website :=
            if has_site
            then Some ("https://www." +:+ default "" (website_text obs))
            else None;
          domain := if has_site then website_text obs else None;
          phone := normalizePhone (phone_text obs);
          rating := review_data obs ≫= fst;
          reviews := review_data obs ≫= snd;
          category := None;
          coordinates := coords;
          googleMapsUrl := url |} in
        Returned (if truthy (name business) then Some business else None)
  end.

(** ** scraper.js: BrowserPool *)

Module Pool.
(** A browser instance, named by a number. Whether it is still
    connected is asked of the browser at the time of the call. *)
Definition Browser := nat.

(** The pool object; its field [creating] is set once and never read. *)
Record BrowserPool := {
  maxSize : nat;
  browsers : list Browser;
  available : list Browser
}.

(** [new BrowserPool(maxSize)]. *)
Definition new (maxSize : nat) : BrowserPool :=
  {| maxSize := maxSize; browsers := []; available := [] |}.

(** How [acquire] got the browser it returns. *)
Inductive Acquired :=
  | Reused (b : Browser)
  | Created (b : Browser).

Definition browser_of (a : Acquired) : Browser :=
  match a with Reused b | Created b => b end.

(** [this.available.pop()]: the last element leaves the array. *)
Definition pop (p : BrowserPool) : option Browser * BrowserPool :=
  match available p with
  | [] => (None, p)
  | _ :: _ =>
      (last (available p),
       {| maxSize := maxSize p; browsers := browsers p;
          available := removelast (available p) |})
  end.

(** The test [if (browser.isConnected())] on what [pop] gave. *)
Definition connected_one (isConnected : Browser → bool)
    (popped : option Browser) : option Browser :=
  match popped with
  | Some browser => if isConnected browser then Some browser else None
  | None => None
  end.

(** How far a call of [acquire()] gets when it runs from its first line:
    it returns an idle browser (line 53), it goes on to await
    [_createBrowser()] (line 59), or it goes on to await the 100 ms
    timer (line 65). *)
Inductive Entered :=
  | Idle (browser : Browser)
  | Launch
  | Wait.

(** [acquire()] from its first line to its first [await] or to
    [return browser]: the [pop], the connection test and the test
    [this.browsers.length < this.maxSize], which run in one turn. *)
Definition enter (isConnected : Browser → bool) (p : BrowserPool)
    : Entered * BrowserPool :=
  let (popped, p1) := pop p in
  match connected_one isConnected popped with
  | Some browser => (Idle browser, p1)
  | None =>
      if length (browsers p1) <? maxSize p1 then (Launch, p1) else (Wait, p1)
  end.

(** [this.browsers.push(browser)], which runs once the awaited
    [_createBrowser()] has resolved to [browser]. *)
Definition launched (browser : Browser) (p : BrowserPool) : BrowserPool :=
  {| maxSize := maxSize p; browsers := browsers p ++ [browser];
     available := available p |}.

(** One call of [acquire()] during whose awaits nothing else touches the
    pool. [launch] is the browser [chromium.launch] would give. Each
    unit of fuel is one 100 ms wait before the recursive call. Calls
    that overlap are [interleave] below. *)
Fixpoint acquire (fuel : nat) (isConnected : Browser → bool)
    (launch : Browser) (p : BrowserPool) : option (Acquired * BrowserPool) :=
  match enter isConnected p with
  | (Idle browser, p1) => Some (Reused browser, p1)
  | (Launch, p1) => Some (Created launch, launched launch p1)
  | (Wait, p1) =>
      match fuel with
      | 0 => None
      | S fuel' => acquire fuel' isConnected launch p1
      end
  end.

(** Where one of several calls of [acquire()] in flight stands. *)
Inductive Stage :=
  | Entering               (* about to run from the first line *)
  | Launching              (* awaiting [_createBrowser()] *)
  | Finished (a : Acquired).

(** The call runs its next stretch: to its next [await] or to its
    [return]. After the 100 ms wait it calls [acquire()] again, and so
    is about to run from the first line. *)
Definition advance (isConnected : Browser → bool) (launch : Browser)
    (stage : Stage) (p : BrowserPool) : Stage * BrowserPool :=
  match stage with
  | Entering =>
      match enter isConnected p with
      | (Idle browser, p1) => (Finished (Reused browser), p1)
      | (Launch, p1) => (Launching, p1)
      | (Wait, p1) => (Entering, p1)
      end
  | Launching => (Finished (Created launch), launched launch p)
  | Finished a => (Finished a, p)
  end.

(** Several calls of [acquire()] in flight on one pool: [schedule] names,
    stretch by stretch, the call that runs next; [launch i] is the
    browser [chromium.launch] gives call [i]. *)
Fixpoint interleave (isConnected : Browser → bool) (launch : nat → Browser)
    (schedule : list nat) (calls : list Stage) (p : BrowserPool)
    : list Stage * BrowserPool :=
  match schedule with
  | [] => (calls, p)
  | i :: rest =>
      match calls !! i with
      | Some stage =>
          let (stage', p') := advance isConnected (launch i) stage p in
          interleave isConnected launch rest (<[i := stage']> calls) p'
      | None => interleave isConnected launch rest calls p
      end
  end.

(** [release(browser)]. *)
Definition release (isConnected : Browser → bool) (browser : Browser)
    (p : BrowserPool) : BrowserPool :=
  if isConnected browser then
    {| maxSize := maxSize p; browsers := browsers p;
       available := available p ++ [browser] |}
  else p.

(** The [for (const browser of this.browsers)] loop of [closeAll]:
    [close] is awaited on each browser and what it throws is caught and
    dropped. [closed] lists the browsers [close] has been called on. *)
Fixpoint close_each (close : Browser → Outcome ()) (bs : list Browser)
    (closed : list Browser) : list Browser :=
  match bs with
  | [] => closed
  | browser :: rest =>
      match close browser with
      | Returned _ => close_each close rest (closed ++ [browser])
      | Thrown _ => close_each close rest (closed ++ [browser])
      end
  end.

(** [closeAll()], which is all [cleanup()] does: close every browser,
    then empty both arrays. *)
Definition closeAll (close : Browser → Outcome ()) (p : BrowserPool)
    : list Browser * BrowserPool :=
  (close_each close (browsers p) [],
   {| maxSize := maxSize p; browsers := []; available := [] |}).
End Pool.

(** ** scraper.js: one orchestration run *)

Module Orchestrator.
Import Pool Partitioner.

(** Calls on the pool and on the browser, in the order they happen. *)
Inductive Event :=
  | PoolAcquire (b : Browser)
  | PoolRelease (b : Browser)
  | CollectUrls (b : Browser)
  | ContextOpened (workerId : nat)
  | ContextClosed (workerId : nat).

Global Instance Event_eq_dec : EqDecision Event.
Proof. solve_decision. Defined.

(** The objects a run works on: the module's [browserPool], the run's
    [seenBusinesses] set, which every worker receives by reference as
    [globalSeen], and the calls made so far. When [Promise.all] rejects,
    the workers that have not settled go on running after the run has
    thrown: [detached] holds the calls they have yet to make. *)
Record Run := {
  pool : BrowserPool;
  seenBusinesses : gset string;
  trace : list Event;
  detached : list Event
}.

(** What the browser side answers during a run, and when. *)
Record Env := {
  isConnected : Browser → bool;
  launch : Browser;
  (* how [collectListingUrls(browser, query, maxUrls)] settles *)
  collected : Browser → string → Q → Outcome (list string);
  page : string → PageObs;
  url_coordinates : string → option (Q * Q);
  (* [createOptimizedContext], [newPage] or [setupRequestInterception]
     of worker [i] rejects with this error *)
  context_open : nat → option Error;
  (* [context.close()] of worker [i] rejects with this error *)
  context_close : nat → option Error;
  (* the instant at which the promise of worker [i] settles *)
  settled_at : nat → nat;
  (* the number of calls worker [i], if it has not settled by then, has
     made at the instant at which the first worker rejects *)
  calls_made : nat → nat
}.

(** A computation on a run: it may not come back ([None], out of
    fuel), or it comes back with the new state and an outcome. *)
Definition M (A : Type) : Type := Run → option (Run * Outcome A).

Global Instance M_ret : MRet M := λ A a w, Some (w, Returned a).

Global Instance M_bind : MBind M := λ A B k m w,
  match m w with
  | None => None
  | Some (w1, Returned a) => k a w1
  | Some (w1, Thrown e) => Some (w1, Thrown e)
  end.

Definition throw {A : Type} (e : Error) : M A := λ w, Some (w, Thrown e).

(** [try { body } catch (error) { handler } finally { final }]. *)
Definition try_catch_finally {A : Type} (body : M A)
    (handler : Error → M A) (final : M ()) : M A := λ w,
  match body w with
  | None => None
  | Some (w1, r) =>
      match (match r with
             | Returned a => Some (w1, Returned a)
             | Thrown e => handler e w1
             end) with
      | None => None
      | Some (w2, r2) =>
          match final w2 with
          | None => None
          | Some (w3, Thrown e') => Some (w3, Thrown e')
          | Some (w3, Returned _) => Some (w3, r2)
          end
      end
  end.

(** [try { body } finally { final }]. *)
Definition try_finally {A : Type} (body : M A) (final : M ()) : M A :=
  try_catch_finally body throw final.

Definition emit (ev : Event) : M () := λ w,
  Some ({| pool := pool w; seenBusinesses := seenBusinesses w;
           trace := trace w ++ [ev]; detached := detached w |}, Returned ()).

Definition get_seen : M (gset string) := λ w,
  Some (w, Returned (seenBusinesses w)).

Definition set_seen (s : gset string) : M () := λ w,
  Some ({| pool := pool w; seenBusinesses := s; trace := trace w;
           detached := detached w |},
        Returned ()).

(** [await browserPool.acquire()]. *)
Definition pool_acquire (fuel : nat) (env : Env) : M Browser := λ w,
  match acquire fuel (isConnected env) (launch env) (pool w) with
  | None => None
  | Some (a, p') =>
      Some ({| pool := p'; seenBusinesses := seenBusinesses w;
               trace := trace w ++ [PoolAcquire (browser_of a)];
               detached := detached w |},
            Returned (browser_of a))
  end.

(** [browserPool.release(browser)]. *)
Definition pool_release (env : Env) (browser : Browser) : M () := λ w,
  Some ({| pool := release (isConnected env) browser (pool w);
           seenBusinesses := seenBusinesses w;
           trace := trace w ++ [PoolRelease browser];
           detached := detached w |}, Returned ()).

(** A call that settles the way the browser side says. *)
Definition settle {A : Type} (o : Outcome A) : M A := λ w, Some (w, o).

Definition settle_unit (failure : option Error) : M () :=
  match failure with
  | Some e => throw e
  | None => mret ()
  end.

(** The [for (const url of urls)] loop of [scrapeUrlChunk], with the
    worker's [results] so far. A [break] ends the loop; a thrown
    [scrapeDirectUrl] is caught and the loop goes on. *)
Fixpoint worker_loop (env : Env) (urls : list string)
    (workerId : nat) (maxTotal : Q) (results : list Business)
    : M (list Business) :=
  match urls with
  | [] => mret results
  | url :: rest =>
      globalSeen ← get_seen;
      if at_least (size globalSeen) maxTotal then mret results
      else
        match scrapeDirectUrl (page env url) (url_coordinates env url) url with
        | Returned (Some business) =>
            if truthy (name business) then
              if decide (dedupKey business ∈ globalSeen)
              then worker_loop env rest workerId maxTotal results
              else worker_loop env rest workerId maxTotal
                               (results ++ [business])
            else worker_loop env rest workerId maxTotal results
        | Returned None => worker_loop env rest workerId maxTotal results
        | Thrown _ => worker_loop env rest workerId maxTotal results
        end
  end.

(** [scrapeUrlChunk(browser, urls, workerId, globalSeen, maxTotal)];
    [globalSeen] is the run's [seenBusinesses]. *)
Definition scrapeUrlChunk (env : Env) (browser : Browser)
    (urls : list string) (workerId : nat) (maxTotal : Q)
    : M (list Business) :=
  settle_unit (context_open env workerId);;
  emit (ContextOpened workerId);;
  try_finally
    (worker_loop env urls workerId maxTotal [])
    (emit (ContextClosed workerId);;
     settle_unit (context_close env workerId)).

(** The promises of an array, each taken to its end: the state they
    leave and, for every promise, the calls it made and how it settled.
    The promises take their turns in array order: the workers only read
    the shared set, so the order in which their steps interleave does
    not change what each of them does. *)
Fixpoint settle_each {A : Type} (promises : list (M A)) (w : Run)
    : option (Run * list (list Event * Outcome A)) :=
  match promises with
  | [] => Some (w, [])
  | p :: rest =>
      match p w with
      | None => None
      | Some (w1, r) =>
          match settle_each rest w1 with
          | None => None
          | Some (w2, settled) =>
              Some (w2, (drop (length (trace w)) (trace w1), r) :: settled)
          end
      end
  end.

(** The rejection that comes first in time among the outcomes of the
    promises [i], [i + 1], ...: the index of its promise and its
    error. Of two rejections at the same instant the one of the lower
    index counts as the first. *)
Fixpoint first_rejection {A : Type} (settled_at : nat → nat) (i : nat)
    (outcomes : list (Outcome A)) : option (nat * Error) :=
  match outcomes with
  | [] => None
  | outcome :: rest =>
      match outcome, first_rejection settled_at (S i) rest with
      | Thrown e, Some (j, e') =>
          if settled_at j <? settled_at i then Some (j, e') else Some (i, e)
      | Thrown e, None => Some (i, e)
      | Returned _, later => later
      end
  end.

(** The values of the promises that are fulfilled. *)
Definition fulfilled {A : Type} (outcomes : list (Outcome A)) : list A :=
  omap (λ outcome, match outcome with
                   | Returned a => Some a
                   | Thrown _ => None
                   end) outcomes.

(** Of the calls promise [i] makes in all, those it has made when
    promise [winner] rejects: all of them if it has settled by then. *)
Definition made_by (settled_at calls_made : nat → nat) (winner i : nat)
    (calls : list Event) : list Event :=
  if settled_at i <=? settled_at winner then calls
  else take (calls_made i) calls.

(** And those it has yet to make. *)
Definition left_to (settled_at calls_made : nat → nat) (winner i : nat)
    (calls : list Event) : list Event :=
  if settled_at i <=? settled_at winner then []
  else drop (calls_made i) calls.

(** [await Promise.all(promises)]. When every promise is fulfilled, the
    values come back in array order, every call of every promise made.
    Otherwise [Promise.all] rejects as soon as the first promise does,
    with the error of that promise; the other promises are not stopped:
    the calls they have made by then are in the trace, the calls they
    go on to make are [detached]. *)
Definition promise_all {A : Type} (settled_at calls_made : nat → nat)
    (promises : list (M A)) : M (list A) := λ w,
  match settle_each promises w with
  | None => None
  | Some (w', settled) =>
      match first_rejection settled_at 0 (snd <$> settled) with
      | None => Some (w', Returned (fulfilled (snd <$> settled)))
      | Some (winner, e) =>
          Some ({| pool := pool w'; seenBusinesses := seenBusinesses w';
                   trace :=
                     trace w
                     ++ concat (imap (λ i s, made_by settled_at calls_made
                                                     winner i (fst s))
                                     settled);
                   detached :=
                     detached w'
                     ++ concat (imap (λ i s, left_to settled_at calls_made
                                                     winner i (fst s))
                                     settled) |},
                Thrown e)
      end
  end.

(** The inner [for (const business of chunk)] loop of the merge. *)
Fixpoint merge_chunk (maxResults : Q) (chunk : list Business)
    (results : list Business) : M (list Business) :=
  match chunk with
  | [] => mret results
  | business :: rest =>
      if at_least (length results) maxResults then mret results
      else
        seen ← get_seen;
        let key := dedupKey business in
        if decide (key ∈ seen) then merge_chunk maxResults rest results
        else
          set_seen ({[key]} ∪ seen);;
          merge_chunk maxResults rest (results ++ [business])
  end.

(** The outer [for (const chunk of chunkResults)] loop of the merge. *)
Fixpoint merge_chunks (maxResults : Q) (chunkResults : list (list Business))
    (results : list Business) : M (list Business) :=
  match chunkResults with
  | [] => mret results
  | chunk :: more =>
      results' ← merge_chunk maxResults chunk results;
      merge_chunks maxResults more results'
  end.

(** [chunkArray] inside a run; [length array] units of fuel are enough
    for its loop. *)
Definition chunked {A : Type} (array : list A) (parts : nat)
    : M (list (list A)) := λ w,
  match chunkArray (length array) array parts with
  | None => None
  | Some chunks => Some (w, Returned chunks)
  end.

(** The [try] block of [scrapeGoogleMaps]: collect the URLs, scrape them
    in chunks, merge. *)
Definition try_block (env : Env) (browser : Browser) (query : string)
    (maxResults : Q) (workers : nat) : M (list Business) :=
  emit (CollectUrls browser);;
  urls ← settle (collected env browser query (maxResults * 2));
  if length urls =? 0 then mret []
  else
    chunks ← chunked (slice_to urls (maxResults * 2)) workers;
    chunkResults ←
      promise_all (settled_at env) (calls_made env)
        (imap (λ i chunk, scrapeUrlChunk env browser chunk i maxResults)
              chunks);
    merge_chunks maxResults chunkResults [].

(** [scrapeGoogleMaps(query, { maxResults, workers })]. The run starts
    with a new, empty [seenBusinesses]. *)
Definition scrapeGoogleMaps (fuel : nat) (env : Env) (query : string)
    (maxResults : Q) (workers : nat) : M (list Business) :=
  set_seen ∅;;
  browser ← pool_acquire fuel env;
  try_catch_finally
    (try_block env browser query maxResults workers)
    (λ error, throw error)
    (pool_release env browser).

(** *** Vocabulary of the properties *)

Definition is_pool_event (ev : Event) : bool :=
  match ev with
  | PoolAcquire _ | PoolRelease _ => true
  | _ => false
  end.

(** A record that [scrapeDirectUrl] returned for some URL. *)
Definition extracted (env : Env) (business : Business) : Prop :=
  ∃ url, scrapeDirectUrl (page env url) (url_coordinates env url) url
         = Returned (Some business).

(** A computation that comes back, leaves the pool as it is, makes no
    call on the pool and leaves none to be made, returns only values
    in [Post], and leaves nothing running when it returns. *)
Definition calm {A : Type} (Post : A → Prop) (m : M A) : Prop :=
  ∀ w, ∃ w' out evs later,
    m w = Some (w', out) ∧
    pool w' = pool w ∧
    trace w' = trace w ++ evs ∧
    Forall (λ ev, is_pool_event ev = false) evs ∧
    detached w' = detached w ++ later ∧
    Forall (λ ev, is_pool_event ev = false) later ∧
    ∀ a, out = Returned a → Post a ∧ later = [].

(** What the merge keeps true of [results] and the seen set. *)
Definition merge_inv (cap : nat) (w : Run) (results : list Business)
    : Prop :=
  NoDup (dedupKey <$> results) ∧
  (∀ b, b ∈ results → dedupKey b ∈ seenBusinesses w) ∧
  length results ≤ cap.

(** The results of the merge: no key twice, at most [cap] records, every
    record taken from a worker. *)
Definition merged (env : Env) (cap : nat) (R : list Business) : Prop :=
  NoDup (dedupKey <$> R) ∧ length R ≤ cap ∧ Forall (extracted env) R.

(** The error worker [i] rejects with, if it rejects: that of opening
    its context, or else that of closing it. *)
Definition rejection (env : Env) (workerId : nat) : option Error :=
  match context_open env workerId with
  | Some e => Some e
  | None => context_close env workerId
  end.

(** Of the workers [0 .. n - 1], worker [i] is the first to reject. *)
Definition rejects_first (env : Env) (n i : nat) : Prop :=
  i < n ∧ is_Some (rejection env i) ∧
  ∀ j, j < n → j ≠ i → is_Some (rejection env j) →
       settled_at env i < settled_at env j ∨
       (settled_at env i = settled_at env j ∧ i < j).

(** The record a place URL gives a worker, if it gives one. *)
Definition page_record (env : Env) (url : string) : option Business :=
  match scrapeDirectUrl (page env url) (url_coordinates env url) url with
  | Returned (Some business) => Some business
  | Returned None => None
  | Thrown _ => None
  end.

(** The records of a list that bring a key not met before, in order. *)
Fixpoint first_by_key (seen : gset string) (records : list Business)
    : list Business :=
  match records with
  | [] => []
  | business :: rest =>
      if decide (dedupKey business ∈ seen) then first_by_key seen rest
      else business :: first_by_key ({[dedupKey business]} ∪ seen) rest
  end.

(** *** A sample run *)

Definition shows (nm : string) (ph : option string) : PageObs :=
  {| goto_error := None; name_visible := true; name_text := Some nm;
     address_text := None; website_text := None; phone_text := ph;
     review_data := None |}.

(** Two places called Cafe without a phone, one Bar, one page that
    times out and one page without a name. *)
Definition sample_page (url : string) : PageObs :=
  if decide (url = "u1") then shows " Cafe " None
  else if decide (url = "u2") then shows "Cafe" None
  else if decide (url = "u3") then shows "Bar" (Some "tel +90 (242) 1")
  else if decide (url = "u4") then
    {| goto_error := Some "Timeout 15000ms exceeded"; name_visible := false;
       name_text := None; address_text := None; website_text := None;
       phone_text := None; review_data := None |}
  else
    {| goto_error := None; name_visible := false; name_text := None;
       address_text := None; website_text := None; phone_text := None;
       review_data := None |}.

Definition sample_env (urls : Outcome (list string)) : Env :=
  {| isConnected := λ _, true;
     launch := 1;
     collected := λ _ _ _, urls;
     page := sample_page;
     url_coordinates := λ _, None;
     context_open := λ _, None;
     context_close := λ _, None;
     settled_at := λ i, i;
     calls_made := λ _, 0 |}.


Definition sample_start : Run :=
  {| pool := Pool.new 3; seenBusinesses := ∅; trace := []; detached := [] |}.
End Orchestrator.

(** ** The HTTP server: admission counter, scrape handlers, job map *)

Module Server.
(** [DEFAULT_WORKERS] and [MAX_CONCURRENT_JOBS], read from the
    environment when the server starts. *)
Record Config := {
  DEFAULT_WORKERS : nat;
  MAX_CONCURRENT_JOBS : nat
}.

Inductive JobStatus := pending | completed | failed.

Global Instance JobStatus_eq_dec : EqDecision JobStatus.
Proof. solve_decision. Defined.

(** A value of the [jobs] map. A property the object does not have is
    [None]. *)
Record Job := {
  status : JobStatus;
  query : option string;
  createdAt : option string;
  results : option (list Business);
  error : option Error;
  completedAt : option string
}.

(** Who awaits a started [scrapeGoogleMaps] call: the [POST /scrape]
    handler, or the [then]/[catch] callbacks of an async job. *)
Inductive Caller :=
  | FromScrape
  | FromAsync (jobId : string).

(** A call of [scrapeGoogleMaps] that has started and not settled. *)
Record Call := {
  caller : Caller;
  call_query : string;
  call_maxResults : nat;
  call_workers : nat
}.

(** The module variables [activeJobs] and [jobs], and the orchestration
    runs in flight. *)
Record State := {
  activeJobs : nat;
  jobs : gmap string Job;
  running : list Call
}.

Definition initial : State :=
  {| activeJobs := 0; jobs := ∅; running := [] |}.

(** [req.body] of the scrape endpoints. *)
Record Body := {
  req_query : option string;
  req_maxResults : option nat;
  req_workers : option nat
}.

Inductive Response :=
  | BadRequest                                     (* 400, query is required *)
  | TooManyRequests (active maxConcurrent : nat)   (* 429 *)
  | ScrapeOk (q : string) (count : nat) (rs : list Business)
  | ScrapeFailed (message : Error)                 (* 500 *)
  | JobAccepted (jobId : string).                  (* jobId, status pending *)

(** [POST /scrape] up to its [await]: the answer, if it is given at
    once, or the started call. *)
Definition post_scrape (cfg : Config) (body : Body) (s : State)
    : State * option Response :=
  let maxResults := default 20 (req_maxResults body) in
  let workers := default (DEFAULT_WORKERS cfg) (req_workers body) in
  if negb (truthy (req_query body)) then (s, Some BadRequest)
  else if MAX_CONCURRENT_JOBS cfg <=? activeJobs s then
    (s, Some (TooManyRequests (activeJobs s) (MAX_CONCURRENT_JOBS cfg)))
  else
    ({| activeJobs := S (activeJobs s);
        jobs := jobs s;
        running := running s ++
          [{| caller := FromScrape;
              call_query := default "" (req_query body);
              call_maxResults := maxResults `min` 100;
              call_workers := workers `min` 5 |}] |},
     None).

(** [POST /scrape] after its [await]: the [try] answers with the
    results, the [catch] with the error, and [finally] gives the slot
    back. *)
Definition scrape_settled (q : string) (outcome : Outcome (list Business))
    (s : State) : State * Response :=
  ({| activeJobs := pred (activeJobs s); jobs := jobs s;
      running := running s |},
   match outcome with
   | Returned rs => ScrapeOk q (length rs) rs
   | Thrown e => ScrapeFailed e
   end).

(** [{ ...jobs.get(jobId) }]: the properties of the stored job, or of
    no object. *)
Definition spread (j : option Job) : Job :=
  default {| status := pending; query := None; createdAt := None;
             results := None; error := None; completedAt := None |} j.

(** The callback given to [then]. *)
Definition on_fulfilled (jobId now : string) (rs : list Business)
    (s : State) : State * Outcome () :=
  let old := spread (jobs s !! jobId) in
  ({| activeJobs := activeJobs s;
      jobs := <[jobId := {| status := completed; query := query old;
                            createdAt := createdAt old; results := Some rs;
                            error := error old;
                            completedAt := Some now |}]> (jobs s);
      running := running s |},
   Returned ()).

(** The callback given to [catch]. *)
Definition on_rejected (jobId now : string) (e : Error)
    (s : State) : State * Outcome () :=
  let old := spread (jobs s !! jobId) in
  ({| activeJobs := activeJobs s;
      jobs := <[jobId := {| status := failed; query := query old;
                            createdAt := createdAt old;
                            results := results old; error := Some e;
                            completedAt := Some now |}]> (jobs s);
      running := running s |},
   Returned ()).

(** [promise.then(f).catch(g)]: [g] also sees what [f] throws. *)
Definition then_catch {A : Type} (f : A → State → State * Outcome ())
    (g : Error → State → State * Outcome ())
    (outcome : Outcome A) (s : State) : State :=
  match outcome with
  | Returned a =>
      match f a s with
      | (s1, Returned _) => s1
      | (s1, Thrown e) => fst (g e s1)
      end
  | Thrown e => fst (g e s)
  end.

(** [POST /scrape/async]; [jobId] is what [randomUUID()] gave. *)
Definition post_scrape_async (cfg : Config) (body : Body)
    (jobId now : string) (s : State) : State * option Response :=
  let maxResults := default 20 (req_maxResults body) in
  let workers := default (DEFAULT_WORKERS cfg) (req_workers body) in
  if negb (truthy (req_query body)) then (s, Some BadRequest)
  else
    ({| activeJobs := activeJobs s;
        jobs := <[jobId := {| status := pending; query := req_query body;
                              createdAt := Some now; results := None;
                              error := None; completedAt := None |}]> (jobs s);
        running := running s ++
          [{| caller := FromAsync jobId;
              call_query := default "" (req_query body);
              call_maxResults := maxResults;
              call_workers := workers |}] |},
     Some (JobAccepted jobId)).

(** The [i]-th call in flight settles and its awaiter goes on. *)
Definition settled (i : nat) (outcome : Outcome (list Business))
    (now : string) (s : State) : State * option Response :=
  match running s !! i with
  | None => (s, None)
  | Some call =>
      let s1 := {| activeJobs := activeJobs s; jobs := jobs s;
                   running := delete i (running s) |} in
      match caller call with
      | FromScrape =>
          let (s2, r) := scrape_settled (call_query call) outcome s1 in
          (s2, Some r)
      | FromAsync jobId =>
          (then_catch (on_fulfilled jobId now) (on_rejected jobId now)
                      outcome s1, None)
      end
  end.

(** What happens to the server, one event at a time. *)
Inductive Event :=
  | PostScrape (body : Body)
  | PostScrapeAsync (body : Body) (jobId now : string)
  | Settled (i : nat) (outcome : Outcome (list Business)) (now : string).

Definition step (cfg : Config) (s : State) (ev : Event)
    : State * option Response :=
  match ev with
  | PostScrape body => post_scrape cfg body s
  | PostScrapeAsync body jobId now => post_scrape_async cfg body jobId now s
  | Settled i outcome now => settled i outcome now s
  end.

Definition exec (cfg : Config) (s : State) (evs : list Event) : State :=
  foldl (λ s ev, fst (step cfg s ev)) s evs.

(** [randomUUID()] gives an identifier no stored job has. *)
Definition fresh_id (s : State) (ev : Event) : Prop :=
  match ev with
  | PostScrapeAsync _ jobId _ => jobs s !! jobId = None
  | _ => True
  end.

Fixpoint fresh_ids (cfg : Config) (s : State) (evs : list Event) : Prop :=
  match evs with
  | [] => True
  | ev :: rest => fresh_id s ev ∧ fresh_ids cfg (fst (step cfg s ev)) rest
  end.

(** The calls in flight that [POST /scrape] started. *)
Definition is_sync (c : Call) : bool :=
  match caller c with FromScrape => true | FromAsync _ => false end.

Definition sync_running (s : State) : nat :=
  length (filter (λ c, is_sync c = true) (running s)).

(** The identifiers of the async jobs whose run is in flight. *)
Definition async_ids (calls : list Call) : list string :=
  omap (λ c, match caller c with
             | FromAsync jobId => Some jobId
             | FromScrape => None
             end) calls.

(** A job that has left [pending] carries what its state promises. *)
Definition settled_job (j : Job) : Prop :=
  (status j = completed ∧ is_Some (results j) ∧ error j = None) ∨
  (status j = failed ∧ is_Some (error j) ∧ results j = None).
(** A stored job is waiting, with no results and no error yet, or it has
    settled. *)
Definition job_ok (j : Job) : Prop :=
  (status j = pending ∧ results j = None ∧ error j = None) ∨ settled_job j.

(** What every reachable state has: each async run in flight belongs to
    a job of its own, that job is still pending, and every stored job is
    in order. *)
Definition consistent (s : State) : Prop :=
  NoDup (async_ids (running s)) ∧
  (∀ id, id ∈ async_ids (running s) →
         ∃ j, jobs s !! id = Some j ∧ status j = pending) ∧
  (∀ id j, jobs s !! id = Some j → job_ok j).

(** [GET /scrape/status/:jobId]. *)
Inductive StatusResponse :=
  | JobNotFound                                   (* 404, Job not found *)
  | JobFound (jobId : string) (job : Job).        (* jobId and the job *)

Definition get_status (jobId : string) (s : State) : StatusResponse :=
  match jobs s !! jobId with
  | None => JobNotFound
  | Some job => JobFound jobId job
  end.

(** *** Sample requests *)

Definition one_job_at_a_time : Config :=
  {| DEFAULT_WORKERS := 3; MAX_CONCURRENT_JOBS := 1 |}.

Definition ask (q : string) : Body :=
  {| req_query := Some q; req_maxResults := None; req_workers := None |}.

Definition ask_for (q : string) (maxResults workers : nat) : Body :=
  {| req_query := Some q; req_maxResults := Some maxResults;
     req_workers := Some workers |}.
End Server.

(** ** The HTTP server: POST /scrape/bulk *)

Module Bulk.
Import Partitioner.

(** [req.body] of the bulk endpoint; [req_queries] is [None] when
    [queries] is missing or not an array. *)
Record Body := {
  req_queries : option (list string);
  req_maxResults : option nat;
  req_workers : option nat
}.

Inductive Response :=
  | BadRequest (message : string)
  | Done (totalQueries successfulQueries : nat)
         (results : gmap string (list Business))
         (errors : option (gmap string Error)).

Definition batchSize : nat := 3.

(** The objects [allResults] and [errors], created by [{}]: the keys
    they own, each with its value. *)
Definition Report : Type := gmap string (list Business) * gmap string Error.

(** [object[key] = value] on an object created by [{}]. Every key but
    one becomes a key of the object. The key ["__proto__"] is the
    accessor inherited from [Object.prototype]: the assignment calls its
    setter, which changes the prototype when the value is an object and
    does nothing when it is a string; in either case the object gets no
    key, and [Object.keys] and the JSON of the object do not show the
    value. *)
Definition assign {V : Type} (key : string) (value : V)
    (object : gmap string V) : gmap string V :=
  if decide (key = "__proto__") then object else <[key := value]> object.

(** [result.reason?.message || 'Unknown error']. *)
Definition reason (e : Error) : Error :=
  if truthy (Some e) then e else "Unknown error".

(** The [for (const result of batchResults)] loop over one settled
    batch. [run i query] is how the call of [scrapeGoogleMaps] for the
    query at position [i] of the request settles. *)
Fixpoint collect_batch (run : nat → string → Outcome (list Business))
    (i : nat) (batch : list string) (acc : Report) : Report :=
  match batch with
  | [] => acc
  | query :: rest =>
      collect_batch run (S i) rest
        match run i query with
        | Returned rs => (assign query rs (fst acc), snd acc)
        | Thrown e => (fst acc, assign query (reason e) (snd acc))
        end
  end.

(** The [for (let i = 0; i < queries.length; i += batchSize)] loop. *)
Fixpoint bulk_loop (fuel : nat) (run : nat → string → Outcome (list Business))
    (queries : list string) (i : nat) (acc : Report) : option Report :=
  if i <? length queries then
    match fuel with
    | 0 => None
    | S fuel' =>
        bulk_loop fuel' run queries (i + batchSize)
          (collect_batch run i (slice queries i (i + batchSize)) acc)
    end
  else Some acc.

(** [POST /scrape/bulk] behind the authentication. *)
Definition post_scrape_bulk (fuel : nat)
    (run : nat → string → Outcome (list Business)) (body : Body)
    : option Response :=
  match req_queries body with
  | None | Some [] => Some (BadRequest "queries array is required")
  | Some queries =>
      if 20 <? length queries
      then Some (BadRequest "Maximum 20 queries per request")
      else
        match bulk_loop fuel run queries 0 (∅, ∅) with
        | None => None
        | Some (allResults, errors) =>
            Some (Done (length queries) (size allResults) allResults
                       (if 0 <? size errors then Some errors else None))
        end
  end.

(** The queries that can be reported: all but ["__proto__"]. *)
Definition reportable (queries : list string) : list string :=
  filter (λ q, q ≠ "__proto__") queries.

(** *** A sample batch of runs: the query "bad" times out *)

Definition sample_run (k : nat) (q : string) : Outcome (list Business) :=
  if decide (q = "bad") then Thrown "Timeout" else Returned [].

Definition asks (queries : list string) : Body :=
  {| req_queries := Some queries; req_maxResults := None;
     req_workers := None |}.
End Bulk.

(** ** scraper.js: request interception *)

Module Interception.
Definition BLOCKED_RESOURCES : list string := ["image"; "media"].

Definition BLOCKED_URLS : list string :=
  ["google-analytics.com"; "googletagmanager.com"; "doubleclick.net";
   "facebook.com"; "twitter.com"].

Fixpoint starts_with (needle s : string) : bool :=
  match needle, s with
  | EmptyString, _ => true
  | String a needle', String b s' =>
      if decide (a = b) then starts_with needle' s' else false
  | String _ _, EmptyString => false
  end.

(** [s.includes(needle)]. *)
Fixpoint includes (s needle : string) : bool :=
  starts_with needle s ||
  match s with
  | EmptyString => false
  | String _ rest => includes rest needle
  end.

Inductive Routing := Abort | Continue.

(** The handler [setupRequestInterception] gives to [page.route]. *)
Definition route (resourceType url : string) : Routing :=
  if bool_decide (resourceType ∈ BLOCKED_RESOURCES) then Abort
  else if existsb (λ blocked, includes url blocked) BLOCKED_URLS then Abort
  else Continue.
End Interception.

(** ** scraper.js: collectListingUrls *)

Module Discoverer.
(** What the search page shows during one discovery, and which of the
    awaited calls reject. *)
Record Search := {
  context_fails : option Error;     (* [createOptimizedContext(browser)] *)
  page_fails : option Error;        (* [context.newPage()] or
                                       [setupRequestInterception(page)] *)
  goto_fails : option Error;        (* [page.goto(searchUrl)] *)
  render_wait_fails : option Error; (* [page.waitForTimeout(3000)] *)
  first_listing : bool;             (* a listing link shows within 15 s *)
  wheel_fails : nat → option Error; (* [page.mouse.wheel] of scroll [k] *)
  count_fails : nat → option Error; (* [locator.count()] after scroll [k] *)
  count : nat → nat;                (* listing links after each scroll *)
  eval_fails : nat → option Error;  (* [page.$$eval] after that many
                                       scrolls *)
  hrefs : nat → list string;        (* place links after that many scrolls *)
  close_fails : option Error        (* [context.close()] *)
}.

(** The scroll loop of [collectListingUrls], entered before scroll
    number [k] (from 0). The rejection of [waitForLoadState] is caught
    on the spot. The answer is the number of scrolls made. *)
Fixpoint scroll_loop (fuel : nat) (obs : Search) (maxUrls : Q)
    (k previousCount stableCount : nat) : option (Outcome nat) :=
  if stableCount <? 3 then
    match fuel with
    | 0 => None
    | S fuel' =>
        match wheel_fails obs k with
        | Some e => Some (Thrown e)
        | None =>
            match count_fails obs k with
            | Some e => Some (Thrown e)
            | None =>
                let currentCount := count obs k in
                if at_least currentCount maxUrls then Some (Returned (S k))
                else if currentCount =? previousCount then
                  scroll_loop fuel' obs maxUrls (S k) previousCount
                              (S stableCount)
                else scroll_loop fuel' obs maxUrls (S k) currentCount 0
            end
        end
    end
  else Some (Returned k).

(** [[...new Set(urls)]]: the first occurrence of every element, in
    order; [seen] is what the set holds so far. *)
Fixpoint set_spread (seen : gset string) (urls : list string) : list string :=
  match urls with
  | [] => []
  | url :: rest =>
      if decide (url ∈ seen) then set_spread seen rest
      else url :: set_spread ({[url]} ∪ seen) rest
  end.

(** The [try] block of [collectListingUrls]. The consent click and the
    debug snapshot are inside [try]/[catch] blocks of their own that
    drop every error, and change nothing of what is returned; a first
    listing that does not show makes the block return the empty list. *)
Definition collect_block (fuel : nat) (obs : Search) (maxUrls : Q)
    : option (Outcome (list string)) :=
  match goto_fails obs with
  | Some e => Some (Thrown e)
  | None =>
      match render_wait_fails obs with
      | Some e => Some (Thrown e)
      | None =>
          if negb (first_listing obs) then Some (Returned [])
          else
            match scroll_loop fuel obs maxUrls 0 0 0 with
            | None => None
            | Some (Thrown e) => Some (Thrown e)
            | Some (Returned scrolls) =>
                match eval_fails obs scrolls with
                | Some e => Some (Thrown e)
                | None => Some (Returned (set_spread ∅ (hrefs obs scrolls)))
                end
            end
      end
  end.

(** What has become of the browser context when the call settles. *)
Inductive Context := NotOpened | LeftOpen | Closed.

(** [collectListingUrls(browser, query, maxUrls)]: how it settles, and
    what it leaves of its context. The context and the page are opened
    before the [try]; the [finally] closes the context. *)
Definition collectListingUrls (fuel : nat) (obs : Search) (maxUrls : Q)
    : option (Outcome (list string) * Context) :=
  match context_fails obs with
  | Some e => Some (Thrown e, NotOpened)
  | None =>
      match page_fails obs with
      | Some e => Some (Thrown e, LeftOpen)
      | None =>
          match collect_block fuel obs maxUrls, close_fails obs with
          | None, _ => None
          | Some _, Some e => Some (Thrown e, Closed)
          | Some r, None => Some (r, Closed)
          end
      end
  end.

(** The count the loop compares scroll [k] with: the count after the
    scroll before, and 0 for the first scroll. *)
Definition count_before (count : nat → nat) (k : nat) : nat :=
  match k with
  | 0 => 0
  | S j => count j
  end.

(** The error, if any, of the two awaited calls of scroll [k]. *)
Definition scroll_fails (obs : Search) (k : nat) : option Error :=
  match wheel_fails obs k with
  | Some e => Some e
  | None => count_fails obs k
  end.

(** *** A sample search: 4, 9, 9, 9, 9 links, then eleven *)

Definition sample_count (k : nat) : nat :=
  match k with
  | 0 => 4
  | 1 | 2 | 3 | 4 => 9
  | _ => 11
  end.

Definition sample_search : Search :=
  {| context_fails := None; page_fails := None; goto_fails := None;
     render_wait_fails := None; first_listing := true;
     wheel_fails := λ _, None; count_fails := λ _, None;
     count := sample_count; eval_fails := λ _, None;
     hrefs := λ scrolls, if scrolls <? 5 then ["a"; "b"; "a"]
                         else ["a"; "b"; "a"; "c"; "b"];
     close_fails := None |}.

End Discoverer.

(** ** Vocabulary of the number properties *)

(** The least natural number that is not below [x]. *)
Definition ceiling (x : Q) : nat := Z.to_nat (Qceiling x).

(** ** Vocabulary of the string properties *)

Definition chars (s : string) : list ascii := String.list_ascii_of_string s.

Fixpoint skip_spaces (l : list ascii) : list ascii :=
  match l with
  | c :: rest => if is_js_space c then skip_spaces rest else l
  | [] => []
  end.

(** Every character of the string passes the test. *)
Definition all_chars (P : ascii → bool) (s : string) : Prop :=
  Forall (λ c, P c = true) (chars s).

(** No white space at either end. *)
Definition tight (s : string) : Prop :=
  (∀ c, head (chars s) = Some c → is_js_space c = false) ∧
  (∀ c, last (chars s) = Some c → is_js_space c = false).

(** [needle] occurs in [s]. *)
Definition occurs_in (needle s : string) : Prop :=
  ∃ before after, s = before +:+ needle +:+ after.

(** * Properties *)

(** ** The embedding on small inputs *)

Example trim_cafe : trim "  Cafe Nero " = "Cafe Nero".
Proof. reflexivity. Qed.

Example normalizePhone_keeps_dial_characters :
  normalizePhone (Some "tel: +90 (242) 1-23") = Some "+90 (242) 1-23".
Proof. reflexivity. Qed.

Example normalizePhone_nothing_left : normalizePhone (Some "n/a") = None.
Proof. reflexivity. Qed.

Example chunkArray_14_3 :
  fmap (M := list) length <$> Partitioner.chunkArray 14 (seq 0 14) 3
  = Some [5; 5; 4].
Proof. reflexivity. Qed.

Example chunkArray_one_part :
  Partitioner.chunkArray 3 ["a"; "b"; "c"] 1 = Some [["a"; "b"; "c"]].
Proof. reflexivity. Qed.

Example acquire_launches_first_browser :
  Pool.acquire 0 (λ _, true) 1 (Pool.new 3)
  = Some (Pool.Created 1,
          {| Pool.maxSize := 3; Pool.browsers := [1]; Pool.available := [] |}).
Proof. reflexivity. Qed.

Example acquire_spins_on_a_full_pool :
  Pool.acquire 5 (λ _, true) 9
    {| Pool.maxSize := 1; Pool.browsers := [1]; Pool.available := [] |}
  = None.
Proof. reflexivity. Qed.

Example release_drops_a_disconnected_browser :
  Pool.release (λ _, false) 1
    {| Pool.maxSize := 3; Pool.browsers := [1]; Pool.available := [] |}
  = {| Pool.maxSize := 3; Pool.browsers := [1]; Pool.available := [] |}.
Proof. reflexivity. Qed.

(** ** Numbers against lengths *)

Lemma ceiling_le n x : ceiling x ≤ n ↔ (x <= of_nat n)%Q.
Proof.
  unfold ceiling, of_nat. split.
  - intros H. eapply Qle_trans; [apply Qle_ceiling|].
    rewrite <-Zle_Qle. lia.
  - intros H. apply Qceiling_resp_le in H. rewrite Qceiling_Z in H. lia.
Qed.

Lemma ceiling_lt n x : n < ceiling x ↔ (of_nat n < x)%Q.
Proof.
  split.
  - intros H. apply Qnot_le_lt. intros Hle. apply ceiling_le in Hle. lia.
  - intros H. apply Nat.lt_nge. intros Hle. apply ceiling_le in Hle.
    by apply Qlt_not_le in H.
Qed.

(** The test [n >= x] is the test of [n] against the ceiling of [x]. *)
Lemma at_least_ceiling n x : at_least n x = (ceiling x <=? n).
Proof.
  unfold at_least. destruct (ceiling x <=? n) eqn:H.
  - apply Nat.leb_le, ceiling_le in H. by apply Qle_bool_iff.
  - apply Nat.leb_gt in H. destruct (Qle_bool x (of_nat n)) eqn:Hq; [|done].
    apply Qle_bool_iff, ceiling_le in Hq. lia.
Qed.

Lemma ceiling_of_nat n : ceiling (of_nat n) = n.
Proof. unfold ceiling, of_nat. rewrite Qceiling_Z. lia. Qed.

Lemma ceiling_proper x y : (x == y)%Q → ceiling x = ceiling y.
Proof. intros H. unfold ceiling. by rewrite H. Qed.

Lemma of_nat_S n : (of_nat (S n) == of_nat n + 1)%Q.
Proof.
  unfold of_nat. rewrite Nat2Z.inj_succ, <-Z.add_1_r, inject_Z_plus. done.
Qed.

Lemma to_integer_of_nat n : to_integer (of_nat n * 2) = Z.of_nat (n * 2).
Proof. unfold to_integer, of_nat. simpl. rewrite Z.quot_1_r. lia. Qed.

(** For a natural number [n], [slice(0, n * 2)] takes the first [2 n]
    items. *)
Lemma slice_to_of_nat {A : Type} (l : list A) n :
  slice_to l (of_nat n * 2) = take (n * 2) l.
Proof.
  unfold slice_to. rewrite to_integer_of_nat.
  assert (H : (Z.of_nat (n * 2) <? 0)%Z = false) by (apply Z.ltb_ge; lia).
  rewrite H. by rewrite Nat2Z.id.
Qed.

Lemma slice_to_zero {A : Type} (l : list A) x :
  (x == 0)%Q → slice_to l (x * 2) = [].
Proof.
  intros H. unfold slice_to.
  assert (to_integer (x * 2) = 0%Z) as ->.
  { unfold Qeq, to_integer in *. destruct x as [n d]. simpl in *.
    assert (n = 0%Z) as -> by lia. done. }
  done.
Qed.

Lemma slice_to_nil {A : Type} x : slice_to (@nil A) x = [].
Proof. unfold slice_to. destruct (to_integer x <? 0)%Z; apply take_nil. Qed.

(** ** Ceiling division *)

Lemma ceil_div_zero (d : nat) : 1 ≤ d → ceil_div 0 d = 0.
Proof.
  intros Hd. unfold ceil_div. apply Nat.div_small. lia.
Qed.

Lemma ceil_div_step (n d : nat) :
  1 ≤ d → 0 < n → ceil_div n d = S (ceil_div (n - d) d).
Proof.
  intros Hd Hn. unfold ceil_div.
  destruct (decide (n ≤ d)) as [Hle|Hgt].
  - replace (n - d) with 0 by lia.
    rewrite (Nat.div_small (0 + d - 1) d) by lia.
    symmetry. apply (Nat.div_unique _ _ 1 (n - 1)); lia.
  - replace (n + d - 1) with (1 * d + (n - d + d - 1)) by lia.
    rewrite Nat.div_add_l by lia. lia.
Qed.

Lemma ceil_div_upper (n d m : nat) : 1 ≤ d → n ≤ m * d → ceil_div n d ≤ m.
Proof.
  intros Hd Hn. unfold ceil_div.
  assert ((n + d - 1) / d < S m); [|lia].
  apply Nat.Div0.div_lt_upper_bound. nia.
Qed.

Lemma ceil_div_covers (n d : nat) : 1 ≤ d → n ≤ d * ceil_div n d.
Proof.
  intros Hd. unfold ceil_div.
  pose proof (Nat.div_mod_eq (n + d - 1) d) as Heq.
  pose proof (Nat.mod_upper_bound (n + d - 1) d) as Hlt.
  lia.
Qed.

Lemma ceil_div_pos (n d : nat) : 1 ≤ d → 0 < n → 1 ≤ ceil_div n d.
Proof. intros Hd Hn. rewrite (ceil_div_step n d) by done. lia. Qed.

(** ** chunkArray *)

Module PartitionerFacts.
Import Partitioner.
Section Chunks.
Context {A : Type}.
Implicit Types (array items : list A) (chunks rest : list (list A)).

Lemma slice_length array i j :
  length (slice array i j) = (j - i) `min` (length array - i).
Proof. unfold slice. by rewrite length_take, length_drop. Qed.

(** The loop pushes the slices that are left from index [i] on. *)
Lemma chunk_loop_spec fuel array cs : 1 ≤ cs → ∀ i chunks,
  length array - i ≤ fuel →
  ∃ rest,
    chunk_loop fuel array cs i chunks = Some (chunks ++ rest) ∧
    concat rest = drop i array ∧
    length rest = ceil_div (length array - i) cs ∧
    ∀ k c, rest !! k = Some c →
      c = slice array (i + k * cs) (i + S k * cs) ∧
      1 ≤ length c ∧
      (S k < length rest → length c = cs).
Proof.
  intros Hcs. induction fuel as [|fuel IH]; intros i chunks Hfuel; simpl.
  - assert (Hi : (i <? length array) = false) by (apply Nat.ltb_ge; lia).
    rewrite Hi. exists []. rewrite app_nil_r, drop_ge by lia.
    replace (length array - i) with 0 by lia.
    rewrite ceil_div_zero by done. naive_solver.
  - destruct (i <? length array) eqn:Hi.
    + apply Nat.ltb_lt in Hi.
      destruct (IH (i + cs) (chunks ++ [slice array i (i + cs)]))
        as (rest & Hrun & Hcat & Hlen & Hnth); [lia|].
      exists (slice array i (i + cs) :: rest).
      rewrite Hrun, <-app_assoc. split; [done|].
      assert (Hstep : ceil_div (length array - i) cs = S (length rest)).
      { rewrite ceil_div_step by lia. rewrite Hlen. do 2 f_equal. lia. }
      split; [|split].
      * simpl. rewrite Hcat. unfold slice.
        replace (i + cs - i) with cs by lia.
        rewrite <-drop_drop. apply take_drop.
      * simpl. by rewrite Hstep.
      * intros [|k] c Hk; simpl in Hk.
        -- simplify_eq. rewrite slice_length.
           split; [f_equal; lia|]. split; [lia|].
           simpl. intros Hmore.
           destruct (decide (length array - (i + cs) = 0)) as [Hz|Hnz].
           { rewrite Hz, ceil_div_zero in Hlen by done. lia. }
           lia.
        -- destruct (Hnth k c Hk) as (-> & Hpos & Hfull).
           split; [f_equal; lia|]. split; [done|].
           simpl. intros Hmore. apply Hfull. lia.
    + apply Nat.ltb_ge in Hi.
      exists []. rewrite app_nil_r, drop_ge by lia.
      replace (length array - i) with 0 by lia.
      rewrite ceil_div_zero by done. naive_solver.
Qed.

(** More fuel does not change what the loop returns. *)
Lemma chunk_loop_mono fuel array cs : ∀ fuel' i chunks r,
  fuel ≤ fuel' →
  chunk_loop fuel array cs i chunks = Some r →
  chunk_loop fuel' array cs i chunks = Some r.
Proof.
  induction fuel as [|fuel IH]; intros fuel' i chunks r Hle; simpl.
  - destruct (i <? length array) eqn:Hi; [done|].
    intros Hr. destruct fuel'; simpl; by rewrite Hi.
  - destruct (i <? length array) eqn:Hi.
    + destruct fuel' as [|fuel']; [lia|]. simpl. rewrite Hi.
      apply IH. lia.
    + intros Hr. destruct fuel'; simpl; by rewrite Hi.
Qed.

Lemma concat_length_sum chunks :
  sum_list_with length chunks = length (concat chunks).
Proof.
  induction chunks as [|c chunks IH]; simpl; [done|].
  rewrite length_app. lia.
Qed.

(** [chunkArray] comes back with any fuel from [length array] on, and
    what it returns: the consecutive slices of
    [ceil_div (length array) parts] items. *)
Lemma chunkArray_spec array parts :
  1 ≤ parts →
  ∃ chunks,
    (∀ fuel, length array ≤ fuel →
             chunkArray fuel array parts = Some chunks) ∧
    concat chunks = array ∧
    length chunks =
      ceil_div (length array) (ceil_div (length array) parts) ∧
    ∀ k c, chunks !! k = Some c →
      c = slice array (k * ceil_div (length array) parts)
                (S k * ceil_div (length array) parts) ∧
      1 ≤ length c ∧
      (S k < length chunks → length c = ceil_div (length array) parts).
Proof.
  intros Hparts. destruct parts as [|parts]; [lia|].
  unfold chunkArray. destruct array as [|x array].
  - exists []. split; [by intros [|fuel]|]. split; [done|].
    split; [cbn [length]; by rewrite (ceil_div_zero (S parts)) by lia|].
    intros k c Hk. by rewrite lookup_nil in Hk.
  - destruct (chunk_loop_spec (length (x :: array)) (x :: array)
                (ceil_div (length (x :: array)) (S parts))
                ltac:(apply ceil_div_pos; simpl; lia) 0 [])
      as (rest & Hrun & Hcat & Hlen & Hnth); [lia|].
    exists rest. rewrite Nat.sub_0_r in Hlen.
    split; [|split; [done|split; [done|]]].
    + intros fuel Hfuel. by apply (chunk_loop_mono _ _ _ _ _ _ _ Hfuel).
    + intros k c Hk. destruct (Hnth k c Hk) as (-> & ? & ?). done.
Qed.

(** C5 (as the code has it). For a non-empty list and [workerCount >= 1],
    [chunkArray] returns [ceil(len / ceil(len / workerCount))] chunks,
    at least one and at most [workerCount]; the chunks are the
    consecutive slices of the input; every chunk but the last holds
    [ceil(len / workerCount)] items, and the last holds between one
    item and that many: no chunk is empty. *)
Theorem chunkArray_shape items workerCount :
  items ≠ [] → 1 ≤ workerCount →
  ∃ chunks,
    (∀ fuel, length items ≤ fuel →
             chunkArray fuel items workerCount = Some chunks) ∧
    length chunks =
      ceil_div (length items) (ceil_div (length items) workerCount) ∧
    1 ≤ length chunks ≤ workerCount ∧
    ∀ k c, chunks !! k = Some c →
      c = slice items (k * ceil_div (length items) workerCount)
                (S k * ceil_div (length items) workerCount) ∧
      1 ≤ length c ≤ ceil_div (length items) workerCount ∧
      (S k < length chunks →
       length c = ceil_div (length items) workerCount).
Proof.
  intros Hne Hw.
  destruct (chunkArray_spec items workerCount Hw)
    as (chunks & Hrun & _ & Hlen & Hnth).
  assert (Hpos : 0 < length items) by (destruct items; simpl; [done|lia]).
  pose proof (ceil_div_pos (length items) workerCount Hw Hpos) as Hsize.
  exists chunks. split; [done|]. split; [done|]. split.
  - rewrite Hlen. split; [by apply ceil_div_pos|].
    apply ceil_div_upper; [done|].
    pose proof (ceil_div_covers (length items) workerCount Hw). lia.
  - intros k c Hk. destruct (Hnth k c Hk) as (Hc & Hc1 & Hfull).
    split; [done|]. split; [|done]. split; [done|].
    rewrite Hc, slice_length. lia.
Qed.

(** C6. For every list and [workerCount >= 1], [chunkArray] returns,
    whatever the fuel from [length items] on, one and the same list of
    chunks; their concatenation in chunk order is the input list, so
    nothing is dropped, repeated or moved, and the chunk lengths add up
    to the length of the input. *)
Theorem chunkArray_concat items workerCount :
  1 ≤ workerCount →
  ∃ chunks,
    (∀ fuel, length items ≤ fuel →
             chunkArray fuel items workerCount = Some chunks) ∧
    concat chunks = items ∧
    sum_list_with length chunks = length items.
Proof.
  intros Hw.
  destruct (chunkArray_spec items workerCount Hw)
    as (chunks & Hrun & Hcat & _).
  exists chunks. split; [done|]. split; [done|].
  by rewrite concat_length_sum, Hcat.
Qed.
End Chunks.
End PartitionerFacts.

(** C5, witness: four items for three workers. *)
Lemma chunkArray_shape_witness :
  [1; 2; 3; 4] ≠ [] ∧ 1 ≤ 3 ∧
  ∃ chunks : list (list nat),
    (∀ fuel, length [1; 2; 3; 4] ≤ fuel →
             Partitioner.chunkArray fuel [1; 2; 3; 4] 3 = Some chunks) ∧
    length chunks = ceil_div (length [1; 2; 3; 4]) (ceil_div (length [1; 2; 3; 4]) 3) ∧
    1 ≤ length chunks ≤ 3 ∧
    ∀ k c, chunks !! k = Some c →
      c = slice [1; 2; 3; 4] (k * ceil_div (length [1; 2; 3; 4]) 3)
                (S k * ceil_div (length [1; 2; 3; 4]) 3) ∧
      1 ≤ length c ≤ ceil_div (length [1; 2; 3; 4]) 3 ∧
      (S k < length chunks → length c = ceil_div (length [1; 2; 3; 4]) 3).
Proof.
  split; [done|]. split; [lia|].
  apply (PartitionerFacts.chunkArray_shape [1; 2; 3; 4] 3); [done|lia].
Defined.

(** C5, as the specification words it, fails: four items for three
    workers come back as two chunks, not three; seven items for three
    workers come back in sizes 3, 3 and 1, two apart. *)
Lemma chunkArray_shape_counterexample :
  Partitioner.chunkArray 4 [1; 2; 3; 4] 3 = Some [[1; 2]; [3; 4]] ∧
  ¬ Partitioner.spec_partition_shape [1; 2; 3; 4] 3 [[1; 2]; [3; 4]] ∧
  Partitioner.chunkArray 7 [1; 2; 3; 4; 5; 6; 7] 3
    = Some [[1; 2; 3]; [4; 5; 6]; [7]] ∧
  ¬ Partitioner.spec_partition_shape [1; 2; 3; 4; 5; 6; 7] 3
      [[1; 2; 3]; [4; 5; 6]; [7]].
Proof.
  split; [reflexivity|]. split; [intros (Hlen & _); simpl in Hlen; lia|].
  split; [reflexivity|]. intros (_ & _ & Hdiff).
  specialize (Hdiff [1; 2; 3] [7]). simpl in Hdiff.
  assert (3 ≤ 2); [|lia]. apply Hdiff; set_solver.
Qed.

(** C6, witness: seven items for three workers. *)
Lemma chunkArray_concat_witness :
  1 ≤ 3 ∧
  ∃ chunks : list (list nat),
    (∀ fuel, length [1; 2; 3; 4; 5; 6; 7] ≤ fuel →
             Partitioner.chunkArray fuel [1; 2; 3; 4; 5; 6; 7] 3 = Some chunks) ∧
    concat chunks = [1; 2; 3; 4; 5; 6; 7] ∧
    sum_list_with length chunks = length [1; 2; 3; 4; 5; 6; 7].
Proof.
  split; [lia|].
  apply (PartitionerFacts.chunkArray_concat [1; 2; 3; 4; 5; 6; 7] 3); lia.
Defined.

(** ** BrowserPool *)

Module PoolFacts.
Import Pool.

Lemma pop_snoc m bs idle x :
  pop {| maxSize := m; browsers := bs; available := idle ++ [x] |}
  = (Some x, {| maxSize := m; browsers := bs; available := idle |}).
Proof.
  unfold pop. cbn [available maxSize browsers].
  rewrite last_snoc, removelast_last. by destruct idle.
Qed.

(** One call of [acquire], line by line. *)
Lemma acquire_unfold fuel isConnected launch p :
  acquire fuel isConnected launch p
  = match connected_one isConnected (fst (pop p)) with
    | Some browser => Some (Reused browser, snd (pop p))
    | None =>
        if length (browsers (snd (pop p))) <? maxSize (snd (pop p)) then
          Some (Created launch,
                {| maxSize := maxSize (snd (pop p));
                   browsers := browsers (snd (pop p)) ++ [launch];
                   available := available (snd (pop p)) |})
        else
          match fuel with
          | 0 => None
          | S fuel' => acquire fuel' isConnected launch (snd (pop p))
          end
    end.
Proof.
  destruct fuel; simpl; unfold enter; destruct (pop p) as [popped p1];
    cbn [fst snd];
    (destruct (connected_one isConnected popped); [done|]);
    by destruct (length (browsers p1) <? maxSize p1).
Qed.

(** With the pool full, [acquire] drops the disconnected browsers at the
    end of the idle list, one per wait, and returns the connected one
    before them: it needs as many waits as there are such browsers. *)
Lemma acquire_last_connected isConnected launch m bs b : ∀ dead fuel idle,
  isConnected b = true →
  Forall (λ x, isConnected x = false) dead →
  dead = [] ∨ m ≤ length bs →
  acquire fuel isConnected launch
          {| maxSize := m; browsers := bs; available := idle ++ b :: dead |}
  = if length dead <=? fuel
    then Some (Reused b, {| maxSize := m; browsers := bs; available := idle |})
    else None.
Proof.
  induction dead as [|x dead IH] using rev_ind;
    intros fuel idle Hb Hdead Hfull.
  - rewrite acquire_unfold, pop_snoc. cbn [fst snd connected_one length].
    by rewrite Hb.
  - apply Forall_app in Hdead as [Hdead Hx].
    apply Forall_inv in Hx.
    destruct Hfull as [Hnil|Hfull]; [by destruct dead|].
    change (b :: dead ++ [x]) with ((b :: dead) ++ [x]).
    rewrite app_assoc, acquire_unfold, pop_snoc.
    cbn [fst snd connected_one maxSize browsers]. rewrite Hx.
    assert (Hcap : (length bs <? m) = false) by (apply Nat.ltb_ge; lia).
    rewrite Hcap, length_app. cbn [length].
    destruct fuel as [|fuel].
    + by replace (length dead + 1) with (S (length dead)) by lia.
    + rewrite IH by auto.
      by replace (length dead + 1) with (S (length dead)) by lia.
Qed.

(** An idle list with a connected browser splits at its last connected
    browser. *)
Lemma split_last_connected (isConnected : Browser → bool) (idle : list Browser) :
  (∃ b, b ∈ idle ∧ isConnected b = true) →
  ∃ before b dead,
    idle = before ++ b :: dead ∧ isConnected b = true ∧
    Forall (λ x, isConnected x = false) dead.
Proof.
  induction idle as [|x idle IH] using rev_ind; intros (b & Hin & Hb).
  - by apply elem_of_nil in Hin.
  - destruct (isConnected x) eqn:Hx.
    + exists idle, x, []. by rewrite Forall_nil.
    + apply elem_of_app in Hin as [Hin|Hin].
      * destruct IH as (before & b' & dead & -> & Hb' & Hdead); [by eauto|].
        exists before, b', (dead ++ [x]).
        rewrite <-app_assoc. split; [done|]. split; [done|].
        apply Forall_app. by rewrite Forall_singleton.
      * apply list_elem_of_singleton in Hin as ->. congruence.
Qed.

(** C4 (as the code has it). Let the idle list hold a connected browser,
    and let [b] be the last connected one, with the disconnected
    browsers [dead] after it. If [b] stands at the end of the list, or
    the pool already holds [maxSize] browsers, a call of [acquire]
    returns [b] and launches nothing; with the pool full it does so
    after exactly one wait per browser of [dead], which it drops, and
    the idle list is left with the browsers before [b]. If a
    disconnected browser stands at the end and the pool is below
    [maxSize], [acquire] launches a new browser at once, although [b]
    is idle and connected, and only the popped browser leaves the idle
    list. *)
Theorem acquire_reuses_idle isConnected launch p :
  (∃ b, b ∈ available p ∧ isConnected b = true) →
  ∃ before b dead,
    available p = before ++ b :: dead ∧
    isConnected b = true ∧
    Forall (λ x, isConnected x = false) dead ∧
    (dead = [] ∨ maxSize p ≤ length (browsers p) →
     ∀ fuel,
       acquire fuel isConnected launch p
       = if length dead <=? fuel
         then Some (Reused b,
                    {| maxSize := maxSize p; browsers := browsers p;
                       available := before |})
         else None) ∧
    (dead ≠ [] → length (browsers p) < maxSize p →
     ∀ fuel,
       acquire fuel isConnected launch p
       = Some (Created launch,
               {| maxSize := maxSize p; browsers := browsers p ++ [launch];
                  available := removelast (available p) |})).
Proof.
  destruct p as [m bs idle]. cbn [available maxSize browsers].
  intros Hex.
  destruct (split_last_connected isConnected idle Hex)
    as (before & b & dead & -> & Hb & Hdead).
  exists before, b, dead. split; [done|]. split; [done|]. split; [done|].
  split.
  - intros Hcase fuel. by apply acquire_last_connected.
  - intros Hne Hroom fuel.
    destruct dead as [|x dead _] using rev_ind; [done|].
    apply Forall_app in Hdead as [_ Hx]. apply Forall_inv in Hx.
    change (b :: dead ++ [x]) with ((b :: dead) ++ [x]).
    rewrite app_assoc, acquire_unfold, pop_snoc, removelast_last.
    cbn [fst snd connected_one maxSize browsers available]. rewrite Hx.
    assert (Hcap : (length bs <? m) = true) by by apply Nat.ltb_lt.
    by rewrite Hcap.
Qed.
End PoolFacts.

(** C4, witness: a full pool whose idle list ends with a disconnected
    browser; browser 5, the last connected one, is returned after one
    wait, and not before. *)
Lemma acquire_reuses_idle_witness :
  let isConnected := λ b : Pool.Browser, bool_decide (b ≠ 2) in
  let p := {| Pool.maxSize := 3; Pool.browsers := [1; 2; 5];
              Pool.available := [1; 5; 2] |} in
  (∃ b, b ∈ Pool.available p ∧ isConnected b = true) ∧
  Pool.acquire 0 isConnected 7 p = None ∧
  Pool.acquire 1 isConnected 7 p
  = Some (Pool.Reused 5,
          {| Pool.maxSize := 3; Pool.browsers := [1; 2; 5];
             Pool.available := [1] |}) ∧
  ∃ before b dead,
    Pool.available p = before ++ b :: dead ∧
    isConnected b = true ∧
    Forall (λ x, isConnected x = false) dead ∧
    (dead = [] ∨ Pool.maxSize p ≤ length (Pool.browsers p) →
     ∀ fuel,
       Pool.acquire fuel isConnected 7 p
       = if length dead <=? fuel
         then Some (Pool.Reused b,
                    {| Pool.maxSize := Pool.maxSize p;
                       Pool.browsers := Pool.browsers p;
                       Pool.available := before |})
         else None) ∧
    (dead ≠ [] → length (Pool.browsers p) < Pool.maxSize p →
     ∀ fuel,
       Pool.acquire fuel isConnected 7 p
       = Some (Pool.Created 7,
               {| Pool.maxSize := Pool.maxSize p;
                  Pool.browsers := Pool.browsers p ++ [7];
                  Pool.available := removelast (Pool.available p) |})).
Proof.
  assert (Hex : ∃ b, b ∈ [1; 5; 2] ∧ bool_decide (b ≠ 2) = true).
  { exists 5. split; [set_solver|done]. }
  split; [exact Hex|]. split; [reflexivity|]. split; [reflexivity|].
  apply (PoolFacts.acquire_reuses_idle (λ b, bool_decide (b ≠ 2)) 7
           {| Pool.maxSize := 3; Pool.browsers := [1; 2; 5];
              Pool.available := [1; 5; 2] |}).
  exact Hex.
Defined.

(** C4, as the specification words it, fails: browser 1 is idle and
    connected, browser 2 was released after it and has since lost its
    connection; the pool is below its limit. [acquire] pops 2, finds it
    disconnected and launches browser 3. *)
Lemma acquire_reuses_idle_counterexample :
  let isConnected := λ b : Pool.Browser, bool_decide (b = 1) in
  let p := {| Pool.maxSize := 3; Pool.browsers := [1; 2];
              Pool.available := [1; 2] |} in
  (1 ∈ Pool.available p ∧ isConnected 1 = true) ∧
  ∀ fuel, Pool.acquire fuel isConnected 3 p
          = Some (Pool.Created 3,
                  {| Pool.maxSize := 3; Pool.browsers := [1; 2; 3];
                     Pool.available := [1] |}).
Proof.
  split; [split; [set_solver|done]|]. by intros [|fuel].
Qed.


(** ** One orchestration run *)

Module OrchestratorFacts.
Import Pool Partitioner Orchestrator.

Lemma truthy_nonempty (s : option string) :
  truthy s = true → ∃ n, s = Some n ∧ n ≠ "".
Proof. destruct s as [[|c r]|]; simpl; try done. eauto. Qed.

(** *** scrapeDirectUrl *)

Lemma scrapeDirectUrl_some obs coords url b :
  scrapeDirectUrl obs coords url = Returned (Some b) →
  goto_error obs = None ∧ name_visible obs = true ∧
  name b = trim <$> name_text obs ∧ truthy (name b) = true.
Proof.
  unfold scrapeDirectUrl. destruct (goto_error obs); [done|].
  destruct (name_visible obs); simpl; [|done].
  destruct (truthy (trim <$> name_text obs)) eqn:Ht; [|done].
  intros [= <-]. done.
Qed.

Lemma scrapeDirectUrl_null obs coords url :
  goto_error obs = None →
  name_visible obs = false ∨ truthy (trim <$> name_text obs) = false →
  scrapeDirectUrl obs coords url = Returned None.
Proof.
  unfold scrapeDirectUrl. intros -> [->| Hname]; simpl; [done|].
  destruct (name_visible obs); simpl; [|done]. by rewrite Hname.
Qed.

Lemma extracted_named env b : extracted env b → truthy (name b) = true.
Proof. intros (url & Hb). by apply scrapeDirectUrl_some in Hb as (_ & _ & _ & ?). Qed.

(** *** Calm computations *)

Section Calm.
Context {A B : Type}.

Lemma calm_ret (Post : A → Prop) a : Post a → calm Post (mret a).
Proof.
  intros Ha w. exists w, (Returned a), [], [].
  rewrite !app_nil_r. do 6 (split; [done|]). by intros ? [= <-].
Qed.

Lemma calm_throw (Post : A → Prop) e : calm Post (throw e).
Proof. intros w. exists w, (Thrown e), [], []. by rewrite !app_nil_r. Qed.

Lemma calm_weaken (Pre Post : A → Prop) m :
  (∀ a, Pre a → Post a) → calm Pre m → calm Post m.
Proof.
  intros Himp Hm w.
  destruct (Hm w) as (w' & out & evs & later & ? & ? & ? & ? & ? & ? & HP).
  exists w', out, evs, later. do 6 (split; [done|]).
  intros a Ha. destruct (HP a Ha). auto.
Qed.

Lemma calm_bind (Pre : A → Prop) (Post : B → Prop) (m : M A) (k : A → M B) :
  calm Pre m → (∀ a, Pre a → calm Post (k a)) → calm Post (m ≫= k).
Proof.
  intros Hm Hk w.
  destruct (Hm w)
    as (w1 & out & evs & later & Hrun & Hpool & Htr & Hev & Hdet & Hlater & HP).
  unfold mbind, M_bind. rewrite Hrun. destruct out as [a|e].
  - destruct (HP a eq_refl) as [Ha ->]. rewrite app_nil_r in Hdet.
    destruct (Hk a Ha w1)
      as (w2 & out2 & evs2 & later2 & Hrun2 & Hpool2 & Htr2 & Hev2 & Hdet2
          & Hlater2 & HQ).
    exists w2, out2, (evs ++ evs2), later2.
    rewrite Hrun2, Hpool2, Htr2, Htr, Hdet2, Hdet, app_assoc.
    do 3 (split; [done|]). split; [by apply Forall_app|]. done.
  - exists w1, (Thrown e), evs, later. by repeat split.
Qed.

Lemma calm_try_finally (Post : A → Prop) (body : M A) (final : M ()) :
  calm Post body → calm (λ _, True) final →
  calm Post (try_finally body final).
Proof.
  intros Hbody Hfinal w.
  destruct (Hbody w)
    as (w1 & out & evs & later & Hrun & Hpool & Htr & Hev & Hdet & Hlater & HP).
  destruct (Hfinal w1)
    as (w2 & out2 & evs2 & later2 & Hrun2 & Hpool2 & Htr2 & Hev2 & Hdet2
        & Hlater2 & HP2).
  unfold try_finally, try_catch_finally, throw. rewrite Hrun.
  assert (Hmid : match out with
                 | Returned a => Some (w1, Returned a)
                 | Thrown e => Some (w1, Thrown e)
                 end = Some (w1, out)) by by destruct out.
  rewrite Hmid, Hrun2.
  exists w2, (match out2 with Returned _ => out | Thrown e' => Thrown e' end),
         (evs ++ evs2), (later ++ later2).
  rewrite Hpool2, Htr2, Htr, Hdet2, Hdet, !app_assoc.
  split; [by destruct out2|]. do 2 (split; [done|]).
  split; [by apply Forall_app|]. split; [done|].
  split; [by apply Forall_app|].
  intros a Ha. destruct out2 as [u|e']; [|done].
  destruct (HP a Ha) as [? ->]. destruct (HP2 u eq_refl) as [_ ->]. done.
Qed.
End Calm.

Lemma calm_emit ev :
  is_pool_event ev = false → calm (λ _, True) (emit ev).
Proof.
  intros Hev w. eexists _, _, [ev], []. split; [done|]. simpl.
  rewrite app_nil_r. do 2 (split; [done|]).
  split; [by apply Forall_singleton|]. done.
Qed.

Lemma calm_settle {A : Type} (o : Outcome A) : calm (λ _, True) (settle o).
Proof. intros w. exists w, o, [], []. by rewrite !app_nil_r. Qed.

Lemma calm_settle_unit failure : calm (λ _, True) (settle_unit failure).
Proof.
  destruct failure; simpl; [apply calm_throw|by apply calm_ret].
Qed.

(** *** Promise.all *)

Lemma first_rejection_None {A : Type} settled_at :
  ∀ (outcomes : list (Outcome A)) i,
    first_rejection settled_at i outcomes = None ↔
    Forall (λ o, ∃ a, o = Returned a) outcomes.
Proof.
  induction outcomes as [|o outcomes IH]; intros i; simpl; [done|].
  destruct o as [a|e].
  - rewrite IH, Forall_cons. split; [eauto|]. by intros [_ ?].
  - split.
    + destruct (first_rejection settled_at (S i) outcomes) as [[j e']|];
        [|done].
      by destruct (settled_at j <? settled_at i).
    + intros [(a & [=]) _]%Forall_cons.
Qed.

(** The rejection that is picked is one of the rejections, and none of
    the others comes before it. *)
Lemma first_rejection_Some {A : Type} settled_at :
  ∀ (outcomes : list (Outcome A)) i j e,
    first_rejection settled_at i outcomes = Some (j, e) →
    ∃ k, j = i + k ∧ outcomes !! k = Some (Thrown e) ∧
         ∀ k' e', outcomes !! k' = Some (Thrown e') → k' ≠ k →
           settled_at j < settled_at (i + k') ∨
           (settled_at j = settled_at (i + k') ∧ k < k').
Proof.
  induction outcomes as [|o outcomes IH]; intros i j e; simpl; [done|].
  destruct o as [a|e0].
  - intros Hrest. destruct (IH _ _ _ Hrest) as (k & -> & Hk & Hmin).
    exists (S k). split; [lia|]. split; [done|].
    intros [|k'] e' Hk' Hne; simpl in Hk'; [done|].
    replace (i + S k') with (S i + k') by lia.
    destruct (Hmin k' e' Hk') as [?|[? ?]]; [congruence| |]; [by left|].
    right. split; [done|lia].
  - destruct (first_rejection settled_at (S i) outcomes) as [[j' e']|]
      eqn:Hrest.
    + destruct (IH _ _ _ Hrest) as (k & -> & Hk & Hmin).
      destruct (settled_at (S i + k) <? settled_at i) eqn:Hearlier.
      * apply Nat.ltb_lt in Hearlier. intros [= <- <-].
        exists (S k). split; [lia|]. split; [done|].
        intros [|k'] e'' Hk' Hne; simpl in Hk'.
        -- rewrite Nat.add_0_r. by left.
        -- replace (i + S k') with (S i + k') by lia.
           destruct (Hmin k' e'' Hk') as [?|[? ?]]; [congruence| |];
             [by left|].
           right. split; [done|lia].
      * apply Nat.ltb_ge in Hearlier. intros [= <- <-].
        exists 0. split; [lia|]. split; [done|].
        intros [|k'] e'' Hk' Hne; simpl in Hk'; [done|].
        replace (i + S k') with (S i + k') by lia.
        destruct (decide (k' = k)) as [->|Hother].
        -- destruct (decide (settled_at i = settled_at (S i + k)));
             [right; split; [done|lia]|left; lia].
        -- destruct (Hmin k' e'' Hk' Hother) as [?|[? ?]];
             destruct (decide (settled_at i = settled_at (S i + k')));
             try (right; split; [done|lia]); left; lia.
    + intros [= <- <-]. exists 0. split; [lia|]. split; [done|].
      intros [|k'] e' Hk' Hne; simpl in Hk'; [done|].
      apply first_rejection_None in Hrest.
      rewrite Forall_forall in Hrest.
      destruct (Hrest (Thrown e')) as (a & [=]).
      by eapply list_elem_of_lookup_2.
Qed.

Lemma fulfilled_post {A : Type} (Post : A → Prop)
    (outcomes : list (Outcome A)) :
  Forall (λ o, ∀ a, o = Returned a → Post a) outcomes →
  Forall Post (fulfilled outcomes).
Proof.
  induction 1 as [|o outcomes Ho _ IH]; [constructor|].
  unfold fulfilled. cbn [omap list_omap]. destruct o as [a|e]; [|done].
  constructor; auto.
Qed.

Lemma fulfilled_returned {A : Type} (values : list A) :
  fulfilled (Returned <$> values) = values.
Proof.
  induction values as [|a values IH]; [done|].
  unfold fulfilled in *. cbn [fmap list_fmap omap list_omap]. by f_equal.
Qed.

Lemma Forall_concat_imap {A B : Type} (P : B → Prop) (g : A → list B)
    (l : list A) : ∀ (f : nat → A → list B),
  (∀ i x, Forall P (g x) → Forall P (f i x)) →
  Forall P (concat (g <$> l)) → Forall P (concat (imap f l)).
Proof.
  induction l as [|x l IH]; intros f Hf; simpl; [done|].
  intros [Hx Hl]%Forall_app. apply Forall_app. split; [by apply Hf|].
  apply IH; [|done]. intros i y. apply Hf.
Qed.

(** Promises that are calm, each taken to its end. *)
Lemma settle_each_calm {A : Type} (Post : A → Prop) (promises : list (M A)) :
  Forall (calm Post) promises →
  ∀ w, ∃ w' settled later,
    settle_each promises w = Some (w', settled) ∧
    pool w' = pool w ∧
    trace w' = trace w ++ concat (fst <$> settled) ∧
    Forall (λ ev, is_pool_event ev = false) (concat (fst <$> settled)) ∧
    detached w' = detached w ++ later ∧
    Forall (λ ev, is_pool_event ev = false) later ∧
    Forall (λ o, ∀ a, o = Returned a → Post a) (snd <$> settled) ∧
    (Forall (λ o, ∃ a, o = Returned a) (snd <$> settled) → later = []).
Proof.
  induction 1 as [|p rest Hp _ IH]; intros w; simpl.
  - exists w, [], []. rewrite !app_nil_r. simpl. by repeat split.
  - destruct (Hp w)
      as (w1 & r & evs & later1 & Hrun & Hpool & Htr & Hev & Hdet & Hlater
          & HP).
    destruct (IH w1)
      as (w2 & settled & later2 & Hrun2 & Hpool2 & Htr2 & Hev2 & Hdet2
          & Hlater2 & HPs & Hnone).
    rewrite Hrun, Hrun2.
    exists w2, ((drop (length (trace w)) (trace w1), r) :: settled),
           (later1 ++ later2).
    rewrite Htr, drop_app_length. cbn [fmap list_fmap fst snd concat].
    rewrite Htr2, Htr, Hpool2, Hdet2, Hdet, !app_assoc.
    do 3 (split; [done|]). split; [by apply Forall_app|]. split; [done|].
    split; [by apply Forall_app|]. split.
    + constructor; [|done]. intros a Ha. by destruct (HP a Ha).
    + intros [(a & ->) Hrest]%Forall_cons.
      destruct (HP a eq_refl) as [_ ->]. by rewrite (Hnone Hrest).
Qed.

Lemma calm_promise_all {A : Type} (Post : A → Prop) settled_at calls_made
    (promises : list (M A)) :
  Forall (calm Post) promises →
  calm (Forall Post) (promise_all settled_at calls_made promises).
Proof.
  intros Hall w.
  destruct (settle_each_calm Post promises Hall w)
    as (w' & settled & later & Hrun & Hpool & Htr & Hev & Hdet & Hlater
        & HPs & Hnone).
  unfold promise_all. rewrite Hrun.
  destruct (first_rejection settled_at 0 (snd <$> settled)) as [[winner e]|]
    eqn:Hfirst.
  - eexists _, (Thrown e), _, (later ++ _). split; [done|].
    cbn [pool trace detached]. do 2 (split; [done|]). split.
    { apply (Forall_concat_imap _ fst); [|done].
      intros i s Hs. unfold made_by.
      destruct (settled_at i <=? settled_at winner);
        [done|by apply Forall_take]. }
    split; [by rewrite Hdet, app_assoc|]. split; [|done].
    apply Forall_app. split; [done|].
    apply (Forall_concat_imap _ fst); [|done].
    intros i s Hs. unfold left_to.
    destruct (settled_at i <=? settled_at winner);
      [done|by apply Forall_drop].
  - apply first_rejection_None in Hfirst.
    exists w', (Returned (fulfilled (snd <$> settled))),
           (concat (fst <$> settled)), later.
    do 6 (split; [done|]). intros l [= <-].
    split; [by apply fulfilled_post|auto].
Qed.

(** *** The chunk worker *)

(** The worker loop reads the shared seen set and never writes it: it
    comes back in the state it started in. What it returns is what it
    had plus records that [scrapeDirectUrl] gave it. *)
Lemma worker_loop_spec env workerId maxTotal urls : ∀ results w,
  ∃ results',
    worker_loop env urls workerId maxTotal results w
      = Some (w, Returned results') ∧
    ∀ b, b ∈ results' → b ∈ results ∨ extracted env b.
Proof.
  induction urls as [|url rest IH]; intros results w.
  - exists results. split; [done|]. auto.
  - cbn [worker_loop]. unfold mbind, M_bind, get_seen.
    destruct (at_least (size (seenBusinesses w)) maxTotal).
    { exists results. split; [done|]. auto. }
    destruct (scrapeDirectUrl (page env url) (url_coordinates env url) url)
      as [[business|]|e] eqn:Hurl; [|apply IH..].
    destruct (truthy (name business)); [|apply IH].
    destruct (decide (dedupKey business ∈ seenBusinesses w)); [apply IH|].
    destruct (IH (results ++ [business]) w) as (results' & Hrun & Hfrom).
    exists results'. split; [done|]. intros b Hb.
    destruct (Hfrom b Hb) as [Hin|?]; [|by right].
    apply elem_of_app in Hin as [?|Hin]; [by left|].
    apply list_elem_of_singleton in Hin as ->. right. by exists url.
Qed.

Lemma calm_worker_loop env workerId maxTotal urls :
  calm (Forall (extracted env)) (worker_loop env urls workerId maxTotal []).
Proof.
  intros w.
  destruct (worker_loop_spec env workerId maxTotal urls [] w)
    as (results' & Hrun & Hfrom).
  exists w, (Returned results'), [], []. rewrite !app_nil_r.
  do 6 (split; [done|]).
  intros a [= <-]. split; [|done]. apply Forall_forall. intros b Hb.
  destruct (Hfrom b Hb) as [Hnil|?]; [|done]. by apply elem_of_nil in Hnil.
Qed.

Lemma calm_scrapeUrlChunk env browser urls workerId maxTotal :
  calm (Forall (extracted env))
       (scrapeUrlChunk env browser urls workerId maxTotal).
Proof.
  unfold scrapeUrlChunk.
  eapply calm_bind; [apply calm_settle_unit|]. intros _ _.
  eapply calm_bind; [by apply calm_emit|]. intros _ _.
  apply calm_try_finally; [apply calm_worker_loop|].
  eapply calm_bind; [by apply calm_emit|]. intros _ _.
  apply calm_settle_unit.
Qed.

(** A whole worker, from opening its context to closing it, leaves the
    shared seen set as it found it. *)
Lemma scrapeUrlChunk_keeps_seen env browser urls workerId maxTotal w w' out :
  scrapeUrlChunk env browser urls workerId maxTotal w = Some (w', out) →
  seenBusinesses w' = seenBusinesses w.
Proof.
  unfold scrapeUrlChunk, try_finally, try_catch_finally, mbind, M_bind,
    settle_unit, emit, throw, mret, M_ret.
  destruct (context_open env workerId); [by intros [= <- _]|].
  cbn [pool seenBusinesses trace detached].
  match goal with
  | |- context [worker_loop ?e ?u ?i ?m ?r ?w0] =>
      destruct (worker_loop_spec e i m u r w0) as (results' & -> & _)
  end.
  destruct (context_close env workerId); by intros [= <- _].
Qed.

(** A worker rejects exactly with the error of its context. *)
Lemma scrapeUrlChunk_settles env browser urls workerId maxTotal w :
  ∃ w' out,
    scrapeUrlChunk env browser urls workerId maxTotal w = Some (w', out) ∧
    match rejection env workerId with
    | Some e => out = Thrown e
    | None => ∃ rs, out = Returned rs
    end.
Proof.
  unfold scrapeUrlChunk, try_finally, try_catch_finally, mbind, M_bind,
    settle_unit, emit, throw, mret, M_ret, rejection.
  destruct (context_open env workerId) as [e|]; [eauto|].
  cbn [pool seenBusinesses trace detached].
  match goal with
  | |- context [worker_loop ?e ?u ?i ?m ?r ?w0] =>
      destruct (worker_loop_spec e i m u r w0) as (results' & -> & _)
  end.
  destruct (context_close env workerId) as [e|]; eauto.
Qed.

(** The workers of a run, each taken to its end. *)
Lemma settle_each_workers env browser maxTotal chunks :
  ∀ (g : nat → nat) w w' settled,
    settle_each
      (imap (λ i chunk, scrapeUrlChunk env browser chunk (g i) maxTotal)
            chunks) w = Some (w', settled) →
    length settled = length chunks ∧
    ∀ i o, (snd <$> settled) !! i = Some o →
      match rejection env (g i) with
      | Some e => o = Thrown e
      | None => ∃ rs, o = Returned rs
      end.
Proof.
  induction chunks as [|chunk chunks IH]; intros g w w' settled.
  - intros [= <- <-]. split; [done|]. intros i o Hi. by destruct i.
  - cbn [imap settle_each].
    destruct (scrapeUrlChunk_settles env browser chunk (g 0) maxTotal w)
      as (w1 & out & -> & Hout).
    destruct (settle_each _ w1) as [[w2 rest]|] eqn:Hrest; [|done].
    intros [= <- <-].
    destruct (IH (g ∘ S) w1 w2 rest Hrest) as (Hlen & Hrej).
    split; [simpl; by rewrite Hlen|].
    intros [|i] o Hi; simpl in Hi.
    + by injection Hi as <-.
    + by apply (Hrej i o).
Qed.

(** *** The merge *)

Lemma merge_chunk_spec maxResults chunk : ∀ results w,
  ∃ w' results',
    merge_chunk maxResults chunk results w = Some (w', Returned results') ∧
    pool w' = pool w ∧ trace w' = trace w ∧ detached w' = detached w ∧
    (merge_inv (ceiling maxResults) w results →
     merge_inv (ceiling maxResults) w' results') ∧
    ∀ b, b ∈ results' → b ∈ results ∨ b ∈ chunk.
Proof.
  induction chunk as [|business rest IH]; intros results w.
  - exists w, results. split; [done|]. auto 6.
  - cbn [merge_chunk]. rewrite at_least_ceiling.
    destruct (ceiling maxResults <=? length results) eqn:Hcap.
    { exists w, results. split; [done|]. auto 6. }
    apply Nat.leb_gt in Hcap.
    unfold mbind, M_bind, get_seen, set_seen.
    destruct (decide (dedupKey business ∈ seenBusinesses w)) as [Hseen|Hnew].
    + destruct (IH results w) as (w' & results' & Hrun & ? & ? & ? & ? & Hfrom).
      exists w', results'. do 5 (split; [done|]). intros b Hb.
      destruct (Hfrom b Hb); [by left|right; by apply list_elem_of_further].
    + set (w1 := {| pool := pool w;
                    seenBusinesses := {[dedupKey business]} ∪ seenBusinesses w;
                    trace := trace w; detached := detached w |}).
      destruct (IH (results ++ [business]) w1)
        as (w' & results' & Hrun & Hpool & Htr & Hdet & Hinv & Hfrom).
      exists w', results'. do 4 (split; [done|]).
      split.
      * intros (Hnd & Hin & Hlen). apply Hinv. split; [|split].
        -- rewrite fmap_app. apply NoDup_app. split; [done|].
           split; [|apply NoDup_singleton].
           intros key Hkey Hkey'. apply list_elem_of_singleton in Hkey' as ->.
           apply list_elem_of_fmap in Hkey as (b & Heq & Hb).
           apply Hnew. rewrite Heq. by apply Hin.
        -- intros b Hb. simpl. apply elem_of_app in Hb as [Hb|Hb].
           ++ apply elem_of_union_r. by apply Hin.
           ++ apply list_elem_of_singleton in Hb as ->.
              apply elem_of_union_l. by apply elem_of_singleton.
        -- rewrite length_app. simpl. lia.
      * intros b Hb. destruct (Hfrom b Hb) as [Hin|?].
        -- apply elem_of_app in Hin as [?|Hin]; [by left|].
           apply list_elem_of_singleton in Hin as ->. right. apply list_elem_of_here.
        -- right. by apply list_elem_of_further.
Qed.

Lemma merge_chunks_spec maxResults chunkResults : ∀ results w,
  ∃ w' results',
    merge_chunks maxResults chunkResults results w
      = Some (w', Returned results') ∧
    pool w' = pool w ∧ trace w' = trace w ∧ detached w' = detached w ∧
    (merge_inv (ceiling maxResults) w results →
     merge_inv (ceiling maxResults) w' results') ∧
    ∀ b, b ∈ results' → b ∈ results ∨ b ∈ concat chunkResults.
Proof.
  induction chunkResults as [|chunk more IH]; intros results w.
  - exists w, results. split; [done|]. auto 6.
  - cbn [merge_chunks]. unfold mbind, M_bind.
    destruct (merge_chunk_spec maxResults chunk results w)
      as (w1 & results1 & -> & Hpool1 & Htr1 & Hdet1 & Hinv1 & Hfrom1).
    destruct (IH results1 w1)
      as (w2 & results2 & Hrun & Hpool2 & Htr2 & Hdet2 & Hinv2 & Hfrom2).
    exists w2, results2. split; [done|].
    split; [congruence|]. split; [congruence|]. split; [congruence|].
    split; [auto|].
    intros b Hb. simpl. rewrite elem_of_app.
    destruct (Hfrom2 b Hb) as [Hin|?]; [|by auto].
    destruct (Hfrom1 b Hin); auto.
Qed.

Lemma elem_of_concat {A : Type} (x : A) (ls : list (list A)) :
  x ∈ concat ls → ∃ l, x ∈ l ∧ l ∈ ls.
Proof.
  induction ls as [|l ls IH]; simpl; [by intros ?%elem_of_nil|].
  intros [Hx|Hx]%elem_of_app.
  - exists l. split; [done|apply list_elem_of_here].
  - destruct (IH Hx) as (l' & ? & ?). exists l'.
    split; [done|by apply list_elem_of_further].
Qed.

Lemma calm_merge_chunks env maxResults chunkResults :
  Forall (Forall (extracted env)) chunkResults →
  calm (merged env (ceiling maxResults))
       (merge_chunks maxResults chunkResults []).
Proof.
  intros Hfrom w.
  destruct (merge_chunks_spec maxResults chunkResults [] w)
    as (w' & results' & Hrun & Hpool & Htr & Hdet & Hinv & Hin).
  exists w', (Returned results'), [], []. rewrite !app_nil_r.
  do 6 (split; [done|]).
  intros R [= <-]. split; [|done].
  destruct Hinv as (Hnd & _ & Hlen).
  { split; [apply NoDup_nil_2|]. split; [by intros ? ?%elem_of_nil|simpl; lia]. }
  split; [done|]. split; [done|].
  apply Forall_forall. intros b Hb.
  destruct (Hin b Hb) as [Hnil|Hcat]; [by apply elem_of_nil in Hnil|].
  apply elem_of_concat in Hcat as (chunk & Hb' & Hchunk).
  rewrite Forall_forall in Hfrom. specialize (Hfrom chunk Hchunk).
  rewrite Forall_forall in Hfrom. auto.
Qed.

(** *** The run *)

Lemma chunked_spec {A : Type} (array : list A) parts w :
  ∃ chunks,
    chunkArray (length array) array parts = Some chunks ∧
    chunked array parts w = Some (w, Returned chunks).
Proof.
  unfold chunked.
  assert (∃ chunks, chunkArray (length array) array parts = Some chunks)
    as (chunks & Hrun).
  { destruct parts as [|parts]; [by eexists|].
    destruct (PartitionerFacts.chunkArray_spec array (S parts))
      as (chunks & Hrun & _); [lia|].
    exists chunks. by apply Hrun. }
  exists chunks. by rewrite Hrun.
Qed.

Lemma calm_chunked {A : Type} (array : list A) parts :
  calm (λ _, True) (chunked array parts).
Proof.
  intros w. destruct (chunked_spec array parts w) as (chunks & _ & ->).
  exists w, (Returned chunks), [], []. by rewrite !app_nil_r.
Qed.

Lemma calm_workers env browser maxTotal (chunks : list (list string)) :
  Forall (calm (Forall (extracted env)))
         (imap (λ i chunk, scrapeUrlChunk env browser chunk i maxTotal)
               chunks).
Proof.
  apply Forall_forall. intros promise Hin.
  apply elem_of_lookup_imap in Hin as (i & chunk & -> & _).
  apply calm_scrapeUrlChunk.
Qed.

Lemma calm_try_block env browser query maxResults workers :
  calm (merged env (ceiling maxResults))
       (try_block env browser query maxResults workers).
Proof.
  unfold try_block.
  eapply calm_bind; [by apply calm_emit|]. intros _ _.
  eapply calm_bind; [apply calm_settle|]. intros urls _.
  destruct (length urls =? 0).
  { apply calm_ret. split; [apply NoDup_nil_2|]. split; [simpl; lia|done]. }
  eapply calm_bind; [apply calm_chunked|]. intros chunks _.
  eapply calm_bind; [|intros chunkResults; apply calm_merge_chunks].
  apply calm_promise_all, calm_workers.
Qed.

(** A discovery that throws ends the [try] block with that error. *)
Lemma try_block_discovery_fails env browser query maxResults workers e w :
  collected env browser query (maxResults * 2) = Thrown e →
  ∃ w', try_block env browser query maxResults workers w
        = Some (w', Thrown e).
Proof.
  intros He. unfold try_block, mbind, M_bind, emit, settle.
  rewrite He. eauto.
Qed.

(** When a worker rejects, [Promise.all] rejects with the error of the
    worker that is the first to do so. *)
Lemma promise_all_rejects env browser maxTotal chunks i e w :
  rejects_first env (length chunks) i → rejection env i = Some e →
  ∃ w',
    promise_all (settled_at env) (calls_made env)
      (imap (λ i chunk, scrapeUrlChunk env browser chunk i maxTotal) chunks) w
    = Some (w', Thrown e).
Proof.
  intros (Hi & _ & Hmin) He.
  destruct (settle_each_calm _ _ (calm_workers env browser maxTotal chunks) w)
    as (w' & settled & later & Hrun & _).
  destruct (settle_each_workers env browser maxTotal chunks (λ i, i) w w'
              settled Hrun) as (Hlen & Hrej).
  unfold promise_all. rewrite Hrun.
  assert (Hout : (snd <$> settled) !! i = Some (Thrown e)).
  { destruct ((snd <$> settled) !! i) as [o|] eqn:Ho.
    - specialize (Hrej i o Ho). rewrite He in Hrej. by rewrite Hrej.
    - apply lookup_ge_None in Ho. rewrite length_fmap in Ho. lia. }
  destruct (first_rejection (settled_at env) 0 (snd <$> settled))
    as [[j e']|] eqn:Hfirst.
  - destruct (first_rejection_Some _ _ _ _ _ Hfirst)
      as (k & Hj & Hk & Hfirst').
    simpl in Hj. subst j.
    destruct (decide (k = i)) as [->|Hne]; [eexists; do 3 f_equal; congruence|].
    exfalso.
    assert (Hklt : k < length chunks).
    { apply lookup_lt_Some in Hk. rewrite length_fmap in Hk. lia. }
    assert (Hkrej : is_Some (rejection env k)).
    { specialize (Hrej k _ Hk). destruct (rejection env k); [eauto|].
      by destruct Hrej. }
    specialize (Hmin k Hklt Hne Hkrej).
    assert (Hik : i ≠ k) by auto.
    specialize (Hfirst' i e Hout Hik). simpl in Hfirst'. lia.
  - apply first_rejection_None in Hfirst. rewrite Forall_forall in Hfirst.
    destruct (Hfirst (Thrown e)) as (a & [=]).
    by eapply list_elem_of_lookup_2.
Qed.

(** A worker that is the first to reject ends the fan-in, and the [try]
    block, with its error. *)
Lemma try_block_fan_in_fails
    env browser query maxResults workers urls chunks i e w :
  collected env browser query (maxResults * 2) = Returned urls →
  urls ≠ [] →
  chunkArray (length (slice_to urls (maxResults * 2)))
             (slice_to urls (maxResults * 2)) workers = Some chunks →
  rejects_first env (length chunks) i → rejection env i = Some e →
  ∃ w', try_block env browser query maxResults workers w
        = Some (w', Thrown e).
Proof.
  intros Hurls Hne Hchunks Hfirst He.
  unfold try_block, mbind at 1 2, M_bind at 1 2, emit, settle.
  rewrite Hurls.
  destruct urls as [|url urls]; [done|]. cbn [length Nat.eqb].
  unfold mbind at 1, M_bind at 1, chunked. rewrite Hchunks.
  unfold mbind at 1, M_bind at 1.
  match goal with
  | |- context [promise_all _ _ _ ?w1] =>
      destruct (promise_all_rejects env browser maxResults chunks i e w1
                  Hfirst He) as (w2 & ->)
  end.
  eauto.
Qed.

(** What a run does once [acquire] has given it a browser. *)
Lemma scrapeGoogleMaps_spec fuel env query maxResults workers w a p' :
  acquire fuel (isConnected env) (launch env) (pool w) = Some (a, p') →
  ∃ w' out mid later,
    scrapeGoogleMaps fuel env query maxResults workers w = Some (w', out) ∧
    pool w' = release (isConnected env) (browser_of a) p' ∧
    trace w' = trace w ++ PoolAcquire (browser_of a) :: mid
                       ++ [PoolRelease (browser_of a)] ∧
    Forall (λ ev, is_pool_event ev = false) mid ∧
    detached w' = detached w ++ later ∧
    Forall (λ ev, is_pool_event ev = false) later ∧
    (∀ R, out = Returned R →
          merged env (ceiling maxResults) R ∧ later = []) ∧
    (∀ e, collected env (browser_of a) query (maxResults * 2) = Thrown e →
          out = Thrown e) ∧
    (∀ urls chunks i e,
       collected env (browser_of a) query (maxResults * 2) = Returned urls →
       urls ≠ [] →
       chunkArray (length (slice_to urls (maxResults * 2)))
                  (slice_to urls (maxResults * 2)) workers = Some chunks →
       rejects_first env (length chunks) i → rejection env i = Some e →
       out = Thrown e).
Proof.
  intros Hacq.
  unfold scrapeGoogleMaps, mbind, M_bind, set_seen, pool_acquire.
  cbn [pool seenBusinesses trace detached]. rewrite Hacq.
  set (w1 := {| pool := p'; seenBusinesses := ∅;
                trace := trace w ++ [PoolAcquire (browser_of a)];
                detached := detached w |}).
  destruct (calm_try_block env (browser_of a) query maxResults workers w1)
    as (w2 & out & mid & later & Hrun & Hpool & Htr & Hmid & Hdet & Hlater
        & Hout).
  unfold try_catch_finally, throw, pool_release. rewrite Hrun.
  exists {| pool := release (isConnected env) (browser_of a) (pool w2);
            seenBusinesses := seenBusinesses w2;
            trace := trace w2 ++ [PoolRelease (browser_of a)];
            detached := detached w2 |}, out, mid, later.
  split; [by destruct out|]. cbn [pool trace detached].
  split; [by rewrite Hpool|].
  split; [rewrite Htr; simpl; by rewrite <-!app_assoc|].
  do 4 (split; [done|]). split.
  - intros e He.
    destruct (try_block_discovery_fails env (browser_of a) query maxResults
                workers e w1 He) as (w2' & Hrun').
    congruence.
  - intros urls chunks i e Hurls Hne Hchunks Hfirst He.
    destruct (try_block_fan_in_fails env (browser_of a) query maxResults
                workers urls chunks i e w1 Hurls Hne Hchunks Hfirst He)
      as (w2' & Hrun').
    congruence.
Qed.

(** A run that comes back has been given a browser. *)
Lemma scrapeGoogleMaps_acquired fuel env query maxResults workers w w' out :
  scrapeGoogleMaps fuel env query maxResults workers w = Some (w', out) →
  ∃ a p', acquire fuel (isConnected env) (launch env) (pool w) = Some (a, p').
Proof.
  unfold scrapeGoogleMaps, mbind, M_bind, set_seen, pool_acquire.
  cbn [pool seenBusinesses trace detached].
  destruct (acquire fuel (isConnected env) (launch env) (pool w))
    as [[a p']|]; [eauto|done].
Qed.

Lemma scrapeGoogleMaps_merged fuel env query maxResults workers w w' R :
  scrapeGoogleMaps fuel env query maxResults workers w
    = Some (w', Returned R) →
  merged env (ceiling maxResults) R.
Proof.
  intros Hrun.
  destruct (scrapeGoogleMaps_acquired _ _ _ _ _ _ _ _ Hrun) as (a & p' & Hacq).
  destruct (scrapeGoogleMaps_spec fuel env query maxResults workers w a p' Hacq)
    as (w2 & out & mid & later & Hrun2 & _ & _ & _ & _ & _ & Hout & _).
  apply Hout. congruence.
Qed.

(** A page without a record leaves the worker loop as if its URL had
    not been in the chunk. *)
Lemma worker_loop_skips env url rest workerId maxTotal results w :
  scrapeDirectUrl (page env url) (url_coordinates env url) url
    = Returned None →
  worker_loop env (url :: rest) workerId maxTotal results w
  = worker_loop env rest workerId maxTotal results w.
Proof.
  intros Hnull. cbn [worker_loop]. unfold mbind, M_bind, get_seen.
  rewrite Hnull.
  destruct (at_least (size (seenBusinesses w)) maxTotal) eqn:Hcap; [|done].
  destruct rest as [|url' rest]; [done|].
  cbn [worker_loop]. unfold mbind, M_bind, get_seen. by rewrite Hcap.
Qed.

(** C1 (as the code has it). A run of [scrapeGoogleMaps] that returns
    normally returns a list in which no two records have the same dedup
    key. When [maxResults] is a natural number, the list has at most
    [maxResults] records. For any other number the test
    [results.length >= maxResults] lets the list grow to the next
    natural number: a list that is not empty has fewer than
    [maxResults + 1] records, and the list is empty when [maxResults]
    is zero or negative. *)
Theorem scrapeGoogleMaps_distinct_capped
    fuel env query maxResults workers w w' R :
  scrapeGoogleMaps fuel env query maxResults workers w
    = Some (w', Returned R) →
  NoDup (dedupKey <$> R) ∧
  (∀ n : nat, (maxResults == of_nat n)%Q → length R ≤ n) ∧
  (R ≠ [] → (of_nat (length R) < maxResults + 1)%Q) ∧
  ((maxResults <= 0)%Q → R = []).
Proof.
  intros Hrun.
  destruct (scrapeGoogleMaps_merged _ _ _ _ _ _ _ _ Hrun) as (Hnd & Hlen & _).
  split; [done|]. split; [|split].
  - intros n Hn. by rewrite (ceiling_proper _ _ Hn), ceiling_of_nat in Hlen.
  - intros Hne. destruct R as [|b R]; [done|]. cbn [length] in *.
    rewrite of_nat_S. apply Qplus_lt_l, ceiling_lt. lia.
  - intros Hneg. destruct R as [|b R]; [done|]. cbn [length] in Hlen.
    assert (ceiling maxResults ≤ 0) by by apply ceiling_le. lia.
Qed.


(** C10. An extraction whose name element does not show, or whose
    trimmed name is empty, gives [null]; the worker goes on as if that
    URL had not been in its chunk; and every record in the list a run
    returns has a name that is not empty. *)
Theorem results_have_names env :
  (∀ obs coords url,
     goto_error obs = None →
     name_visible obs = false ∨ truthy (trim <$> name_text obs) = false →
     scrapeDirectUrl obs coords url = Returned None) ∧
  (∀ url rest workerId maxTotal results w,
     scrapeDirectUrl (page env url) (url_coordinates env url) url
       = Returned None →
     worker_loop env (url :: rest) workerId maxTotal results w
     = worker_loop env rest workerId maxTotal results w) ∧
  (∀ fuel query maxResults workers w w' R b,
     scrapeGoogleMaps fuel env query maxResults workers w
       = Some (w', Returned R) →
     b ∈ R →
     ∃ n, name b = Some n ∧ n ≠ "").
Proof.
  split; [apply scrapeDirectUrl_null|]. split; [apply worker_loop_skips|].
  intros fuel query maxResults workers w w' R b Hrun Hb.
  destruct (scrapeGoogleMaps_merged _ _ _ _ _ _ _ _ Hrun) as (_ & _ & Hfrom).
  rewrite Forall_forall in Hfrom.
  by apply truthy_nonempty, (extracted_named env), Hfrom.
Qed.
End OrchestratorFacts.

(** C1, witness: five URLs, a cap of two, two workers. The two Cafe
    pages share a key; the run returns Cafe and Bar. *)
Lemma scrapeGoogleMaps_distinct_capped_witness :
  ∃ w' R,
    Orchestrator.scrapeGoogleMaps 0
      (Orchestrator.sample_env (Returned ["u1"; "u2"; "u3"; "u4"; "u5"]))
      "cafe" (of_nat 2) 2 Orchestrator.sample_start = Some (w', Returned R) ∧
    dedupKey <$> R = ["Cafe|"; "Bar|+90 (242) 1"] ∧
    NoDup (dedupKey <$> R) ∧
    (∀ n : nat, (of_nat 2 == of_nat n)%Q → length R ≤ n) ∧
    (R ≠ [] → (of_nat (length R) < of_nat 2 + 1)%Q) ∧
    ((of_nat 2 <= 0)%Q → R = []).
Proof.
  eexists _, _. split; [vm_compute; reflexivity|]. split; [reflexivity|].
  eapply (OrchestratorFacts.scrapeGoogleMaps_distinct_capped 0
            (Orchestrator.sample_env (Returned ["u1"; "u2"; "u3"; "u4"; "u5"]))
            "cafe" (of_nat 2) 2 Orchestrator.sample_start).
  vm_compute; reflexivity.
Defined.

(** C1, as the specification words it, fails: the length of the result
    exceeds a cap that is not a natural number. With [maxResults] one
    and a half, the merge pushes a second record, because one record is
    not yet [>= 1.5]; with [maxResults] minus one the result is the
    empty list, whose length is not at most minus one. *)
Lemma scrapeGoogleMaps_distinct_capped_counterexample :
  let env :=
    Orchestrator.sample_env (Returned ["u1"; "u2"; "u3"; "u4"; "u5"]) in
  (∃ w' R,
     Orchestrator.scrapeGoogleMaps 0 env "cafe" (3 # 2) 2
       Orchestrator.sample_start = Some (w', Returned R) ∧
     dedupKey <$> R = ["Cafe|"; "Bar|+90 (242) 1"] ∧
     ¬ (of_nat (length R) <= 3 # 2)%Q) ∧
  (∃ w' R,
     Orchestrator.scrapeGoogleMaps 0 env "cafe" (-1) 2
       Orchestrator.sample_start = Some (w', Returned R) ∧
     R = [] ∧
     ¬ (of_nat (length R) <= -1)%Q).
Proof.
  split.
  - eexists _, _. split; [vm_compute; reflexivity|]. split; [reflexivity|].
    by vm_compute.
  - eexists _, _. split; [vm_compute; reflexivity|]. split; [reflexivity|].
    by vm_compute.
Qed.

(** C2 fails on the code. A worker with a budget of one gets two pages
    of the same place. It accepts the first record and does not add its
    key to the shared set; so it accepts the second record, which has
    the same key, and the shared set is still empty at the end: the
    budget test [globalSeen.size >= maxTotal] has seen no acceptance. *)
Theorem scrapeUrlChunk_accepts_without_marking :
  ∃ cafe1 cafe2 w',
    Orchestrator.scrapeUrlChunk (Orchestrator.sample_env (Returned []))
      1 ["u1"; "u2"] 0 (of_nat 1) Orchestrator.sample_start
      = Some (w', Returned [cafe1; cafe2]) ∧
    dedupKey cafe1 = "Cafe|" ∧ dedupKey cafe2 = "Cafe|" ∧
    googleMapsUrl cafe1 = "u1" ∧ googleMapsUrl cafe2 = "u2" ∧
    Orchestrator.seenBusinesses w' = ∅.
Proof.
  eexists _, _, _. split; [vm_compute; reflexivity|].
  repeat split; vm_compute; reflexivity.
Qed.


(** C10, witness: the page without a name and the page that times out
    leave no record; the records of the run are named. *)
Lemma results_have_names_witness :
  ∃ w' R b,
    Orchestrator.scrapeGoogleMaps 0
      (Orchestrator.sample_env (Returned ["u5"; "u4"; "u3"]))
      "bar" (of_nat 3) 1 Orchestrator.sample_start = Some (w', Returned R) ∧
    b ∈ R ∧
    ∃ n, name b = Some n ∧ n ≠ "".
Proof.
  eexists _, _, _. split; [vm_compute; reflexivity|].
  split; [apply list_elem_of_here|].
  eapply (proj2 (proj2 (OrchestratorFacts.results_have_names
                          (Orchestrator.sample_env
                             (Returned ["u5"; "u4"; "u3"]))))
                0 "bar" (of_nat 3) 1 Orchestrator.sample_start).
  - vm_compute; reflexivity.
  - apply list_elem_of_here.
Defined.


(** ** The server *)

Module ServerFacts.
Import Server.

(** *** POST /scrape *)

(** C9. A [POST /scrape] request with a query, arriving while a slot is
    free, starts [scrapeGoogleMaps] with [min(maxResults, 100)] and
    [min(workers, 5)], taken from the request or from the defaults:
    values above the limits are cut down to 100 and 5, and the request
    is answered like any other. *)
Theorem post_scrape_clamps cfg body s :
  truthy (req_query body) = true →
  activeJobs s < MAX_CONCURRENT_JOBS cfg →
  ∃ call,
    post_scrape cfg body s
      = ({| activeJobs := S (activeJobs s); jobs := jobs s;
            running := running s ++ [call] |}, None) ∧
    caller call = FromScrape ∧
    req_query body = Some (call_query call) ∧
    call_maxResults call = default 20 (req_maxResults body) `min` 100 ∧
    call_workers call
      = default (DEFAULT_WORKERS cfg) (req_workers body) `min` 5 ∧
    (∀ m, req_maxResults body = Some m → 100 ≤ m →
          call_maxResults call = 100) ∧
    (∀ n, req_workers body = Some n → 5 ≤ n → call_workers call = 5).
Proof.
  intros Hq Hfree. unfold post_scrape. rewrite Hq. cbn [negb].
  assert (Hcap : (MAX_CONCURRENT_JOBS cfg <=? activeJobs s) = false)
    by (apply Nat.leb_gt; lia).
  rewrite Hcap. eexists. split; [done|]. cbn [caller call_query
    call_maxResults call_workers].
  split; [done|].
  split; [by destruct (req_query body) as [q|]|].
  split; [done|]. split; [done|].
  split; intros k -> Hk; simpl; lia.
Qed.
(** *** The runs in flight *)

Lemma async_ids_snoc calls c :
  async_ids (calls ++ [c])
  = async_ids calls ++ match caller c with
                       | FromAsync jobId => [jobId]
                       | FromScrape => []
                       end.
Proof.
  unfold async_ids. rewrite omap_app. f_equal. simpl.
  by destruct (caller c).
Qed.

Lemma running_middle (calls : list Call) i c :
  calls !! i = Some c →
  calls = take i calls ++ c :: drop (S i) calls ∧
  delete i calls = take i calls ++ drop (S i) calls.
Proof.
  intros Hi. split; [by rewrite take_drop_middle|apply delete_take_drop].
Qed.

Lemma async_ids_middle before c after :
  async_ids (before ++ c :: after)
  = async_ids before ++ match caller c with
                        | FromAsync jobId => [jobId]
                        | FromScrape => []
                        end ++ async_ids after.
Proof.
  unfold async_ids. rewrite omap_app. f_equal. simpl.
  by destruct (caller c).
Qed.

Lemma sync_count_snoc calls c :
  length (filter (λ c, is_sync c = true) (calls ++ [c]))
  = length (filter (λ c, is_sync c = true) calls)
    + (if is_sync c then 1 else 0).
Proof.
  rewrite filter_app, length_app. f_equal.
  destruct (is_sync c) eqn:Hc.
  - by rewrite filter_cons_True.
  - rewrite filter_cons_False; [done|]. by rewrite Hc.
Qed.

Lemma sync_count_middle before c after :
  length (filter (λ c, is_sync c = true) (before ++ c :: after))
  = length (filter (λ c, is_sync c = true) (before ++ after))
    + (if is_sync c then 1 else 0).
Proof.
  rewrite !filter_app, !length_app.
  destruct (is_sync c) eqn:Hc.
  - rewrite filter_cons_True by done. simpl. lia.
  - rewrite filter_cons_False; [lia|]. by rewrite Hc.
Qed.

(** *** The admission counter *)

(** [activeJobs] counts the runs that [POST /scrape] has in flight, and
    there are never more of those than [MAX_CONCURRENT_JOBS]. *)
Lemma sync_admission_step cfg s ev :
  activeJobs s = sync_running s →
  sync_running s ≤ MAX_CONCURRENT_JOBS cfg →
  activeJobs (fst (step cfg s ev)) = sync_running (fst (step cfg s ev)) ∧
  sync_running (fst (step cfg s ev)) ≤ MAX_CONCURRENT_JOBS cfg.
Proof.
  unfold sync_running. intros Hcount Hmax.
  destruct ev as [body|body jobId now|i outcome now]; simpl.
  - unfold post_scrape. destruct (negb (truthy (req_query body))); [done|].
    destruct (MAX_CONCURRENT_JOBS cfg <=? activeJobs s) eqn:Hcap; [done|].
    apply Nat.leb_gt in Hcap. cbn [fst activeJobs running].
    rewrite sync_count_snoc. simpl. lia.
  - unfold post_scrape_async.
    destruct (negb (truthy (req_query body))); [done|].
    cbn [fst activeJobs running]. rewrite sync_count_snoc. simpl. lia.
  - unfold settled. destruct (running s !! i) as [c|] eqn:Hi; [|done].
    destruct (running_middle _ _ _ Hi) as (Hsplit & Hdel).
    rewrite Hsplit, sync_count_middle, <-Hdel in Hcount, Hmax.
    destruct (caller c) as [|jobId'] eqn:Hc.
    + assert (Hs : is_sync c = true) by (unfold is_sync; by rewrite Hc).
      rewrite Hs in Hcount, Hmax.
      cbn [fst scrape_settled activeJobs running]. lia.
    + assert (Hs : is_sync c = false) by (unfold is_sync; by rewrite Hc).
      rewrite Hs in Hcount, Hmax.
      destruct outcome; cbn [fst then_catch on_fulfilled on_rejected
        activeJobs running]; lia.
Qed.

Lemma sync_admission cfg evs :
  activeJobs (exec cfg initial evs) = sync_running (exec cfg initial evs) ∧
  sync_running (exec cfg initial evs) ≤ MAX_CONCURRENT_JOBS cfg.
Proof.
  induction evs as [|ev evs IH] using rev_ind.
  - unfold sync_running. simpl. split; [done|lia].
  - unfold exec in *. rewrite foldl_app. simpl.
    destruct IH as [Hcount Hmax]. by apply sync_admission_step.
Qed.

(** A saturated [POST /scrape] is answered at once with 429 and leaves
    the state as it is. *)
Lemma post_scrape_saturated cfg body s :
  truthy (req_query body) = true →
  MAX_CONCURRENT_JOBS cfg ≤ activeJobs s →
  post_scrape cfg body s
  = (s, Some (TooManyRequests (activeJobs s) (MAX_CONCURRENT_JOBS cfg))).
Proof.
  intros Hq Hfull. unfold post_scrape. rewrite Hq. cbn [negb].
  assert (Hcap : (MAX_CONCURRENT_JOBS cfg <=? activeJobs s) = true)
    by (apply Nat.leb_le; lia).
  by rewrite Hcap.
Qed.

(** C3 fails on the code. With room for one job, [POST /scrape/async]
    is accepted twice in a row: two orchestration runs are in flight,
    [activeJobs] is still 0, and a third submission is accepted as well.
    And while the one slot is taken by [POST /scrape], a second
    [POST /scrape] is answered with 429, but [POST /scrape/async] starts
    a second run next to it. *)
Theorem async_runs_bypass_admission :
  let cfg := one_job_at_a_time in
  let s2 := exec cfg initial [PostScrapeAsync (ask "cafe") "job-1" "t1";
                               PostScrapeAsync (ask "bar") "job-2" "t2"] in
  let s1 := exec cfg initial [PostScrape (ask "cafe")] in
  (length (running s2) = 2 ∧ activeJobs s2 = 0 ∧
   snd (step cfg s2 (PostScrapeAsync (ask "pub") "job-3" "t3"))
     = Some (JobAccepted "job-3") ∧
   length (running (fst (step cfg s2
             (PostScrapeAsync (ask "pub") "job-3" "t3")))) = 3) ∧
  (snd (step cfg s1 (PostScrape (ask "bar")))
     = Some (TooManyRequests 1 1) ∧
   snd (step cfg s1 (PostScrapeAsync (ask "bar") "job-1" "t1"))
     = Some (JobAccepted "job-1") ∧
   length (running (fst (step cfg s1
             (PostScrapeAsync (ask "bar") "job-1" "t1")))) = 2).
Proof. repeat split. Qed.

(** *** The job map *)

Lemma settled_job_not_pending j : settled_job j → status j ≠ pending.
Proof. intros [(-> & _)|(-> & _)]; done. Qed.

Lemma job_ok_pending j :
  job_ok j → status j = pending → results j = None ∧ error j = None.
Proof.
  intros [(_ & ? & ?)|Hset] Hp; [done|].
  by apply settled_job_not_pending in Hset.
Qed.

(** What the callbacks of an async run do to the state: they store one
    job under [jobId], and that job has settled if the stored one was
    waiting. *)
Lemma then_catch_job jobId now outcome s :
  ∃ j',
    then_catch (on_fulfilled jobId now) (on_rejected jobId now) outcome s
    = {| activeJobs := activeJobs s; jobs := <[jobId := j']> (jobs s);
         running := running s |} ∧
    ∀ j, jobs s !! jobId = Some j →
         results j = None → error j = None → settled_job j'.
Proof.
  destruct outcome as [rs|e]; simpl; eexists; (split; [done|]);
    intros j -> Hres Herr; simpl.
  - left. by rewrite Herr.
  - right. by rewrite Hres.
Qed.

Lemma consistent_initial : consistent initial.
Proof.
  split; [apply NoDup_nil_2|]. split.
  - by intros id ?%elem_of_nil.
  - intros id j. cbn [initial jobs]. by rewrite lookup_empty.
Qed.

Lemma consistent_step cfg s ev :
  consistent s → fresh_id s ev → consistent (fst (step cfg s ev)).
Proof.
  intros (Hnd & Hrun & Hjobs) Hfresh.
  destruct ev as [body|body jobId now|i outcome now]; simpl in *.
  - unfold post_scrape. destruct (negb (truthy (req_query body))); [done|].
    destruct (MAX_CONCURRENT_JOBS cfg <=? activeJobs s); [done|].
    unfold consistent. cbn [fst jobs running].
    rewrite async_ids_snoc. simpl. by rewrite app_nil_r.
  - unfold post_scrape_async.
    destruct (negb (truthy (req_query body))); [done|].
    unfold consistent. cbn [fst jobs running].
    rewrite async_ids_snoc. simpl.
    assert (Hnew : jobId ∉ async_ids (running s)).
    { intros Hin. destruct (Hrun jobId Hin) as (j & Hj & _). congruence. }
    split; [|split].
    + apply NoDup_app. split; [done|]. split; [|apply NoDup_singleton].
      intros id Hid ->%list_elem_of_singleton. done.
    + intros id [Hid| ->%list_elem_of_singleton]%elem_of_app.
      * rewrite lookup_insert_ne by (intros ->; done). by apply Hrun.
      * rewrite lookup_insert_eq. eauto.
    + intros id j. destruct (decide (jobId = id)) as [->|Hne].
      * rewrite lookup_insert_eq. intros [= <-]. by left.
      * rewrite lookup_insert_ne by done. apply Hjobs.
  - unfold settled. destruct (running s !! i) as [c|] eqn:Hi; [|done].
    destruct (running_middle _ _ _ Hi) as (Hsplit & Hdel).
    rewrite Hsplit, async_ids_middle in Hnd, Hrun.
    destruct (caller c) as [|jobId] eqn:Hc.
    + unfold consistent. cbn [fst scrape_settled jobs running].
      rewrite Hdel. unfold async_ids at 1 2. rewrite omap_app. done.
    + set (s1 := {| activeJobs := activeJobs s; jobs := jobs s;
                    running := delete i (running s) |}).
      destruct (then_catch_job jobId now outcome s1) as (j' & -> & Hset).
      unfold consistent. cbn [fst jobs running activeJobs].
      unfold s1; cbn [jobs running]. rewrite Hdel.
      unfold async_ids at 1 2. rewrite omap_app.
      fold (async_ids (take i (running s))).
      fold (async_ids (drop (S i) (running s))).
      apply NoDup_app in Hnd as (Hnd1 & Hdisj & Hnd2).
      apply NoDup_app in Hnd2 as (_ & Hdisj2 & Hnd2).
      assert (Hother : ∀ id,
                id ∈ async_ids (take i (running s))
                       ++ async_ids (drop (S i) (running s)) → id ≠ jobId).
      { intros id [Hid|Hid]%elem_of_app ->.
        - apply (Hdisj jobId Hid). apply elem_of_app. left.
          apply list_elem_of_here.
        - apply (Hdisj2 jobId); [apply list_elem_of_here|done]. }
      split; [|split].
      * apply NoDup_app. split; [done|]. split; [|done].
        intros id Hid Hid'. apply (Hdisj id Hid).
        apply elem_of_app. by right.
      * intros id Hid. rewrite lookup_insert_ne by (intros <-; by eapply Hother).
        apply Hrun. apply elem_of_app in Hid as [?|?]; apply elem_of_app;
          [by left|right]. apply elem_of_app. by right.
      * intros id j. destruct (decide (jobId = id)) as [<-|Hne].
        -- rewrite lookup_insert_eq. intros [= <-]. right.
           destruct (Hrun jobId) as (j0 & Hj0 & Hp).
           { apply elem_of_app. right. apply list_elem_of_here. }
           destruct (job_ok_pending j0 (Hjobs _ _ Hj0) Hp).
           by apply (Hset j0).
        -- rewrite lookup_insert_ne by done. apply Hjobs.
Qed.

(** One event: a job that has settled stays as it is; a waiting job
    stays as it is or settles. *)
Lemma step_job cfg s ev id j :
  consistent s → fresh_id s ev → jobs s !! id = Some j →
  ∃ j',
    jobs (fst (step cfg s ev)) !! id = Some j' ∧
    (status j ≠ pending → j' = j) ∧
    (status j = pending → j' = j ∨ settled_job j').
Proof.
  intros (Hnd & Hrun & Hjobs) Hfresh Hj.
  assert (Hsame : ∃ j', jobs s !! id = Some j' ∧
            (status j ≠ pending → j' = j) ∧
            (status j = pending → j' = j ∨ settled_job j')) by eauto.
  destruct ev as [body|body jobId now|i outcome now]; simpl in *.
  - unfold post_scrape. destruct (negb (truthy (req_query body))); [done|].
    by destruct (MAX_CONCURRENT_JOBS cfg <=? activeJobs s).
  - unfold post_scrape_async.
    destruct (negb (truthy (req_query body))); [done|].
    cbn [fst jobs]. rewrite lookup_insert_ne; [done|]. congruence.
  - unfold settled. destruct (running s !! i) as [c|] eqn:Hi; [|done].
    destruct (caller c) as [|jobId] eqn:Hc; [done|].
    set (s1 := {| activeJobs := activeJobs s; jobs := jobs s;
                  running := delete i (running s) |}).
    destruct (then_catch_job jobId now outcome s1) as (j' & -> & Hset).
    cbn [fst jobs]. unfold s1; cbn [jobs].
    destruct (decide (jobId = id)) as [<-|Hne].
    + rewrite lookup_insert_eq. exists j'. split; [done|].
      destruct (Hrun jobId) as (j0 & Hj0 & Hp).
      { apply list_elem_of_omap. exists c. split.
        - by eapply list_elem_of_lookup_2.
        - by rewrite Hc. }
      assert (j0 = j) as -> by congruence.
      split; [done|]. intros _. right.
      destruct (job_ok_pending j (Hjobs _ _ Hj) Hp).
      by apply (Hset j).
    + by rewrite lookup_insert_ne.
Qed.

Lemma exec_cons cfg s ev evs :
  exec cfg s (ev :: evs) = exec cfg (fst (step cfg s ev)) evs.
Proof. done. Qed.

Lemma exec_app cfg s evs later :
  exec cfg s (evs ++ later) = exec cfg (exec cfg s evs) later.
Proof. unfold exec. by rewrite foldl_app. Qed.

Lemma fresh_ids_app cfg evs later : ∀ s,
  fresh_ids cfg s (evs ++ later) →
  fresh_ids cfg s evs ∧ fresh_ids cfg (exec cfg s evs) later.
Proof.
  induction evs as [|ev evs IH]; intros s; cbn [app fresh_ids]; [done|].
  intros (Hev & Hrest). destruct (IH _ Hrest). rewrite exec_cons. done.
Qed.

Lemma exec_consistent cfg evs : ∀ s,
  consistent s → fresh_ids cfg s evs → consistent (exec cfg s evs).
Proof.
  induction evs as [|ev evs IH]; intros s Hs; cbn [fresh_ids]; [done|].
  intros (Hev & Hrest). rewrite exec_cons.
  apply IH; [by apply consistent_step|done].
Qed.

Lemma exec_job cfg evs : ∀ s id j,
  consistent s → fresh_ids cfg s evs → jobs s !! id = Some j →
  ∃ j',
    jobs (exec cfg s evs) !! id = Some j' ∧
    (status j ≠ pending → j' = j) ∧
    (status j = pending → j' = j ∨ settled_job j').
Proof.
  induction evs as [|ev evs IH]; intros s id j Hs; cbn [fresh_ids].
  { intros _ Hj. eauto. }
  intros (Hev & Hrest) Hj. rewrite exec_cons.
  destruct (step_job cfg s ev id j Hs Hev Hj) as (j1 & Hj1 & Hkeep1 & Hgo1).
  destruct (IH _ id j1 (consistent_step cfg s ev Hs Hev) Hrest Hj1)
    as (j' & Hj' & Hkeep & Hgo).
  exists j'. split; [done|]. split.
  - intros Hnp. rewrite <-(Hkeep1 Hnp). apply Hkeep.
    by rewrite (Hkeep1 Hnp).
  - intros Hp. destruct (Hgo1 Hp) as [->|Hset1]; [by apply Hgo|].
    right. rewrite (Hkeep (settled_job_not_pending _ Hset1)). done.
Qed.

(** C7. Take a job stored at some moment of an execution in which
    [randomUUID] gives fresh identifiers. It is pending, or completed
    with a result list, or failed with an error. At every later moment
    the job is still stored; if it had left [pending] it is the very same
    record, and if it was pending it is unchanged or has settled into
    one of the two final states. So a job leaves [pending] at most once
    and never changes afterwards. *)
Theorem job_settles_once cfg evs later id j :
  fresh_ids cfg initial (evs ++ later) →
  jobs (exec cfg initial evs) !! id = Some j →
  (status j = pending ∨ settled_job j) ∧
  ∃ j',
    jobs (exec cfg initial (evs ++ later)) !! id = Some j' ∧
    (status j ≠ pending → j' = j) ∧
    (status j = pending → j' = j ∨ settled_job j').
Proof.
  intros Hfresh Hj.
  destruct (fresh_ids_app _ _ _ _ Hfresh) as (Hfresh1 & Hfresh2).
  pose proof (exec_consistent cfg evs initial consistent_initial Hfresh1)
    as Hcons.
  split.
  - destruct Hcons as (_ & _ & Hjobs).
    destruct (Hjobs id j Hj) as [(? & _)|?]; auto.
  - rewrite exec_app. by apply exec_job.
Qed.
End ServerFacts.

(** C9, witness: 500 results and 12 workers are asked for. *)
Lemma post_scrape_clamps_witness :
  let cfg := Server.one_job_at_a_time in
  let body := Server.ask_for "cafe" 500 12 in
  truthy (Server.req_query body) = true ∧
  Server.activeJobs Server.initial < Server.MAX_CONCURRENT_JOBS cfg ∧
  ∃ call,
    Server.post_scrape cfg body Server.initial
      = ({| Server.activeJobs := S (Server.activeJobs Server.initial);
            Server.jobs := Server.jobs Server.initial;
            Server.running := Server.running Server.initial ++ [call] |},
         None) ∧
    Server.caller call = Server.FromScrape ∧
    Server.req_query body = Some (Server.call_query call) ∧
    Server.call_maxResults call
      = default 20 (Server.req_maxResults body) `min` 100 ∧
    Server.call_workers call
      = default (Server.DEFAULT_WORKERS cfg) (Server.req_workers body) `min` 5 ∧
    (∀ m, Server.req_maxResults body = Some m → 100 ≤ m →
          Server.call_maxResults call = 100) ∧
    (∀ n, Server.req_workers body = Some n → 5 ≤ n →
          Server.call_workers call = 5).
Proof.
  split; [reflexivity|]. split; [simpl; lia|].
  apply (ServerFacts.post_scrape_clamps Server.one_job_at_a_time
           (Server.ask_for "cafe" 500 12) Server.initial);
    [reflexivity|simpl; lia].
Defined.

(** C7, witness: a job is submitted and its run returns; later another
    job is submitted and a stale settle event arrives. The first job has
    completed and stays as it is. *)
Lemma job_settles_once_witness :
  let cfg := Server.one_job_at_a_time in
  let evs := [Server.PostScrapeAsync (Server.ask "cafe") "job-1" "t1";
              Server.Settled 0 (Returned []) "t2"] in
  let later := [Server.PostScrapeAsync (Server.ask "bar") "job-2" "t3";
                Server.Settled 0 (Thrown "Timeout") "t4";
                Server.Settled 0 (Returned []) "t5"] in
  let j := {| Server.status := Server.completed;
              Server.query := Some "cafe";
              Server.createdAt := Some "t1";
              Server.results := Some [];
              Server.error := None;
              Server.completedAt := Some "t2" |} in
  Server.fresh_ids cfg Server.initial (evs ++ later) ∧
  Server.jobs (Server.exec cfg Server.initial evs) !! "job-1" = Some j ∧
  (Server.status j = Server.pending ∨ Server.settled_job j) ∧
  ∃ j',
    Server.jobs (Server.exec cfg Server.initial (evs ++ later)) !! "job-1"
      = Some j' ∧
    (Server.status j ≠ Server.pending → j' = j) ∧
    (Server.status j = Server.pending → j' = j ∨ Server.settled_job j').
Proof.
  assert (Hfresh : Server.fresh_ids Server.one_job_at_a_time Server.initial
            ([Server.PostScrapeAsync (Server.ask "cafe") "job-1" "t1";
              Server.Settled 0 (Returned []) "t2"]
             ++ [Server.PostScrapeAsync (Server.ask "bar") "job-2" "t3";
                 Server.Settled 0 (Thrown "Timeout") "t4";
                 Server.Settled 0 (Returned []) "t5"])).
  { vm_compute. repeat split. }
  split; [exact Hfresh|]. split; [vm_compute; reflexivity|].
  apply (ServerFacts.job_settles_once Server.one_job_at_a_time
           [Server.PostScrapeAsync (Server.ask "cafe") "job-1" "t1";
            Server.Settled 0 (Returned []) "t2"]
           [Server.PostScrapeAsync (Server.ask "bar") "job-2" "t3";
            Server.Settled 0 (Thrown "Timeout") "t4";
            Server.Settled 0 (Returned []) "t5"]
           "job-1").
  - exact Hfresh.
  - vm_compute; reflexivity.
Defined.

(** * Further properties *)

(** ** BrowserPool: what acquire, release and closeAll keep *)

Module PoolLaws.
Import Pool.

(** [pop] takes the last idle browser, if there is one, and touches
    nothing else. *)
Lemma pop_spec p :
  maxSize (snd (pop p)) = maxSize p ∧
  browsers (snd (pop p)) = browsers p ∧
  ((fst (pop p) = None ∧ available p = [] ∧ snd (pop p) = p) ∨
   (∃ b, fst (pop p) = Some b ∧
         available p = available (snd (pop p)) ++ [b])).
Proof.
  destruct p as [m bs idle].
  destruct idle as [|x idle _] using rev_ind.
  - unfold pop. simpl. split; [done|]. split; [done|]. by left.
  - rewrite PoolFacts.pop_snoc. cbn [fst snd maxSize browsers available].
    split; [done|]. split; [done|]. right. eauto.
Qed.

Lemma connected_one_Some isConnected popped b :
  connected_one isConnected popped = Some b →
  popped = Some b ∧ isConnected b = true.
Proof.
  destruct popped as [x|]; simpl; [|done].
  destruct (isConnected x) eqn:Hx; [|done]. by intros [= <-].
Qed.

(** X1. Whatever [acquire] returns as reused was in the idle list and
    is connected at the time of the call; the idle list only loses
    browsers from its end, and the list of launched browsers is
    untouched by a reuse. *)
Theorem acquire_reused_is_idle_connected fuel isConnected launch : ∀ p b p',
  acquire fuel isConnected launch p = Some (Reused b, p') →
  b ∈ available p ∧ isConnected b = true ∧
  browsers p' = browsers p ∧ maxSize p' = maxSize p ∧
  ∃ popped, available p = available p' ++ popped.
Proof.
  induction fuel as [|fuel IH]; intros p b p'; rewrite PoolFacts.acquire_unfold;
    destruct (pop_spec p) as (Hm & Hbs & Hpop);
    destruct (connected_one isConnected (fst (pop p))) as [x|] eqn:Hone.
  1,3: intros [= -> <-];
    apply connected_one_Some in Hone as (Hx & Hc);
    destruct Hpop as [(Hnone & _)|(y & Hy & Hav)]; [congruence|];
    assert (y = b) as -> by congruence;
    rewrite Hav; split; [apply elem_of_app; right; apply list_elem_of_here|];
    eauto.
  - by destruct (length (browsers (snd (pop p))) <? maxSize (snd (pop p))).
  - destruct (length (browsers (snd (pop p))) <? maxSize (snd (pop p)));
      [done|].
    intros Hrec. destruct (IH _ _ _ Hrec) as (Hin & Hc & Hbs' & Hm' & rest & Hav').
    assert (Hsub : ∃ last, available p = available (snd (pop p)) ++ last).
    { destruct Hpop as [(_ & _ & ->)|(y & _ & Hav)]; [by exists []; rewrite app_nil_r|eauto]. }
    destruct Hsub as (last & Hav).
    split; [rewrite Hav; apply elem_of_app; by left|].
    split; [done|]. split; [congruence|]. split; [congruence|].
    exists (rest ++ last). by rewrite Hav, Hav', app_assoc.
Qed.

(** A single call: what [acquire] launches and what it keeps. *)
Lemma acquire_alone_limit fuel isConnected launch : ∀ p a p',
  acquire fuel isConnected launch p = Some (a, p') →
  maxSize p' = maxSize p ∧
  (length (browsers p) ≤ maxSize p → length (browsers p') ≤ maxSize p') ∧
  match a with
  | Reused _ => browsers p' = browsers p
  | Created b =>
      b = launch ∧ browsers p' = browsers p ++ [launch] ∧
      length (browsers p) < maxSize p
  end.
Proof.
  induction fuel as [|fuel IH]; intros p a p';
    rewrite PoolFacts.acquire_unfold;
    destruct (pop_spec p) as (Hm & Hbs & _);
    destruct (connected_one isConnected (fst (pop p))) as [x|].
  1,3: intros [= <- <-]; rewrite Hm, Hbs; done.
  - destruct (length (browsers (snd (pop p))) <? maxSize (snd (pop p)))
      eqn:Hroom; [|done].
    apply Nat.ltb_lt in Hroom. rewrite Hm, Hbs in Hroom.
    intros [= <- <-]. cbn [maxSize browsers]. rewrite Hm, Hbs.
    split; [done|]. split; [rewrite length_app; simpl; lia|done].
  - destruct (length (browsers (snd (pop p))) <? maxSize (snd (pop p)))
      eqn:Hroom.
    + apply Nat.ltb_lt in Hroom. rewrite Hm, Hbs in Hroom.
      intros [= <- <-]. cbn [maxSize browsers]. rewrite Hm, Hbs.
      split; [done|]. split; [rewrite length_app; simpl; lia|done].
    + intros Hrec. destruct (IH _ _ _ Hrec) as (Hm' & Hle & Ha).
      rewrite Hm, Hbs in *. done.
Qed.

(** A call that is scheduled alone, stretch after stretch, ends as
    [acquire] says. *)
Lemma interleave_alone isConnected launch : ∀ fuel p a p',
  acquire fuel isConnected (launch 0) p = Some (a, p') →
  ∃ stretches,
    interleave isConnected launch (replicate stretches 0) [Entering] p
    = ([Finished a], p').
Proof.
  induction fuel as [|fuel IH]; intros p a p'; cbn [acquire];
    destruct (enter isConnected p) as [[b| |] p1] eqn:Henter.
  1,4: intros [= <- <-]; exists 1; simpl; by rewrite Henter.
  1,3: intros [= <- <-]; exists 2; simpl; by rewrite Henter.
  - done.
  - intros Hrec. destruct (IH _ _ _ Hrec) as (k & Hk).
    exists (S k). simpl. by rewrite Henter.
Qed.

(** With no idle browser and room for one more, a call that enters goes
    on to launch, and leaves the pool as it is until the launch is
    done. *)
Lemma enter_launch isConnected p :
  available p = [] → length (browsers p) < maxSize p →
  enter isConnected p = (Launch, p).
Proof.
  intros Hidle Hroom. unfold enter, pop. rewrite Hidle. simpl.
  assert (Hcap : (length (browsers p) <? maxSize p) = true)
    by by apply Nat.ltb_lt.
  by rewrite Hcap.
Qed.

(** The calls enter one after the other before any launch is done. *)
Lemma interleave_enter isConnected launch p rest :
  available p = [] → length (browsers p) < maxSize p →
  ∀ n k,
    interleave isConnected launch (seq k n ++ rest)
               (replicate k Launching ++ replicate n Entering) p
    = interleave isConnected launch rest (replicate (k + n) Launching) p.
Proof.
  intros Hidle Hroom.
  induction n as [|n IH]; intros k.
  - simpl. by rewrite app_nil_r, Nat.add_0_r.
  - cbn [seq app interleave replicate].
    rewrite lookup_app_r by (rewrite length_replicate; lia).
    rewrite length_replicate, Nat.sub_diag. cbn [lookup list_lookup advance].
    rewrite enter_launch by done.
    replace (<[k:=Launching]> (replicate k Launching ++ Entering :: replicate n Entering))
      with (replicate (S k) Launching ++ replicate n Entering).
    + rewrite (IH (S k)). f_equal. f_equal. lia.
    + rewrite insert_app_r_alt by (rewrite length_replicate; lia).
      rewrite length_replicate, Nat.sub_diag. cbn [insert list_insert].
      rewrite replicate_S_end, <-app_assoc. done.
Qed.

(** Then the launches are done one after the other, and every call
    pushes its browser. *)
Lemma interleave_launch isConnected launch m idle : ∀ n k bs,
  interleave isConnected launch (seq k n)
             (((λ i, Finished (Created (launch i))) <$> seq 0 k)
                ++ replicate n Launching)
             {| maxSize := m; browsers := bs; available := idle |}
  = ((λ i, Finished (Created (launch i))) <$> seq 0 (k + n),
     {| maxSize := m; browsers := bs ++ (launch <$> seq k n);
        available := idle |}).
Proof.
  induction n as [|n IH]; intros k bs.
  - simpl. by rewrite !app_nil_r, Nat.add_0_r.
  - cbn [seq interleave replicate].
    rewrite lookup_app_r by (rewrite length_fmap, length_seq; lia).
    rewrite length_fmap, length_seq, Nat.sub_diag.
    cbn [lookup list_lookup advance]. unfold launched.
    cbn [maxSize browsers available].
    rewrite insert_app_r_alt by (rewrite length_fmap, length_seq; lia).
    rewrite length_fmap, length_seq, Nat.sub_diag. cbn [insert list_insert].
    replace (((λ i, Finished (Created (launch i))) <$> seq 0 k)
               ++ Finished (Created (launch k)) :: replicate n Launching)
      with (((λ i, Finished (Created (launch i))) <$> seq 0 (S k))
               ++ replicate n Launching).
    + rewrite (IH (S k)). cbn [fmap list_fmap].
      rewrite <-app_assoc. do 3 f_equal. lia.
    + rewrite seq_S, fmap_app, <-app_assoc. done.
Qed.

(** X2. A call of [acquire] that runs with no other call on the pool
    in flight launches a browser only while fewer than [maxSize] have
    been launched, and then adds just that one: the pool stays within
    its limit. The limit does not hold for calls that overlap, because
    the test of the limit and the push are on either side of the
    awaited launch: when [n] calls are made before any launch is done,
    on a pool with no idle browser and room for one more, every one of
    them launches, and the pool ends with [n] more browsers, beyond
    [maxSize] as soon as [n] exceeds the room that was left. *)
Theorem acquire_keeps_limit_alone_only isConnected p :
  (∀ fuel launch a p',
     acquire fuel isConnected launch p = Some (a, p') →
     maxSize p' = maxSize p ∧
     (length (browsers p) ≤ maxSize p → length (browsers p') ≤ maxSize p') ∧
     match a with
     | Reused _ => browsers p' = browsers p
     | Created b =>
         b = launch ∧ browsers p' = browsers p ++ [launch] ∧
         length (browsers p) < maxSize p
     end) ∧
  (∀ (launch : nat → Browser) n,
     available p = [] → length (browsers p) < maxSize p →
     ∃ p',
       interleave isConnected launch (seq 0 n ++ seq 0 n)
                  (replicate n Entering) p
       = ((λ i, Finished (Created (launch i))) <$> seq 0 n, p') ∧
       maxSize p' = maxSize p ∧
       browsers p' = browsers p ++ (launch <$> seq 0 n) ∧
       (maxSize p < length (browsers p) + n →
        maxSize p' < length (browsers p'))).
Proof.
  split.
  - intros fuel launch a p'. apply acquire_alone_limit.
  - intros launch n Hidle Hroom.
    pose proof (interleave_enter isConnected launch p (seq 0 n) Hidle Hroom
                  n 0) as Hfirst.
    cbn [replicate app] in Hfirst. rewrite Hfirst. clear Hfirst.
    destruct p as [m bs idle]. cbn [Nat.add].
    pose proof (interleave_launch isConnected launch m idle n 0 bs) as Hthen.
    cbn [seq fmap list_fmap app Nat.add] in Hthen. rewrite Hthen.
    eexists. split; [done|]. cbn [maxSize browsers].
    split; [done|]. split; [done|].
    rewrite length_app, length_fmap, length_seq. done.
Qed.

Lemma pop_dead isConnected p :
  Forall (λ b, isConnected b = false) (available p) →
  connected_one isConnected (fst (pop p)) = None ∧
  Forall (λ b, isConnected b = false) (available (snd (pop p))).
Proof.
  intros Hdead. destruct (pop_spec p) as (_ & _ & Hpop).
  destruct Hpop as [(-> & _ & ->)|(b & -> & Hav)]; [done|].
  rewrite Hav in Hdead. apply Forall_app in Hdead as [Hrest Hb].
  apply Forall_inv in Hb. simpl. by rewrite Hb.
Qed.

(** X3. With the pool full and no connected browser idle, [acquire]
    does not come back, however long it retries: nothing at this layer
    ends the wait. *)
Theorem acquire_waits_forever isConnected launch : ∀ fuel p,
  Forall (λ b, isConnected b = false) (available p) →
  maxSize p ≤ length (browsers p) →
  acquire fuel isConnected launch p = None.
Proof.
  induction fuel as [|fuel IH]; intros p Hdead Hfull; rewrite PoolFacts.acquire_unfold;
    destruct (pop_spec p) as (Hm & Hbs & _);
    destruct (pop_dead isConnected p Hdead) as (-> & Hdead');
    assert (Hroom : (length (browsers (snd (pop p))) <? maxSize (snd (pop p)))
                    = false) by (apply Nat.ltb_ge; rewrite Hm, Hbs; lia);
    rewrite Hroom.
  - done.
  - apply IH; [done|]. by rewrite Hm, Hbs.
Qed.


(** X4. A connected browser that is released is the one the next
    [acquire] returns, and the pool is then as it was before the
    release. *)
Theorem release_then_acquire fuel isConnected launch b p :
  isConnected b = true →
  acquire fuel isConnected launch (release isConnected b p)
  = Some (Reused b, p).
Proof.
  intros Hb. unfold release. rewrite Hb. destruct p as [m bs idle].
  cbn [maxSize browsers available].
  rewrite PoolFacts.acquire_unfold, PoolFacts.pop_snoc.
  cbn [fst snd connected_one]. by rewrite Hb.
Qed.

Lemma close_each_all close : ∀ bs closed,
  close_each close bs closed = closed ++ bs.
Proof.
  induction bs as [|b bs IH]; intros closed; simpl; [by rewrite app_nil_r|].
  destruct (close b); rewrite IH, <-app_assoc; done.
Qed.

(** X5. [closeAll] calls [close] once on every launched browser, in
    launch order, also when some of the calls throw; it leaves the pool
    empty, so that the next [acquire] launches a browser. *)
Theorem closeAll_closes_every_browser close isConnected launch fuel p :
  0 < maxSize p →
  fst (closeAll close p) = browsers p ∧
  acquire fuel isConnected launch (snd (closeAll close p))
  = Some (Created launch,
          {| maxSize := maxSize p; browsers := [launch]; available := [] |}).
Proof.
  intros Hmax. unfold closeAll. cbn [fst snd].
  split; [apply close_each_all|].
  rewrite PoolFacts.acquire_unfold. unfold pop. cbn [available fst snd connected_one
    browsers maxSize length].
  assert (Hroom : (0 <? maxSize p) = true) by (apply Nat.ltb_lt; lia).
  by rewrite Hroom.
Qed.
End PoolLaws.

(** X1, witness: the pool is full, the last idle browser is dead, the
    one before it is returned after one wait. *)
Lemma acquire_reused_is_idle_connected_witness :
  let isConnected := λ b : Pool.Browser, bool_decide (b ≠ 2) in
  let p := {| Pool.maxSize := 2; Pool.browsers := [1; 2];
              Pool.available := [1; 2] |} in
  let p' := {| Pool.maxSize := 2; Pool.browsers := [1; 2];
               Pool.available := [] |} in
  Pool.acquire 1 isConnected 7 p = Some (Pool.Reused 1, p') ∧
  1 ∈ Pool.available p ∧ isConnected 1 = true ∧
  Pool.browsers p' = Pool.browsers p ∧ Pool.maxSize p' = Pool.maxSize p ∧
  ∃ popped, Pool.available p = Pool.available p' ++ popped.
Proof.
  split; [reflexivity|].
  apply (PoolLaws.acquire_reused_is_idle_connected 1
           (λ b, bool_decide (b ≠ 2)) 7
           {| Pool.maxSize := 2; Pool.browsers := [1; 2];
              Pool.available := [1; 2] |} 1
           {| Pool.maxSize := 2; Pool.browsers := [1; 2];
              Pool.available := [] |}).
  reflexivity.
Defined.

(** X2, witness: two calls made together on a pool that has room for
    one browser both launch, and the pool of one holds two browsers. *)
Lemma acquire_keeps_limit_alone_only_witness :
  let p := Pool.new 1 in
  let launch := λ i : nat, S i in
  Pool.available p = [] ∧ length (Pool.browsers p) < Pool.maxSize p ∧
  Pool.interleave (λ _, true) launch [0; 1; 0; 1]
                  [Pool.Entering; Pool.Entering] p
  = ([Pool.Finished (Pool.Created 1); Pool.Finished (Pool.Created 2)],
     {| Pool.maxSize := 1; Pool.browsers := [1; 2]; Pool.available := [] |}) ∧
  ∃ p',
    Pool.interleave (λ _, true) launch (seq 0 2 ++ seq 0 2)
                    (replicate 2 Pool.Entering) p
    = ((λ i, Pool.Finished (Pool.Created (launch i))) <$> seq 0 2, p') ∧
    Pool.maxSize p' = Pool.maxSize p ∧
    Pool.browsers p' = Pool.browsers p ++ (launch <$> seq 0 2) ∧
    (Pool.maxSize p < length (Pool.browsers p) + 2 →
     Pool.maxSize p' < length (Pool.browsers p')).
Proof.
  split; [reflexivity|]. split; [simpl; lia|]. split; [reflexivity|].
  apply (proj2 (PoolLaws.acquire_keeps_limit_alone_only (λ _, true)
                  (Pool.new 1)) (λ i, S i) 2); [reflexivity|simpl; lia].
Defined.

(** X3, witness: one browser allowed, launched and checked out. *)
Lemma acquire_waits_forever_witness :
  let p := {| Pool.maxSize := 1; Pool.browsers := [1];
              Pool.available := [] |} in
  Forall (λ b, (λ _ : Pool.Browser, true) b = false) (Pool.available p) ∧
  Pool.maxSize p ≤ length (Pool.browsers p) ∧
  Pool.acquire 50 (λ _, true) 2 p = None.
Proof.
  split; [apply Forall_nil_2|]. split; [simpl; lia|].
  apply (PoolLaws.acquire_waits_forever (λ _, true) 2 50
           {| Pool.maxSize := 1; Pool.browsers := [1];
              Pool.available := [] |}); [apply Forall_nil_2|simpl; lia].
Defined.

(** X4, witness: browser 1 goes back to a pool that holds browser 2. *)
Lemma release_then_acquire_witness :
  let p := {| Pool.maxSize := 3; Pool.browsers := [1; 2];
              Pool.available := [2] |} in
  (λ _ : Pool.Browser, true) 1 = true ∧
  Pool.acquire 0 (λ _, true) 9 (Pool.release (λ _, true) 1 p)
  = Some (Pool.Reused 1, p).
Proof.
  split; [reflexivity|].
  apply (PoolLaws.release_then_acquire 0 (λ _, true) 9 1
           {| Pool.maxSize := 3; Pool.browsers := [1; 2];
              Pool.available := [2] |}).
  reflexivity.
Defined.

(** X5, witness: the close of browser 2 throws. *)
Lemma closeAll_closes_every_browser_witness :
  let close := λ b : Pool.Browser,
    if decide (b = 2) then Thrown "Target closed" else Returned () in
  let p := {| Pool.maxSize := 3; Pool.browsers := [1; 2; 3];
              Pool.available := [3] |} in
  0 < Pool.maxSize p ∧
  fst (Pool.closeAll close p) = Pool.browsers p ∧
  Pool.acquire 0 (λ _, true) 4 (snd (Pool.closeAll close p))
  = Some (Pool.Created 4,
          {| Pool.maxSize := Pool.maxSize p; Pool.browsers := [4];
             Pool.available := [] |}).
Proof.
  split; [simpl; lia|].
  apply (PoolLaws.closeAll_closes_every_browser
           (λ b, if decide (b = 2) then Thrown "Target closed" else Returned ())
           (λ _, true) 4 0
           {| Pool.maxSize := 3; Pool.browsers := [1; 2; 3];
              Pool.available := [3] |}).
  simpl; lia.
Defined.

(** ** Strings: trim, normalizePhone, the dedup key *)

Module StringLaws.

Lemma chars_inj s1 s2 : chars s1 = chars s2 → s1 = s2.
Proof.
  unfold chars. intros Heq.
  rewrite <-(String.string_of_list_ascii_of_string s1),
          <-(String.string_of_list_ascii_of_string s2).
  by rewrite Heq.
Qed.

Lemma chars_app s1 s2 : chars (s1 +:+ s2) = chars s1 ++ chars s2.
Proof. induction s1 as [|a s1 IH]; simpl; [done|]. by rewrite IH. Qed.

Lemma chars_rev_app s1 : ∀ s2,
  chars (String.rev_app s1 s2) = reverse (chars s1) ++ chars s2.
Proof.
  induction s1 as [|a s1 IH]; intros s2; simpl; [done|].
  rewrite IH, reverse_cons, <-app_assoc. done.
Qed.

Lemma chars_rev s : chars (String.rev s) = reverse (chars s).
Proof. unfold String.rev. by rewrite chars_rev_app, app_nil_r. Qed.

Lemma chars_trimStart s : chars (trimStart s) = skip_spaces (chars s).
Proof.
  induction s as [|a s IH]; simpl; [done|]. by destruct (is_js_space a).
Qed.

Lemma chars_trim s :
  chars (trim s)
  = reverse (skip_spaces (reverse (skip_spaces (chars s)))).
Proof.
  unfold trim, trimEnd.
  by rewrite chars_rev, chars_trimStart, chars_rev, chars_trimStart.
Qed.

Lemma skip_spaces_suffix l : ∃ spaces, l = spaces ++ skip_spaces l.
Proof.
  induction l as [|c l (spaces & IH)]; simpl; [by exists []|].
  destruct (is_js_space c); [|by exists []].
  exists (c :: spaces). simpl. by rewrite <-IH.
Qed.

Lemma skip_spaces_head l c :
  head (skip_spaces l) = Some c → is_js_space c = false.
Proof.
  induction l as [|a l IH]; simpl; [done|].
  destruct (is_js_space a) eqn:Ha; [done|]. simpl. by intros [= <-].
Qed.

Lemma skip_spaces_id l :
  (∀ c, head l = Some c → is_js_space c = false) → skip_spaces l = l.
Proof.
  destruct l as [|a l]; simpl; [done|]. intros Hhead.
  by rewrite (Hhead a eq_refl).
Qed.

Lemma skip_spaces_Forall (P : ascii → Prop) l :
  Forall P l → Forall P (skip_spaces l).
Proof.
  induction 1 as [|c l Hc Hl IH]; simpl; [done|].
  destruct (is_js_space c); [done|]. by constructor.
Qed.

(** [trim] leaves no white space at either end. *)
Lemma trim_tight s : tight (trim s).
Proof.
  unfold tight. rewrite chars_trim.
  set (m := skip_spaces (chars s)). set (n := skip_spaces (reverse m)).
  split; intros c.
  - rewrite head_reverse. intros Hlast.
    destruct (skip_spaces_suffix (reverse m)) as (spaces & Hsplit).
    fold n in Hsplit.
    assert (Hm : last (reverse m) = Some c).
    { rewrite Hsplit, last_app. by rewrite Hlast. }
    rewrite last_reverse in Hm. by apply (skip_spaces_head (chars s)).
  - rewrite last_reverse. apply skip_spaces_head.
Qed.

(** [trim] keeps a string that has no white space at its ends. *)
Lemma trim_id s : tight s → trim s = s.
Proof.
  intros (Hhead & Hlast). apply chars_inj. rewrite chars_trim.
  rewrite (skip_spaces_id (chars s)) by done.
  rewrite skip_spaces_id; [apply reverse_involutive|].
  intros c. rewrite head_reverse. apply Hlast.
Qed.

Lemma trim_all_chars P s : all_chars P s → all_chars P (trim s).
Proof.
  unfold all_chars. rewrite chars_trim. intros Hall.
  apply Forall_reverse, skip_spaces_Forall, Forall_reverse.
  by apply skip_spaces_Forall.
Qed.

Lemma string_filter_all_chars keep s : all_chars keep (string_filter keep s).
Proof.
  unfold all_chars, chars. induction s as [|a s IH]; simpl; [done|].
  destruct (keep a) eqn:Ha; [|done]. simpl. by constructor.
Qed.

Lemma string_filter_id keep s : all_chars keep s → string_filter keep s = s.
Proof.
  unfold all_chars, chars. induction s as [|a s IH]; simpl; [done|].
  intros Hall. apply Forall_cons in Hall as [-> Hall]. by rewrite IH.
Qed.

Lemma truthy_Some s : truthy (Some s) = true ↔ s ≠ "".
Proof. destruct s; simpl; split; done. Qed.

Lemma normalizePhone_Some phone r :
  normalizePhone phone = Some r →
  r ≠ "" ∧ all_chars phone_char r ∧ tight r.
Proof.
  unfold normalizePhone. destruct (truthy phone); [|done].
  destruct (truthy (Some (trim (string_filter phone_char (default "" phone)))))
    eqn:Hr; [|done].
  intros [= <-]. split; [by apply truthy_Some|].
  split; [apply trim_all_chars, string_filter_all_chars|apply trim_tight].
Qed.

(** X6. A phone number that [normalizePhone] returns is not empty, is
    made of digits, white space and [+ ( ) -] only, and has no white
    space at either end. *)
Theorem normalizePhone_clean phone r :
  normalizePhone phone = Some r →
  r ≠ "" ∧ all_chars phone_char r ∧ tight r.
Proof.
  unfold normalizePhone. destruct (truthy phone); [|done].
  set (cleaned := trim (string_filter phone_char (default "" phone))).
  destruct (truthy (Some cleaned)) eqn:Hcleaned; [|done].
  intros [= <-]. split; [by apply truthy_Some|]. split.
  - apply trim_all_chars, string_filter_all_chars.
  - apply trim_tight.
Qed.

(** X7. [normalizePhone] changes nothing in what it has returned. *)
Theorem normalizePhone_idempotent phone :
  normalizePhone (normalizePhone phone) = normalizePhone phone.
Proof.
  destruct (normalizePhone phone) as [r|] eqn:Hphone; [|done].
  destruct (normalizePhone_Some _ _ Hphone) as (Hne & Hall & Htight).
  assert (Ht : truthy (Some r) = true) by by apply truthy_Some.
  unfold normalizePhone. rewrite Ht.
  change (default "" (Some r)) with r.
  rewrite string_filter_id, trim_id by done.
  by rewrite Ht.
Qed.

Lemma split_at_last (x : ascii) : ∀ l1 l2 q1 q2,
  l1 ++ x :: q1 = l2 ++ x :: q2 → x ∉ q1 → x ∉ q2 → l1 = l2 ∧ q1 = q2.
Proof.
  induction l1 as [|a l1 IH]; intros [|b l2] q1 q2; simpl.
  - by intros [= ->].
  - intros [= <- ->] Hq1 _. destruct Hq1.
    apply elem_of_app. right. apply list_elem_of_here.
  - intros [= -> <-] _ Hq2. destruct Hq2.
    apply elem_of_app. right. apply list_elem_of_here.
  - intros [= -> Heq] Hq1 Hq2. destruct (IH _ _ _ Heq Hq1 Hq2). by subst.
Qed.

(** The part of the key after the bar. *)
Lemma phone_part_no_bar phone :
  ("|"%char : ascii) ∉ chars (if truthy (normalizePhone phone)
                              then default "" (normalizePhone phone) else "").
Proof.
  destruct (normalizePhone phone) as [r|] eqn:Hphone;
    [|by intros ?%elem_of_nil].
  destruct (normalizePhone_Some _ _ Hphone) as (Hne & Hall & _).
  assert (Ht : truthy (Some r) = true) by by apply truthy_Some.
  rewrite Ht. change (default "" (Some r)) with r.
  unfold all_chars in Hall. rewrite Forall_forall in Hall.
  intros Hbar. by specialize (Hall _ Hbar).
Qed.

Lemma scrapeDirectUrl_fields obs coords url b :
  scrapeDirectUrl obs coords url = Returned (Some b) →
  name b = trim <$> name_text obs ∧
  phone b = normalizePhone (phone_text obs) ∧
  googleMapsUrl b = url ∧ category b = None ∧
  website b = (λ d, "https://www." +:+ d) <$> domain b.
Proof.
  unfold scrapeDirectUrl. destruct (goto_error obs); [done|].
  destruct (name_visible obs); simpl; [|done].
  destruct (truthy (trim <$> name_text obs)); [|done].
  intros [= <-]. simpl. repeat split.
  destruct (website_text obs) as [[|c d]|]; done.
Qed.

(** X8. Two records that [scrapeDirectUrl] has returned have the same
    dedup key exactly when they have the same name and the same phone:
    the bar that joins the two parts cannot be part of a normalised
    phone. *)
Theorem dedupKey_same_name_and_phone env b1 b2 :
  Orchestrator.extracted env b1 → Orchestrator.extracted env b2 →
  dedupKey b1 = dedupKey b2 ↔ name b1 = name b2 ∧ phone b1 = phone b2.
Proof.
  intros (url1 & Hb1) (url2 & Hb2). split.
  2: { unfold dedupKey. by intros (-> & ->). }
  destruct (OrchestratorFacts.scrapeDirectUrl_some _ _ _ _ Hb1)
    as (_ & _ & _ & Hn1).
  destruct (OrchestratorFacts.scrapeDirectUrl_some _ _ _ _ Hb2)
    as (_ & _ & _ & Hn2).
  apply OrchestratorFacts.truthy_nonempty in Hn1 as (n1 & Hname1 & _).
  apply OrchestratorFacts.truthy_nonempty in Hn2 as (n2 & Hname2 & _).
  destruct (scrapeDirectUrl_fields _ _ _ _ Hb1) as (_ & Hp1 & _).
  destruct (scrapeDirectUrl_fields _ _ _ _ Hb2) as (_ & Hp2 & _).
  unfold dedupKey. rewrite Hname1, Hname2, Hp1, Hp2.
  change (default "undefined" (Some n1)) with n1.
  change (default "undefined" (Some n2)) with n2.
  intros Hkey. apply (f_equal chars) in Hkey.
  rewrite !chars_app in Hkey. simpl in Hkey.
  apply split_at_last in Hkey as (Hn & Hp);
    [|apply phone_part_no_bar|apply phone_part_no_bar].
  apply chars_inj in Hn, Hp. split; [by rewrite Hn|].
  destruct (normalizePhone (phone_text (Orchestrator.page env url1)))
    as [r1|] eqn:Hr1;
  destruct (normalizePhone (phone_text (Orchestrator.page env url2)))
    as [r2|] eqn:Hr2; try done.
  - apply normalizePhone_Some in Hr1 as (Hne1 & _).
    apply normalizePhone_Some in Hr2 as (Hne2 & _).
    assert (Ht1 : truthy (Some r1) = true) by by apply truthy_Some.
    assert (Ht2 : truthy (Some r2) = true) by by apply truthy_Some.
    rewrite Ht1, Ht2 in Hp.
    change (default "" (Some r1)) with r1 in Hp.
    change (default "" (Some r2)) with r2 in Hp. by rewrite Hp.
  - apply normalizePhone_Some in Hr1 as (Hne1 & _).
    assert (Ht1 : truthy (Some r1) = true) by by apply truthy_Some.
    rewrite Ht1 in Hp. change (default "" (Some r1)) with r1 in Hp.
    simpl in Hp. done.
  - apply normalizePhone_Some in Hr2 as (Hne2 & _).
    assert (Ht2 : truthy (Some r2) = true) by by apply truthy_Some.
    rewrite Ht2 in Hp. change (default "" (Some r2)) with r2 in Hp.
    simpl in Hp. done.
Qed.

(** X9. A record that [scrapeDirectUrl] returns carries the URL it was
    read from, a name that is not empty and has no white space at its
    ends, a phone that is absent or normalised, and a website that is
    the domain behind [https://www.]. *)
Theorem scrapeDirectUrl_record_shape obs coords url b :
  scrapeDirectUrl obs coords url = Returned (Some b) →
  googleMapsUrl b = url ∧
  (∃ n, name b = Some n ∧ n ≠ "" ∧ tight n) ∧
  (phone b = None ∨
   ∃ r, phone b = Some r ∧ r ≠ "" ∧ all_chars phone_char r ∧ tight r) ∧
  website b = (λ d, "https://www." +:+ d) <$> domain b.
Proof.
  intros Hb.
  destruct (scrapeDirectUrl_fields _ _ _ _ Hb) as (Hn & Hp & Hu & _ & Hw).
  destruct (OrchestratorFacts.scrapeDirectUrl_some _ _ _ _ Hb)
    as (_ & _ & _ & Hnamed).
  apply OrchestratorFacts.truthy_nonempty in Hnamed as (n & Hname & Hne).
  split; [done|]. split.
  - exists n. split; [done|]. split; [done|].
    rewrite Hname in Hn. destruct (name_text obs) as [raw|]; [|done].
    simpl in Hn. injection Hn as ->. apply trim_tight.
  - split; [|done]. destruct (phone b) as [r|] eqn:Hr; [right|by left].
    exists r. split; [done|]. by apply (normalizePhone_Some (phone_text obs)).
Qed.
End StringLaws.

(** X6, witness: a phone text with a label. *)
Lemma normalizePhone_clean_witness :
  normalizePhone (Some "tel: +90 (242) 1-23") = Some "+90 (242) 1-23" ∧
  "+90 (242) 1-23" ≠ "" ∧ all_chars phone_char "+90 (242) 1-23" ∧
  tight "+90 (242) 1-23".
Proof.
  split; [reflexivity|].
  apply (StringLaws.normalizePhone_clean (Some "tel: +90 (242) 1-23")).
  reflexivity.
Defined.

(** X8, witness: the two Cafe pages of the sample run. *)
Lemma dedupKey_same_name_and_phone_witness :
  let env := Orchestrator.sample_env (Returned []) in
  ∃ b1 b2,
    Orchestrator.page_record env "u1" = Some b1 ∧
    Orchestrator.page_record env "u2" = Some b2 ∧
    Orchestrator.extracted env b1 ∧ Orchestrator.extracted env b2 ∧
    (dedupKey b1 = dedupKey b2 ↔ name b1 = name b2 ∧ phone b1 = phone b2).
Proof.
  eexists _, _. split; [reflexivity|]. split; [reflexivity|].
  assert (H1 : Orchestrator.extracted (Orchestrator.sample_env (Returned []))
                 {| name := Some "Cafe"; address := None; website := None;
                    domain := None; phone := None; rating := None;
                    reviews := None; category := None; coordinates := None;
                    googleMapsUrl := "u1" |}) by (by exists "u1").
  assert (H2 : Orchestrator.extracted (Orchestrator.sample_env (Returned []))
                 {| name := Some "Cafe"; address := None; website := None;
                    domain := None; phone := None; rating := None;
                    reviews := None; category := None; coordinates := None;
                    googleMapsUrl := "u2" |}) by (by exists "u2").
  split; [exact H1|]. split; [exact H2|].
  exact (StringLaws.dedupKey_same_name_and_phone _ _ _ H1 H2).
Defined.

(** X9, witness: the Bar page of the sample run. *)
Lemma scrapeDirectUrl_record_shape_witness :
  ∃ b,
    scrapeDirectUrl (Orchestrator.sample_page "u3") None "u3"
      = Returned (Some b) ∧
    googleMapsUrl b = "u3" ∧
    (∃ n, name b = Some n ∧ n ≠ "" ∧ tight n) ∧
    (phone b = None ∨
     ∃ r, phone b = Some r ∧ r ≠ "" ∧ all_chars phone_char r ∧ tight r) ∧
    website b = (λ d, "https://www." +:+ d) <$> domain b.
Proof.
  eexists. split; [reflexivity|].
  apply (StringLaws.scrapeDirectUrl_record_shape
           (Orchestrator.sample_page "u3") None "u3").
  reflexivity.
Defined.

(** ** The run: what the workers return and what the merge keeps *)

Module OrchestratorLaws.
Import Pool Partitioner Orchestrator.

Lemma page_record_Some env url b :
  page_record env url = Some b →
  scrapeDirectUrl (page env url) (url_coordinates env url) url
  = Returned (Some b).
Proof.
  unfold page_record.
  destruct (scrapeDirectUrl (page env url) (url_coordinates env url) url)
    as [[b'|]|e]; by intros [= <-].
Qed.

Lemma at_least_nothing (x : Q) : (0 < x)%Q → at_least 0 x = false.
Proof.
  intros Hpos. rewrite at_least_ceiling. apply Nat.leb_gt.
  by apply ceiling_lt.
Qed.

Lemma of_nat_pos n : 0 < n → (0 < of_nat n)%Q.
Proof. intros Hn. apply (ceiling_lt 0). by rewrite ceiling_of_nat. Qed.

(** *** The workers *)

(** With an empty seen set and a budget above zero, the loop visits
    every URL and keeps every record. *)
Lemma worker_loop_exact env workerId maxTotal urls : ∀ results w,
  seenBusinesses w = ∅ → (0 < maxTotal)%Q →
  worker_loop env urls workerId maxTotal results w
  = Some (w, Returned (results ++ omap (page_record env) urls)).
Proof.
  induction urls as [|url rest IH]; intros results w Hseen Hmax.
  - simpl. by rewrite app_nil_r.
  - cbn [worker_loop omap list_omap]. unfold mbind, M_bind, get_seen.
    rewrite Hseen, size_empty, at_least_nothing by done.
    unfold page_record at 1.
    destruct (scrapeDirectUrl (page env url) (url_coordinates env url) url)
      as [[business|]|e] eqn:Hurl; [|by apply IH..].
    apply OrchestratorFacts.scrapeDirectUrl_some in Hurl as (_ & _ & _ & ->).
    destruct (decide (dedupKey business ∈ (∅ : gset string))) as [Hin|_];
      [by apply not_elem_of_empty in Hin|].
    rewrite IH by done. by rewrite <-app_assoc.
Qed.

Lemma scrapeUrlChunk_exact env browser urls workerId maxTotal w :
  seenBusinesses w = ∅ → (0 < maxTotal)%Q →
  context_open env workerId = None → context_close env workerId = None →
  scrapeUrlChunk env browser urls workerId maxTotal w
  = Some ({| pool := pool w; seenBusinesses := ∅;
             trace := trace w ++ [ContextOpened workerId]
                              ++ [ContextClosed workerId];
             detached := detached w |},
          Returned (omap (page_record env) urls)).
Proof.
  intros Hseen Hmax Hopen Hclose.
  unfold scrapeUrlChunk, try_finally, try_catch_finally, mbind, M_bind,
    settle_unit, emit, throw, mret, M_ret.
  rewrite Hopen, Hclose. cbn [pool seenBusinesses trace detached].
  rewrite worker_loop_exact by done.
  cbn [pool seenBusinesses trace detached]. by rewrite Hseen, <-app_assoc.
Qed.

(** X10. In a run, where the seen set is empty until the merge, a
    worker with a budget above zero whose context opens and closes
    returns the record of every URL of its chunk that gives one, in
    chunk order: it stops at no budget and drops no duplicate. *)
Theorem scrapeUrlChunk_returns_every_record
    env browser urls workerId maxTotal w :
  seenBusinesses w = ∅ → (0 < maxTotal)%Q →
  context_open env workerId = None → context_close env workerId = None →
  ∃ w',
    scrapeUrlChunk env browser urls workerId maxTotal w
    = Some (w', Returned (omap (page_record env) urls)) ∧
    seenBusinesses w' = ∅ ∧ pool w' = pool w.
Proof.
  intros Hseen Hmax Hopen Hclose.
  rewrite scrapeUrlChunk_exact by done. eauto.
Qed.

(** X11. A worker returns normally exactly when its context opens and
    closes without an error: a page that fails to load, times out or
    has no name never makes the worker throw. *)
Theorem scrapeUrlChunk_throws_only_for_its_context
    env browser urls workerId maxTotal w :
  (context_open env workerId = None ∧ context_close env workerId = None) ↔
  ∃ w' rs, scrapeUrlChunk env browser urls workerId maxTotal w
           = Some (w', Returned rs).
Proof.
  unfold scrapeUrlChunk, try_finally, try_catch_finally, mbind, M_bind,
    settle_unit, emit, throw, mret, M_ret.
  destruct (context_open env workerId) as [e|].
  { split; [by intros [? _]|by intros (? & ? & ?)]. }
  cbn [pool seenBusinesses trace detached].
  match goal with
  | |- context [worker_loop ?e ?u ?i ?m ?r ?w0] =>
      destruct (OrchestratorFacts.worker_loop_spec e i m u r w0)
        as (results' & -> & _)
  end.
  destruct (context_close env workerId) as [e|].
  - split; [by intros [_ ?]|by intros (? & ? & ?)].
  - split; [eauto|done].
Qed.

(** The workers of a run whose contexts all open and close, each taken
    to its end. *)
Lemma settle_each_workers_exact env browser maxTotal chunks :
  ∀ (g : nat → nat) w,
    seenBusinesses w = ∅ → (0 < maxTotal)%Q →
    (∀ i, context_open env i = None) → (∀ i, context_close env i = None) →
    ∃ w' settled,
      settle_each
        (imap (λ i chunk, scrapeUrlChunk env browser chunk (g i) maxTotal)
              chunks) w
      = Some (w', settled) ∧
      snd <$> settled = Returned <$> map (omap (page_record env)) chunks ∧
      seenBusinesses w' = ∅ ∧ pool w' = pool w ∧ detached w' = detached w ∧
      ∃ evs, trace w' = trace w ++ evs ∧
             Forall (λ ev, is_pool_event ev = false) evs.
Proof.
  induction chunks as [|chunk chunks IH]; intros g w Hseen Hmax Hopen Hclose.
  - exists w, []. do 5 (split; [done|]).
    exists []. by rewrite app_nil_r.
  - cbn [imap settle_each map].
    rewrite scrapeUrlChunk_exact by done.
    set (w1 := {| pool := pool w; seenBusinesses := ∅;
                  trace := trace w ++ [ContextOpened (g 0)]
                                   ++ [ContextClosed (g 0)];
                  detached := detached w |}).
    destruct (IH (g ∘ S) w1)
      as (w' & settled & Hrun & Hout & Hseen' & Hpool' & Hdet' & evs & Htr
          & Hevs); [done..|].
    match goal with
    | |- context [settle_each ?ps w1] =>
        change (settle_each ps w1)
          with (settle_each
                  (imap (λ i chunk,
                           scrapeUrlChunk env browser chunk ((g ∘ S) i)
                                          maxTotal) chunks) w1)
    end.
    rewrite Hrun. eexists _, _. split; [done|].
    cbn [fmap list_fmap snd]. split; [by rewrite Hout|].
    do 3 (split; [done|]).
    exists ([ContextOpened (g 0)] ++ [ContextClosed (g 0)] ++ evs).
    split; [rewrite Htr; unfold w1; cbn [trace]; by rewrite <-!app_assoc|].
    repeat constructor; done.
Qed.

(** All the workers of a run, started on the chunks. *)
Lemma promise_all_workers env browser maxTotal chunks w :
  seenBusinesses w = ∅ → (0 < maxTotal)%Q →
  (∀ i, context_open env i = None) → (∀ i, context_close env i = None) →
  ∃ w',
    promise_all (settled_at env) (calls_made env)
      (imap (λ i chunk, scrapeUrlChunk env browser chunk i maxTotal)
            chunks) w
    = Some (w', Returned (map (omap (page_record env)) chunks)) ∧
    seenBusinesses w' = ∅ ∧ pool w' = pool w ∧ detached w' = detached w ∧
    ∃ evs, trace w' = trace w ++ evs ∧
           Forall (λ ev, is_pool_event ev = false) evs.
Proof.
  intros Hseen Hmax Hopen Hclose.
  destruct (settle_each_workers_exact env browser maxTotal chunks (λ i, i) w)
    as (w' & settled & Hrun & Hout & Hrest); [done..|].
  cbv beta in Hrun. unfold promise_all. rewrite Hrun, Hout.
  assert (Hnone : first_rejection (settled_at env) 0
                    (Returned <$> map (omap (page_record env)) chunks) = None).
  { apply OrchestratorFacts.first_rejection_None, Forall_fmap, Forall_forall.
    intros rs _. by exists rs. }
  rewrite Hnone, OrchestratorFacts.fulfilled_returned. eauto.
Qed.

(** *** The merge *)

Lemma merge_chunk_full maxResults chunk results w :
  ceiling maxResults ≤ length results →
  merge_chunk maxResults chunk results w = Some (w, Returned results).
Proof.
  intros Hfull. destruct chunk as [|business rest]; [done|].
  cbn [merge_chunk]. rewrite at_least_ceiling.
  assert (Hcap : (ceiling maxResults <=? length results) = true)
    by by apply Nat.leb_le.
  by rewrite Hcap.
Qed.

(** The inner loop pushes, up to the cap, the records that bring a new
    key. *)
Lemma merge_chunk_exact maxResults chunk : ∀ results w,
  ∃ w',
    merge_chunk maxResults chunk results w
    = Some (w', Returned
                  (results ++ take (ceiling maxResults - length results)
                                (first_by_key (seenBusinesses w) chunk))) ∧
    pool w' = pool w ∧ trace w' = trace w.
Proof.
  induction chunk as [|business rest IH]; intros results w.
  - exists w. simpl. by rewrite take_nil, app_nil_r.
  - destruct (decide (ceiling maxResults ≤ length results)) as [Hfull|Hroom].
    { exists w. rewrite merge_chunk_full by done.
      replace (ceiling maxResults - length results) with 0 by lia.
      by rewrite take_0, app_nil_r. }
    cbn [merge_chunk first_by_key]. rewrite at_least_ceiling.
    assert (Hcap : (ceiling maxResults <=? length results) = false)
      by (apply Nat.leb_gt; lia).
    rewrite Hcap. unfold mbind, M_bind, get_seen, set_seen.
    destruct (decide (dedupKey business ∈ seenBusinesses w)); [apply IH|].
    set (w1 := {| pool := pool w;
                  seenBusinesses := {[dedupKey business]} ∪ seenBusinesses w;
                  trace := trace w; detached := detached w |}).
    destruct (IH (results ++ [business]) w1) as (w' & -> & Hpool & Htr).
    exists w'. split; [|done]. do 3 f_equal.
    rewrite length_app, <-app_assoc. simpl.
    replace (ceiling maxResults - length results)
      with (S (ceiling maxResults - (length results + 1))) by lia.
    done.
Qed.

Lemma merge_chunk_app maxResults l1 l2 : ∀ results w,
  merge_chunk maxResults (l1 ++ l2) results w
  = match merge_chunk maxResults l1 results w with
    | Some (w1, Returned r) => merge_chunk maxResults l2 r w1
    | other => other
    end.
Proof.
  induction l1 as [|business rest IH]; intros results w; [done|].
  cbn [merge_chunk app]. rewrite at_least_ceiling.
  destruct (ceiling maxResults <=? length results) eqn:Hcap.
  - cbn. symmetry. apply merge_chunk_full. by apply Nat.leb_le.
  - unfold mbind, M_bind, get_seen, set_seen.
    destruct (decide (dedupKey business ∈ seenBusinesses w)); apply IH.
Qed.

(** The two loops of the merge do what the inner loop does on the
    worker results laid end to end. *)
Lemma merge_chunks_flat maxResults chunkResults : ∀ results w,
  merge_chunks maxResults chunkResults results w
  = merge_chunk maxResults (concat chunkResults) results w.
Proof.
  induction chunkResults as [|chunk more IH]; intros results w; [done|].
  cbn [merge_chunks concat]. unfold mbind, M_bind.
  rewrite merge_chunk_app.
  destruct (merge_chunk_exact maxResults chunk results w) as (w1 & -> & _).
  apply IH.
Qed.

Lemma first_by_key_sublist records : ∀ seen,
  first_by_key seen records `sublist_of` records.
Proof.
  induction records as [|b records IH]; intros seen; simpl; [constructor|].
  destruct (decide (dedupKey b ∈ seen)).
  - by apply sublist_cons.
  - by apply sublist_skip.
Qed.

(** The first record with a key that is new is kept. *)
Lemma first_by_key_first records : ∀ seen i b,
  records !! i = Some b →
  dedupKey b ∉ seen →
  (∀ j b', j < i → records !! j = Some b' → dedupKey b' ≠ dedupKey b) →
  b ∈ first_by_key seen records.
Proof.
  induction records as [|b0 records IH]; intros seen i b Hi Hnew Hfirst;
    [done|].
  simpl. destruct i as [|i]; simpl in Hi.
  - injection Hi as ->. destruct (decide (dedupKey b ∈ seen)); [done|].
    apply list_elem_of_here.
  - assert (Hb0 : dedupKey b0 ≠ dedupKey b) by (apply (Hfirst 0); [lia|done]).
    assert (Hrest : ∀ j b', j < i → records !! j = Some b' →
                            dedupKey b' ≠ dedupKey b).
    { intros j b' Hj Hb'. apply (Hfirst (S j)); [lia|done]. }
    destruct (decide (dedupKey b0 ∈ seen)).
    + by apply (IH seen i).
    + apply list_elem_of_further, (IH _ i); [done| |done].
      intros [Heq%elem_of_singleton|?]%elem_of_union; [|done].
      by apply Hb0.
Qed.

(** X12. For a cap that is a natural number, the merge returns, up to
    the cap, the worker results laid end to end in worker order,
    without the records whose key an earlier record, or the seen set it
    started with, already had. So the result is a sublist of the worker
    results, and below the cap the first record of every new key is in
    it. *)
Theorem merge_keeps_first_of_each_key (maxResults : nat) chunkResults w :
  ∃ w' R,
    merge_chunks (of_nat maxResults) chunkResults [] w
      = Some (w', Returned R) ∧
    R = take maxResults
          (first_by_key (seenBusinesses w) (concat chunkResults)) ∧
    R `sublist_of` concat chunkResults ∧
    (length R < maxResults →
     ∀ i b, concat chunkResults !! i = Some b →
       dedupKey b ∉ seenBusinesses w →
       (∀ j b', j < i → concat chunkResults !! j = Some b' →
                dedupKey b' ≠ dedupKey b) →
       b ∈ R).
Proof.
  rewrite merge_chunks_flat.
  destruct (merge_chunk_exact (of_nat maxResults) (concat chunkResults) [] w)
    as (w' & Hrun & _).
  simpl in Hrun. rewrite Nat.sub_0_r, ceiling_of_nat in Hrun.
  eexists _, _. split; [exact Hrun|]. split; [done|]. split.
  - etrans; [apply sublist_take|apply first_by_key_sublist].
  - intros Hlen i b Hi Hnew Hfirst.
    rewrite take_ge.
    + by apply (first_by_key_first _ _ i).
    + destruct (decide (length (first_by_key (seenBusinesses w)
                                 (concat chunkResults)) ≤ maxResults));
        [done|].
      rewrite length_take_le in Hlen by lia. lia.
Qed.

(** *** The whole run *)

Lemma chunked_nil {A : Type} parts w :
  chunked (@nil A) parts w = Some (w, Returned []).
Proof. unfold chunked. by destruct parts. Qed.

Lemma chunked_concat {A : Type} (array : list A) parts w :
  ∃ chunks, chunked array parts w = Some (w, Returned chunks) ∧
            concat chunks = array.
Proof.
  unfold chunked. destruct parts as [|parts].
  - destruct array as [|x array]; simpl; eexists; (split; [done|]);
      simpl; [done|]. by rewrite app_nil_r.
  - destruct (PartitionerFacts.chunkArray_spec array (S parts))
      as (chunks & Hrun & Hcat & _); [lia|].
    exists chunks. by rewrite Hrun.
Qed.

Lemma omap_concat {A B : Type} (f : A → option B) (ls : list (list A)) :
  concat (map (omap f) ls) = omap f (concat ls).
Proof.
  induction ls as [|l ls IH]; simpl; [done|]. by rewrite omap_app, IH.
Qed.

(** The [try] block when the discovery returns and every context opens
    and closes. *)
Lemma try_block_exact env browser query (maxResults : nat) workers urls w :
  seenBusinesses w = ∅ →
  collected env browser query (of_nat maxResults * 2) = Returned urls →
  (∀ i, context_open env i = None) → (∀ i, context_close env i = None) →
  ∃ w',
    try_block env browser query (of_nat maxResults) workers w
    = Some (w', Returned
                  (take maxResults
                     (first_by_key ∅
                        (omap (page_record env)
                              (take (maxResults * 2) urls))))).
Proof.
  intros Hseen Hurls Hopen Hclose.
  unfold try_block, mbind at 1 2, M_bind at 1 2, emit, settle.
  rewrite Hurls.
  set (w1 := {| pool := pool w; seenBusinesses := seenBusinesses w;
                trace := trace w ++ [CollectUrls browser];
                detached := detached w |}).
  destruct (length urls =? 0) eqn:Hlen.
  { apply Nat.eqb_eq, nil_length_inv in Hlen as ->.
    exists w1. rewrite take_nil. simpl. by rewrite take_nil. }
  rewrite slice_to_of_nat.
  destruct (decide (maxResults = 0)) as [->|Hpos].
  { change (0 * 2) with 0. rewrite !take_0.
    unfold mbind, M_bind. rewrite chunked_nil. simpl. eauto. }
  destruct (chunked_concat (take (maxResults * 2) urls) workers w1)
    as (chunks & Hchunks & Hcat).
  unfold mbind at 1, M_bind at 1. rewrite Hchunks.
  destruct (promise_all_workers env browser (of_nat maxResults) chunks w1)
    as (w2 & Hworkers & Hseen2 & _); [done|apply of_nat_pos; lia|done|done|].
  unfold mbind, M_bind. rewrite Hworkers, merge_chunks_flat.
  destruct (merge_chunk_exact (of_nat maxResults)
              (concat (map (omap (page_record env)) chunks)) [] w2)
    as (w3 & -> & _).
  exists w3. simpl.
  by rewrite Nat.sub_0_r, ceiling_of_nat, Hseen2, omap_concat, Hcat.
Qed.

(** X13. When the discovery returns and every context opens and closes,
    the run with a cap [maxResults] that is a natural number returns
    the first [maxResults] records with distinct keys among the records
    of the first [2 * maxResults] discovered URLs, in URL order,
    whatever the number of workers. Its result is thus a sublist of
    those records, and when it is shorter than [maxResults] it holds
    the first record of every key. *)
Theorem scrapeGoogleMaps_result
    fuel env query (maxResults : nat) workers w a p' urls :
  acquire fuel (isConnected env) (launch env) (pool w) = Some (a, p') →
  collected env (browser_of a) query (of_nat maxResults * 2)
    = Returned urls →
  (∀ i, context_open env i = None) → (∀ i, context_close env i = None) →
  ∃ w' R,
    scrapeGoogleMaps fuel env query (of_nat maxResults) workers w
    = Some (w', Returned R) ∧
    R = take maxResults
          (first_by_key ∅
             (omap (page_record env) (take (maxResults * 2) urls))) ∧
    R `sublist_of` omap (page_record env) (take (maxResults * 2) urls) ∧
    (length R < maxResults →
     ∀ i b,
       omap (page_record env) (take (maxResults * 2) urls) !! i = Some b →
       (∀ j b', j < i →
          omap (page_record env) (take (maxResults * 2) urls) !! j = Some b' →
          dedupKey b' ≠ dedupKey b) →
       b ∈ R).
Proof.
  intros Hacq Hurls Hopen Hclose.
  unfold scrapeGoogleMaps, mbind, M_bind, set_seen, pool_acquire.
  cbn [pool seenBusinesses trace detached]. rewrite Hacq.
  set (w1 := {| pool := p'; seenBusinesses := ∅;
                trace := trace w ++ [PoolAcquire (browser_of a)];
                detached := detached w |}).
  destruct (try_block_exact env (browser_of a) query maxResults workers
              urls w1) as (w2 & Hrun); [done..|].
  unfold try_catch_finally, pool_release. rewrite Hrun.
  eexists _, _. split; [done|]. split; [done|]. split.
  - etrans; [apply sublist_take|apply first_by_key_sublist].
  - intros Hlen i b Hi Hfirst.
    set (records := omap (page_record env) (take (maxResults * 2) urls)) in *.
    rewrite take_ge.
    + apply (first_by_key_first _ _ i); [done| |done]. apply not_elem_of_empty.
    + destruct (decide (length (first_by_key ∅ records) ≤ maxResults));
        [done|].
      rewrite length_take_le in Hlen by lia. lia.
Qed.

(** X14. When the discovery finds no URL, or the cap is zero, the run
    returns the empty list, not an error; no worker is started, and the
    browser is released. *)
Theorem scrapeGoogleMaps_nothing_to_scrape
    fuel env query maxResults workers w a p' urls :
  acquire fuel (isConnected env) (launch env) (pool w) = Some (a, p') →
  collected env (browser_of a) query (maxResults * 2) = Returned urls →
  urls = [] ∨ (maxResults == 0)%Q →
  ∃ w',
    scrapeGoogleMaps fuel env query maxResults workers w
    = Some (w', Returned []) ∧
    trace w' = trace w ++ [PoolAcquire (browser_of a);
                           CollectUrls (browser_of a);
                           PoolRelease (browser_of a)].
Proof.
  intros Hacq Hurls Hcase.
  unfold scrapeGoogleMaps, mbind at 1 2, M_bind at 1 2, set_seen,
    pool_acquire.
  cbn [pool seenBusinesses trace detached]. rewrite Hacq.
  unfold try_catch_finally, pool_release, try_block, mbind at 1 2,
    M_bind at 1 2, emit, settle.
  rewrite Hurls. cbn [pool seenBusinesses trace detached].
  destruct (length urls =? 0) eqn:Hlen.
  { eexists. split; [done|]. cbn [trace]. by rewrite <-!app_assoc. }
  destruct Hcase as [->|Hzero]; [done|].
  rewrite slice_to_zero by done.
  unfold mbind, M_bind. rewrite chunked_nil. simpl.
  eexists. split; [done|]. by rewrite <-!app_assoc.
Qed.

End OrchestratorLaws.

(** X10, witness: the two Cafe pages in one chunk, a budget of one. *)
Lemma scrapeUrlChunk_returns_every_record_witness :
  let env := Orchestrator.sample_env (Returned []) in
  Orchestrator.seenBusinesses Orchestrator.sample_start = ∅ ∧
  (0 < of_nat 1)%Q ∧
  Orchestrator.context_open env 0 = None ∧
  Orchestrator.context_close env 0 = None ∧
  ∃ w',
    Orchestrator.scrapeUrlChunk env 1 ["u1"; "u4"; "u2"] 0 (of_nat 1)
      Orchestrator.sample_start
    = Some (w', Returned (omap (Orchestrator.page_record env)
                               ["u1"; "u4"; "u2"])) ∧
    Orchestrator.seenBusinesses w' = ∅ ∧
    Orchestrator.pool w' = Orchestrator.pool Orchestrator.sample_start.
Proof.
  split; [reflexivity|]. split; [reflexivity|]. split; [reflexivity|].
  split; [reflexivity|].
  apply (OrchestratorLaws.scrapeUrlChunk_returns_every_record
           (Orchestrator.sample_env (Returned [])) 1 ["u1"; "u4"; "u2"] 0
           (of_nat 1) Orchestrator.sample_start); reflexivity.
Defined.

(** X13, witness: the sample run of five URLs with a cap of two. *)
Lemma scrapeGoogleMaps_result_witness :
  let urls := ["u1"; "u2"; "u3"; "u4"; "u5"] in
  let env := Orchestrator.sample_env (Returned urls) in
  let p' := {| Pool.maxSize := 3; Pool.browsers := [1];
               Pool.available := [] |} in
  let records := omap (Orchestrator.page_record env) (take (2 * 2) urls) in
  Pool.acquire 0 (Orchestrator.isConnected env) (Orchestrator.launch env)
               (Orchestrator.pool Orchestrator.sample_start)
    = Some (Pool.Created 1, p') ∧
  Orchestrator.collected env 1 "cafe" (of_nat 2 * 2) = Returned urls ∧
  (∀ i, Orchestrator.context_open env i = None) ∧
  (∀ i, Orchestrator.context_close env i = None) ∧
  ∃ w' R,
    Orchestrator.scrapeGoogleMaps 0 env "cafe" (of_nat 2) 2
      Orchestrator.sample_start
    = Some (w', Returned R) ∧
    R = take 2 (Orchestrator.first_by_key ∅ records) ∧
    R `sublist_of` records ∧
    (length R < 2 →
     ∀ i b, records !! i = Some b →
       (∀ j b', j < i → records !! j = Some b' → dedupKey b' ≠ dedupKey b) →
       b ∈ R).
Proof.
  split; [reflexivity|]. split; [reflexivity|].
  split; [done|]. split; [done|].
  apply (OrchestratorLaws.scrapeGoogleMaps_result 0
           (Orchestrator.sample_env (Returned ["u1"; "u2"; "u3"; "u4"; "u5"]))
           "cafe" 2 2 Orchestrator.sample_start (Pool.Created 1)
           {| Pool.maxSize := 3; Pool.browsers := [1];
              Pool.available := [] |}
           ["u1"; "u2"; "u3"; "u4"; "u5"]); done.
Defined.

(** X14, witness: the discovery finds nothing. *)
Lemma scrapeGoogleMaps_nothing_to_scrape_witness :
  let env := Orchestrator.sample_env (Returned []) in
  let p' := {| Pool.maxSize := 3; Pool.browsers := [1];
               Pool.available := [] |} in
  Pool.acquire 0 (Orchestrator.isConnected env) (Orchestrator.launch env)
               (Orchestrator.pool Orchestrator.sample_start)
    = Some (Pool.Created 1, p') ∧
  Orchestrator.collected env 1 "nowhere" (of_nat 7 * 2) = Returned [] ∧
  (@nil string = [] ∨ (of_nat 7 == 0)%Q) ∧
  ∃ w',
    Orchestrator.scrapeGoogleMaps 0 env "nowhere" (of_nat 7) 3
      Orchestrator.sample_start
    = Some (w', Returned []) ∧
    Orchestrator.trace w'
    = Orchestrator.trace Orchestrator.sample_start
      ++ [Orchestrator.PoolAcquire 1; Orchestrator.CollectUrls 1;
          Orchestrator.PoolRelease 1].
Proof.
  split; [reflexivity|]. split; [reflexivity|]. split; [by left|].
  apply (OrchestratorLaws.scrapeGoogleMaps_nothing_to_scrape 0
           (Orchestrator.sample_env (Returned [])) "nowhere" (of_nat 7) 3
           Orchestrator.sample_start (Pool.Created 1)
           {| Pool.maxSize := 3; Pool.browsers := [1];
              Pool.available := [] |} []); [reflexivity|reflexivity|by left].
Defined.


(** ** collectListingUrls: the scroll loop and the URL list *)

Module DiscovererLaws.
Import Discoverer.

(** The loop, entered before scroll [k] with the state it has there. *)
Lemma scroll_loop_exit obs maxUrls : ∀ fuel k previousCount stableCount n,
  scroll_loop fuel obs maxUrls k previousCount stableCount
    = Some (Returned n) →
  previousCount = count_before (count obs) k →
  stableCount ≤ 3 → stableCount ≤ k →
  (∀ j, k - stableCount ≤ j < k → count obs j = count_before (count obs) j) →
  (∀ j, j < k → count obs j < ceiling maxUrls) →
  (∀ j, j < k → scroll_fails obs j = None) →
  (∀ j, j < n → scroll_fails obs j = None) ∧
  (∀ j, S j < n → count obs j < ceiling maxUrls) ∧
  ((1 ≤ n ∧ ceiling maxUrls ≤ count obs (n - 1)) ∨
   (3 ≤ n ∧ count obs (n - 1) < ceiling maxUrls ∧
    ∀ j, n - 3 ≤ j < n → count obs j = count_before (count obs) j)).
Proof.
  induction fuel as [|fuel IH];
    intros k previousCount stableCount n; cbn [scroll_loop];
    destruct (stableCount <? 3) eqn:Hst.
  - done.
  - apply Nat.ltb_ge in Hst. intros [= <-] _ Hle3 Hlek Hwin Hlow Hok.
    assert (stableCount = 3) as -> by lia.
    split; [done|].
    split; [intros j Hj; apply Hlow; lia|]. right.
    split; [done|]. split; [apply Hlow; lia|done].
  - apply Nat.ltb_lt in Hst.
    destruct (wheel_fails obs k) as [e|] eqn:Hwheel; [done|].
    destruct (count_fails obs k) as [e|] eqn:Hcount; [done|].
    assert (Hk : scroll_fails obs k = None)
      by (unfold scroll_fails; by rewrite Hwheel).
    assert (Hok' : (∀ j, j < k → scroll_fails obs j = None) →
                   ∀ j, j < S k → scroll_fails obs j = None).
    { intros Hok j Hj. destruct (decide (j = k)) as [->|Hne]; [done|].
      apply Hok. lia. }
    rewrite at_least_ceiling.
    destruct (ceiling maxUrls <=? count obs k) eqn:Hmax.
    { apply Nat.leb_le in Hmax. intros [= <-] _ _ _ _ Hlow Hok.
      split; [auto|].
      split; [intros j Hj; apply Hlow; lia|]. left.
      split; [lia|]. by replace (S k - 1) with k by lia. }
    apply Nat.leb_gt in Hmax.
    destruct (count obs k =? previousCount) eqn:Heq.
    + apply Nat.eqb_eq in Heq. intros Hrun Hprev Hle3 Hlek Hwin Hlow Hok.
      apply (IH _ _ _ _ Hrun); [done|lia|lia| | |auto].
      * intros j Hj. destruct (decide (j = k)) as [->|Hne].
        -- by rewrite Heq.
        -- apply Hwin. lia.
      * intros j Hj. destruct (decide (j = k)) as [->|Hne]; [done|].
        apply Hlow. lia.
    + intros Hrun Hprev Hle3 Hlek Hwin Hlow Hok.
      apply (IH _ _ _ _ Hrun); [done|lia|lia| | |auto].
      * intros j Hj. lia.
      * intros j Hj. destruct (decide (j = k)) as [->|Hne]; [done|].
        apply Hlow. lia.
  - apply Nat.ltb_ge in Hst. intros [= <-] _ Hle3 Hlek Hwin Hlow Hok.
    assert (stableCount = 3) as -> by lia.
    split; [done|].
    split; [intros j Hj; apply Hlow; lia|]. right.
    split; [done|]. split; [apply Hlow; lia|done].
Qed.

(** X16. When the scroll loop stops after [n] scrolls, none of its
    awaited calls has failed, the count never reached [maxUrls] before
    the last scroll, and either the last count has reached [maxUrls],
    or the last three scrolls each left the count as it was before the
    scroll (the first one being compared with 0). *)
Theorem scroll_loop_stops_at_target_or_stable fuel obs maxUrls n :
  scroll_loop fuel obs maxUrls 0 0 0 = Some (Returned n) →
  (∀ j, j < n → wheel_fails obs j = None ∧ count_fails obs j = None) ∧
  (∀ j, S j < n → (of_nat (count obs j) < maxUrls)%Q) ∧
  ((1 ≤ n ∧ (maxUrls <= of_nat (count obs (n - 1)))%Q) ∨
   (3 ≤ n ∧ (of_nat (count obs (n - 1)) < maxUrls)%Q ∧
    ∀ j, n - 3 ≤ j < n → count obs j = count_before (count obs) j)).
Proof.
  intros Hrun.
  destruct (scroll_loop_exit obs maxUrls fuel 0 0 0 n Hrun)
    as (Hok & Hlow & Hend);
    [done|lia|lia|intros j Hj; lia|intros j Hj; lia|intros j Hj; lia|].
  split; [|split].
  - intros j Hj. specialize (Hok j Hj). unfold scroll_fails in Hok.
    by destruct (wheel_fails obs j).
  - intros j Hj. by apply ceiling_lt, Hlow.
  - destruct Hend as [(Hn & Hmax)|(Hn & Hmax & Hstable)].
    + left. split; [done|]. by apply ceiling_le.
    + right. split; [done|]. split; [by apply ceiling_lt|done].
Qed.

(** The loop comes back when the counts never go down and stay below a
    bound: every scroll either fails, or stalls, and three stalls end
    the loop, or raises the count. *)
Lemma scroll_loop_ends obs maxUrls bound :
  (∀ j, count obs j ≤ count obs (S j)) → (∀ j, count obs j ≤ bound) →
  ∀ fuel k previousCount stableCount,
    previousCount = count_before (count obs) k →
    stableCount ≤ 3 →
    3 * (bound - previousCount) + (3 - stableCount) ≤ fuel →
    ∃ r, scroll_loop fuel obs maxUrls k previousCount stableCount = Some r ∧
         match r with
         | Returned n =>
             n ≤ k + (3 * (bound - previousCount) + (3 - stableCount))
         | Thrown e =>
             ∃ j, k ≤ j < k + (3 * (bound - previousCount) + (3 - stableCount))
                  ∧ scroll_fails obs j = Some e
         end.
Proof.
  intros Hmono Hbound.
  induction fuel as [|fuel IH]; intros k previousCount stableCount Hprev
    Hle3 Hfuel; cbn [scroll_loop]; destruct (stableCount <? 3) eqn:Hst.
  - apply Nat.ltb_lt in Hst. lia.
  - exists (Returned k). split; [done|lia].
  - apply Nat.ltb_lt in Hst.
    destruct (wheel_fails obs k) as [e|] eqn:Hwheel.
    { exists (Thrown e). split; [done|]. exists k. split; [lia|].
      unfold scroll_fails. by rewrite Hwheel. }
    destruct (count_fails obs k) as [e|] eqn:Hcount.
    { exists (Thrown e). split; [done|]. exists k. split; [lia|].
      unfold scroll_fails. by rewrite Hwheel. }
    destruct (at_least (count obs k) maxUrls);
      [exists (Returned (S k)); split; [done|lia]|].
    assert (Hup : previousCount ≤ count obs k).
    { rewrite Hprev. destruct k as [|k]; simpl; [lia|apply Hmono]. }
    pose proof (Hbound k) as Hk.
    destruct (count obs k =? previousCount) eqn:Heq.
    + apply Nat.eqb_eq in Heq.
      destruct (IH (S k) previousCount (S stableCount)) as (r & -> & Hr);
        [by rewrite <-Heq|lia|lia|].
      exists r. split; [done|]. destruct r as [n|e]; [lia|].
      destruct Hr as (j & Hj & Hfail). exists j. split; [lia|done].
    + apply Nat.eqb_neq in Heq.
      destruct (IH (S k) (count obs k) 0) as (r & -> & Hr); [done|lia|lia|].
      exists r. split; [done|]. destruct r as [n|e]; [lia|].
      destruct Hr as (j & Hj & Hfail). exists j. split; [lia|done].
  - exists (Returned k). split; [done|lia].
Qed.

(** X17. If the number of listing links never goes down from one scroll
    to the next and never exceeds [bound], the scroll loop comes back
    within [3 * bound + 3] scrolls: it stops after at most that many, or
    one of the awaited calls of such a scroll has failed and the loop
    throws its error. When no awaited call fails, it stops. *)
Theorem scroll_loop_terminates obs maxUrls bound fuel :
  (∀ j, count obs j ≤ count obs (S j)) → (∀ j, count obs j ≤ bound) →
  3 * bound + 3 ≤ fuel →
  ∃ r, scroll_loop fuel obs maxUrls 0 0 0 = Some r ∧
       match r with
       | Returned n => n ≤ 3 * bound + 3
       | Thrown e =>
           ∃ j, j < 3 * bound + 3 ∧
                (wheel_fails obs j = Some e ∨
                 (wheel_fails obs j = None ∧ count_fails obs j = Some e))
       end ∧
       ((∀ j, wheel_fails obs j = None ∧ count_fails obs j = None) →
        ∃ n, r = Returned n ∧ n ≤ 3 * bound + 3).
Proof.
  intros Hmono Hbound Hfuel.
  destruct (scroll_loop_ends obs maxUrls bound Hmono Hbound fuel 0 0 0)
    as (r & Hrun & Hr); [done|lia|lia|].
  exists r. split; [done|].
  assert (Hfail : ∀ e j, scroll_fails obs j = Some e →
            wheel_fails obs j = Some e ∨
            (wheel_fails obs j = None ∧ count_fails obs j = Some e)).
  { intros e j. unfold scroll_fails.
    destruct (wheel_fails obs j); [intros [= ->]; by left|by right]. }
  split.
  - destruct r as [n|e]; [lia|]. destruct Hr as (j & Hj & Hj').
    exists j. split; [lia|by apply Hfail].
  - intros Hok. destruct r as [n|e]; [exists n; split; [done|lia]|].
    destruct Hr as (j & _ & Hj'). apply Hfail in Hj'.
    destruct (Hok j) as (Hw & Hc). destruct Hj' as [?|[_ ?]]; congruence.
Qed.

(** The spread of a set built from a list. *)
Lemma set_spread_spec urls : ∀ seen,
  NoDup (set_spread seen urls) ∧
  (∀ u, u ∈ set_spread seen urls ↔ u ∈ urls ∧ u ∉ seen) ∧
  set_spread seen urls `sublist_of` urls.
Proof.
  induction urls as [|url rest IH]; intros seen; simpl.
  - split; [apply NoDup_nil_2|]. split; [|constructor].
    intros u. split; [by intros ?%elem_of_nil|by intros [?%elem_of_nil _]].
  - destruct (decide (url ∈ seen)) as [Hin|Hnew].
    + destruct (IH seen) as (Hnd & Hel & Hsub).
      split; [done|]. split; [|by apply sublist_cons].
      intros u. rewrite Hel, elem_of_cons. split; [intros [? ?]; auto|].
      intros [[->|?] ?]; done.
    + destruct (IH ({[url]} ∪ seen)) as (Hnd & Hel & Hsub).
      split; [|split; [|by apply sublist_skip]].
      * apply NoDup_cons. split; [|done]. rewrite Hel.
        intros [_ Hout]. apply Hout, elem_of_union_l. by apply elem_of_singleton.
      * intros u. rewrite !elem_of_cons, Hel. split.
        -- intros [->|[Hu Hout]]; [auto|]. split; [auto|].
           intros Hs. apply Hout. by apply elem_of_union_r.
        -- intros [[->|Hu] Hout]; [by left|].
           destruct (decide (u = url)) as [->|Hne]; [by left|]. right.
           split; [done|].
           intros [Hs%elem_of_singleton|Hs]%elem_of_union; done.
Qed.

(** The spread keeps the order of the first occurrences: of two URLs of
    the result, the one that comes first occurs in the list before any
    occurrence of the other. *)
Lemma set_spread_order urls : ∀ seen i j u v,
  i < j →
  set_spread seen urls !! i = Some u → set_spread seen urls !! j = Some v →
  ∃ k, urls !! k = Some u ∧ ∀ k', k' ≤ k → urls !! k' ≠ Some v.
Proof.
  induction urls as [|url rest IH]; intros seen i j u v Hij; simpl; [done|].
  assert (Hnew : ∀ seen' n, set_spread seen' rest !! n = Some v →
                            url ∈ seen' → v ≠ url).
  { intros seen' n Hn Hin ->.
    apply list_elem_of_lookup_2 in Hn.
    destruct (set_spread_spec rest seen') as (_ & Hel & _).
    apply Hel in Hn as [_ Hout]. done. }
  destruct (decide (url ∈ seen)) as [Hin|Hout].
  - intros Hu Hv. destruct (IH seen i j u v Hij Hu Hv) as (k & Hk & Hbefore).
    exists (S k). split; [done|].
    intros [|k'] Hk'; simpl.
    + intros [= ->]. by eapply Hnew.
    + apply Hbefore. lia.
  - destruct j as [|j]; [lia|]. simpl. intros Hu Hv.
    assert (Hv' : v ≠ url).
    { eapply Hnew; [done|]. apply elem_of_union_l. by apply elem_of_singleton. }
    destruct i as [|i]; simpl in Hu.
    + injection Hu as <-. exists 0. split; [done|].
      intros k' Hk'. assert (k' = 0) as -> by lia. simpl. congruence.
    + destruct (IH _ i j u v ltac:(lia) Hu Hv) as (k & Hk & Hbefore).
      exists (S k). split; [done|].
      intros [|k'] Hk'; simpl; [congruence|]. apply Hbefore. lia.
Qed.

(** X18. What [collectListingUrls] returns, when it returns, has no
    URL twice and holds exactly the place links that were on the page
    when the scrolling stopped, in the order of their first appearance;
    it is the empty list, not an error, when no listing shows up in
    time. Nothing cuts the list down to [maxUrls], and the context has
    been closed. *)
Theorem collectListingUrls_returns_distinct_links fuel obs maxUrls urls ctx :
  collectListingUrls fuel obs maxUrls = Some (Returned urls, ctx) →
  ctx = Closed ∧
  goto_fails obs = None ∧ close_fails obs = None ∧ NoDup urls ∧
  (first_listing obs = false → urls = []) ∧
  (first_listing obs = true →
   ∃ scrolls,
     scroll_loop fuel obs maxUrls 0 0 0 = Some (Returned scrolls) ∧
     (∀ u, u ∈ urls ↔ u ∈ hrefs obs scrolls) ∧
     urls `sublist_of` hrefs obs scrolls ∧
     ∀ i j u v, i < j → urls !! i = Some u → urls !! j = Some v →
       ∃ k, hrefs obs scrolls !! k = Some u ∧
            ∀ k', k' ≤ k → hrefs obs scrolls !! k' ≠ Some v).
Proof.
  unfold collectListingUrls, collect_block.
  destruct (context_fails obs); [done|]. destruct (page_fails obs); [done|].
  destruct (goto_fails obs) as [e|].
  { by destruct (close_fails obs). }
  destruct (render_wait_fails obs) as [e|].
  { by destruct (close_fails obs). }
  destruct (first_listing obs).
  - simpl.
    destruct (scroll_loop fuel obs maxUrls 0 0 0) as [[scrolls|e]|];
      [|by destruct (close_fails obs)|done].
    destruct (eval_fails obs scrolls); [by destruct (close_fails obs)|].
    destruct (close_fails obs); [done|]. intros [= <- <-].
    destruct (set_spread_spec (hrefs obs scrolls) ∅) as (Hnd & Hel & Hsub).
    split; [done|]. split; [done|]. split; [done|]. split; [done|].
    split; [done|].
    intros _. exists scrolls. split; [done|]. split; [|split; [done|]].
    + intros u. rewrite Hel. split; [by intros [? _]|].
      intros Hu. split; [done|apply not_elem_of_empty].
    + apply set_spread_order.
  - simpl. destruct (close_fails obs); [done|]. intros [= <- <-].
    split; [done|]. split; [done|]. split; [done|].
    split; [apply NoDup_nil_2|]. split; done.
Qed.


End DiscovererLaws.

(** X16, witness: the count stalls at 9 for three scrolls. *)
Lemma scroll_loop_stops_at_target_or_stable_witness :
  let obs := Discoverer.sample_search in
  Discoverer.scroll_loop 10 obs (of_nat 40) 0 0 0 = Some (Returned 5) ∧
  (∀ j, j < 5 → Discoverer.wheel_fails obs j = None ∧
                Discoverer.count_fails obs j = None) ∧
  (∀ j, S j < 5 → (of_nat (Discoverer.count obs j) < of_nat 40)%Q) ∧
  ((1 ≤ 5 ∧ (of_nat 40 <= of_nat (Discoverer.count obs (5 - 1)))%Q) ∨
   (3 ≤ 5 ∧ (of_nat (Discoverer.count obs (5 - 1)) < of_nat 40)%Q ∧
    ∀ j, 5 - 3 ≤ j < 5 →
         Discoverer.count obs j
         = Discoverer.count_before (Discoverer.count obs) j)).
Proof.
  split; [reflexivity|].
  apply (DiscovererLaws.scroll_loop_stops_at_target_or_stable 10
           Discoverer.sample_search (of_nat 40) 5).
  reflexivity.
Defined.

(** X17, witness: a page that shows the same seven links after every
    scroll. *)
Lemma scroll_loop_terminates_witness :
  let obs :=
    {| Discoverer.context_fails := None; Discoverer.page_fails := None;
       Discoverer.goto_fails := None; Discoverer.render_wait_fails := None;
       Discoverer.first_listing := true;
       Discoverer.wheel_fails := λ _, None;
       Discoverer.count_fails := λ _, None;
       Discoverer.count := λ _, 7; Discoverer.eval_fails := λ _, None;
       Discoverer.hrefs := λ _, []; Discoverer.close_fails := None |} in
  (∀ j, Discoverer.count obs j ≤ Discoverer.count obs (S j)) ∧
  (∀ j, Discoverer.count obs j ≤ 7) ∧
  3 * 7 + 3 ≤ 24 ∧
  ∃ r, Discoverer.scroll_loop 24 obs (of_nat 40) 0 0 0 = Some r ∧
       match r with
       | Returned n => n ≤ 3 * 7 + 3
       | Thrown e =>
           ∃ j, j < 3 * 7 + 3 ∧
                (Discoverer.wheel_fails obs j = Some e ∨
                 (Discoverer.wheel_fails obs j = None ∧
                  Discoverer.count_fails obs j = Some e))
       end ∧
       ((∀ j, Discoverer.wheel_fails obs j = None ∧
              Discoverer.count_fails obs j = None) →
        ∃ n, r = Returned n ∧ n ≤ 3 * 7 + 3).
Proof.
  split; [intros j; simpl; lia|]. split; [intros j; simpl; lia|].
  split; [lia|].
  apply (DiscovererLaws.scroll_loop_terminates
           {| Discoverer.context_fails := None; Discoverer.page_fails := None;
              Discoverer.goto_fails := None;
              Discoverer.render_wait_fails := None;
              Discoverer.first_listing := true;
              Discoverer.wheel_fails := λ _, None;
              Discoverer.count_fails := λ _, None;
              Discoverer.count := λ _, 7; Discoverer.eval_fails := λ _, None;
              Discoverer.hrefs := λ _, []; Discoverer.close_fails := None |}
           (of_nat 40) 7 24);
    [intros j; simpl; lia|intros j; simpl; lia|lia].
Defined.

(** X18, witness: five links to three places, found after five scrolls. *)
Lemma collectListingUrls_returns_distinct_links_witness :
  let obs := Discoverer.sample_search in
  Discoverer.collectListingUrls 10 obs (of_nat 40)
    = Some (Returned ["a"; "b"; "c"], Discoverer.Closed) ∧
  Discoverer.Closed = Discoverer.Closed ∧
  Discoverer.goto_fails obs = None ∧
  Discoverer.close_fails obs = None ∧
  NoDup ["a"; "b"; "c"] ∧
  (Discoverer.first_listing obs = false → ["a"; "b"; "c"] = []) ∧
  (Discoverer.first_listing obs = true →
   ∃ scrolls,
     Discoverer.scroll_loop 10 obs (of_nat 40) 0 0 0
       = Some (Returned scrolls) ∧
     (∀ u, u ∈ ["a"; "b"; "c"] ↔ u ∈ Discoverer.hrefs obs scrolls) ∧
     ["a"; "b"; "c"] `sublist_of` Discoverer.hrefs obs scrolls ∧
     ∀ i j u v, i < j →
       ["a"; "b"; "c"] !! i = Some u → ["a"; "b"; "c"] !! j = Some v →
       ∃ k, Discoverer.hrefs obs scrolls !! k = Some u ∧
            ∀ k', k' ≤ k → Discoverer.hrefs obs scrolls !! k' ≠ Some v).
Proof.
  split; [vm_compute; reflexivity|].
  apply (DiscovererLaws.collectListingUrls_returns_distinct_links 10
           Discoverer.sample_search (of_nat 40) ["a"; "b"; "c"]
           Discoverer.Closed).
  vm_compute; reflexivity.
Defined.


(** ** Request interception *)

Module InterceptionLaws.
Import Interception.

Lemma append_nil_l s : "" +:+ s = s.
Proof. done. Qed.

Lemma append_cons a s1 s2 : String a s1 +:+ s2 = String a (s1 +:+ s2).
Proof. done. Qed.

Lemma starts_with_spec needle : ∀ s,
  starts_with needle s = true ↔ ∃ after, s = needle +:+ after.
Proof.
  induction needle as [|a needle IH]; intros s.
  - split; [intros _; by exists s|done].
  - destruct s as [|b s]; simpl.
    + split; [done|]. by intros (after & ?).
    + destruct (decide (a = b)) as [->|Hne].
      * rewrite IH. split.
        -- intros (after & ->). by exists after.
        -- intros (after & Heq). rewrite append_cons in Heq.
           injection Heq as ->. by exists after.
      * split; [done|]. intros (after & Heq). rewrite append_cons in Heq.
        by injection Heq as <- _.
Qed.

(** [includes] finds exactly the strings that occur. *)
Lemma includes_spec needle : ∀ s,
  includes s needle = true ↔ occurs_in needle s.
Proof.
  unfold occurs_in. induction s as [|c s IH]; cbn [includes].
  - rewrite orb_false_r, starts_with_spec. split.
    + intros (after & ->). by exists "", after.
    + intros ([|? ?] & after & Heq); [by exists after|done].
  - rewrite orb_true_iff, starts_with_spec, IH. split.
    + intros [(after & ->)|(before & after & ->)].
      * by exists "", after.
      * by exists (String c before), after.
    + intros ([|c' before] & after & Heq).
      * left. by exists after.
      * right. rewrite append_cons in Heq. injection Heq as _ ->.
        by exists before, after.
Qed.

(** X20. The route handler aborts a request exactly when its resource
    type is image or media, or one of the five blocked host names
    occurs in its URL; every other request, fonts and style sheets
    among them, goes on. *)
Theorem route_aborts_blocked_requests resourceType url :
  route resourceType url = Abort ↔
  resourceType ∈ BLOCKED_RESOURCES ∨
  ∃ blocked, blocked ∈ BLOCKED_URLS ∧ occurs_in blocked url.
Proof.
  unfold route.
  destruct (bool_decide (resourceType ∈ BLOCKED_RESOURCES)) eqn:Htype.
  - apply bool_decide_eq_true in Htype. split; [by left|done].
  - apply bool_decide_eq_false in Htype.
    destruct (existsb (λ blocked, includes url blocked) BLOCKED_URLS) eqn:Hurl.
    + split; [|done]. intros _. right.
      apply existsb_exists in Hurl as (blocked & Hin & Hinc).
      exists blocked. split; [by apply list_elem_of_In|by apply includes_spec].
    + split; [done|]. intros [?|(blocked & Hin & Hocc)]; [done|].
      assert (existsb (λ blocked, includes url blocked) BLOCKED_URLS = true);
        [|congruence].
      apply existsb_exists. exists blocked.
      split; [by apply list_elem_of_In|by apply includes_spec].
Qed.
End InterceptionLaws.

(** ** The server: slots, submissions, status *)

Module ServerLaws.
Import Server.

(** X21. In every state the server can reach, [activeJobs] is the
    number of runs that [POST /scrape] has in flight, and that number is
    at most [MAX_CONCURRENT_JOBS]. *)
Theorem scrape_slots_bounded cfg evs :
  activeJobs (exec cfg initial evs) = sync_running (exec cfg initial evs) ∧
  sync_running (exec cfg initial evs) ≤ MAX_CONCURRENT_JOBS cfg.
Proof.
  induction evs as [|ev evs (Hcount & Hmax)] using rev_ind.
  - unfold sync_running. simpl. split; [done|lia].
  - rewrite ServerFacts.exec_app.
    change (exec cfg (exec cfg initial evs) [ev])
      with (fst (step cfg (exec cfg initial evs) ev)).
    by apply ServerFacts.sync_admission_step.
Qed.

(** X22. In a reachable state, a [POST /scrape] with a query starts a
    run when fewer than [MAX_CONCURRENT_JOBS] of its runs are in flight,
    and is answered 429 at once, with the state unchanged, when that
    many are. *)
Theorem post_scrape_admits_below_limit cfg evs body :
  truthy (req_query body) = true →
  (sync_running (exec cfg initial evs) < MAX_CONCURRENT_JOBS cfg →
   snd (post_scrape cfg body (exec cfg initial evs)) = None ∧
   sync_running (fst (post_scrape cfg body (exec cfg initial evs)))
   = S (sync_running (exec cfg initial evs))) ∧
  (sync_running (exec cfg initial evs) = MAX_CONCURRENT_JOBS cfg →
   post_scrape cfg body (exec cfg initial evs)
   = (exec cfg initial evs,
      Some (TooManyRequests (MAX_CONCURRENT_JOBS cfg)
                            (MAX_CONCURRENT_JOBS cfg)))).
Proof.
  intros Hq. destruct (ServerFacts.sync_admission cfg evs) as (Hcount & _).
  set (s := exec cfg initial evs) in *. split.
  - intros Hroom. unfold post_scrape. rewrite Hq. cbn [negb].
    assert (Hcap : (MAX_CONCURRENT_JOBS cfg <=? activeJobs s) = false)
      by (apply Nat.leb_gt; lia).
    rewrite Hcap. split; [done|]. unfold sync_running. cbn [fst running].
    rewrite ServerFacts.sync_count_snoc. simpl. lia.
  - intros Hfull.
    rewrite ServerFacts.post_scrape_saturated by (done || lia).
    by rewrite Hcount, Hfull.
Qed.

(** X23. When a run of [POST /scrape] settles, by a return or by a
    throw, the handler answers with the results and their number, or
    with 500 and the message of the error, and gives its slot back:
    [activeJobs] goes down by one. *)
Theorem scrape_settled_frees_slot cfg evs i call outcome now :
  running (exec cfg initial evs) !! i = Some call →
  caller call = FromScrape →
  ∃ s',
    settled i outcome now (exec cfg initial evs)
    = (s', Some match outcome with
                | Returned rs => ScrapeOk (call_query call) (length rs) rs
                | Thrown e => ScrapeFailed e
                end) ∧
    S (activeJobs s') = activeJobs (exec cfg initial evs) ∧
    jobs s' = jobs (exec cfg initial evs) ∧
    running s' = delete i (running (exec cfg initial evs)).
Proof.
  intros Hi Hsync.
  destruct (ServerFacts.sync_admission cfg evs) as (Hcount & _).
  set (s := exec cfg initial evs) in *.
  unfold settled. rewrite Hi, Hsync. cbn [scrape_settled].
  eexists. split; [done|]. cbn [activeJobs jobs running].
  split; [|done].
  destruct (ServerFacts.running_middle _ _ _ Hi) as (Hsplit & _).
  unfold sync_running in Hcount.
  rewrite Hsplit, ServerFacts.sync_count_middle in Hcount.
  assert (Hs : is_sync call = true) by (unfold is_sync; by rewrite Hsync).
  rewrite Hs in Hcount. lia.
Qed.

(** X24. [POST /scrape/async] with a query is accepted in every state,
    whatever the number of runs in flight; it leaves [activeJobs] as it
    is, and a status request for the new identifier finds the job
    pending, with its query and creation time and nothing else. *)
Theorem async_submit_is_pending cfg body jobId now s :
  truthy (req_query body) = true →
  snd (post_scrape_async cfg body jobId now s) = Some (JobAccepted jobId) ∧
  activeJobs (fst (post_scrape_async cfg body jobId now s)) = activeJobs s ∧
  get_status jobId (fst (post_scrape_async cfg body jobId now s))
  = JobFound jobId {| status := pending; query := req_query body;
                      createdAt := Some now; results := None;
                      error := None; completedAt := None |}.
Proof.
  intros Hq. unfold post_scrape_async. rewrite Hq. cbn [negb fst snd].
  split; [done|]. split; [done|].
  unfold get_status. cbn [jobs]. by rewrite lookup_insert_eq.
Qed.

(** X25. When the run of an async job settles, a status request finds
    the job completed with the results of the run, or failed with the
    message of its error; its query and creation time are those of the
    submission, and the completion time is set. *)
Theorem async_settle_is_final cfg evs i call jobId outcome now :
  fresh_ids cfg initial evs →
  running (exec cfg initial evs) !! i = Some call →
  caller call = FromAsync jobId →
  ∃ j,
    jobs (exec cfg initial evs) !! jobId = Some j ∧ status j = pending ∧
    get_status jobId (fst (settled i outcome now (exec cfg initial evs)))
    = JobFound jobId
        match outcome with
        | Returned rs =>
            {| status := completed; query := query j;
               createdAt := createdAt j; results := Some rs;
               error := None; completedAt := Some now |}
        | Thrown e =>
            {| status := failed; query := query j;
               createdAt := createdAt j; results := None;
               error := Some e; completedAt := Some now |}
        end.
Proof.
  intros Hfresh Hi Hasync.
  destruct (ServerFacts.exec_consistent cfg evs initial
              ServerFacts.consistent_initial Hfresh) as (_ & Hrun & Hjobs).
  set (s := exec cfg initial evs) in *.
  destruct (Hrun jobId) as (j & Hj & Hp).
  { apply list_elem_of_omap. exists call.
    split; [by eapply list_elem_of_lookup_2|by rewrite Hasync]. }
  destruct (ServerFacts.job_ok_pending j (Hjobs _ _ Hj) Hp) as (Hres & Herr).
  exists j. split; [done|]. split; [done|].
  unfold settled. rewrite Hi, Hasync. unfold get_status.
  destruct outcome as [rs|e]; cbn [fst then_catch on_fulfilled on_rejected
    jobs]; rewrite lookup_insert_eq, Hj; cbn [spread default];
    unfold spread; simpl; by rewrite ?Hres, ?Herr.
Qed.

(** Every async run in flight has a stored job. *)
Lemma running_has_job_step cfg s ev :
  (∀ c jobId, c ∈ running s → caller c = FromAsync jobId →
              is_Some (jobs s !! jobId)) →
  ∀ c jobId, c ∈ running (fst (step cfg s ev)) →
             caller c = FromAsync jobId →
             is_Some (jobs (fst (step cfg s ev)) !! jobId).
Proof.
  intros Hinv. destruct ev as [body|body id now|i outcome now]; simpl.
  - unfold post_scrape. destruct (negb (truthy (req_query body))); [done|].
    destruct (MAX_CONCURRENT_JOBS cfg <=? activeJobs s); [done|].
    cbn [fst running jobs]. intros c jobId [Hc|Hc]%elem_of_app Hcaller.
    + by eapply Hinv.
    + apply list_elem_of_singleton in Hc as ->. done.
  - unfold post_scrape_async.
    destruct (negb (truthy (req_query body))); [done|].
    cbn [fst running jobs]. intros c jobId [Hc|Hc]%elem_of_app Hcaller.
    + apply lookup_insert_is_Some'. right. by eapply Hinv.
    + apply list_elem_of_singleton in Hc as ->. simpl in Hcaller.
      injection Hcaller as ->. apply lookup_insert_is_Some'. by left.
  - unfold settled. destruct (running s !! i) as [c0|] eqn:Hi; [|done].
    assert (Hsub : ∀ c, c ∈ delete i (running s) → c ∈ running s).
    { intros c. apply list_elem_of_delete_inv. }
    destruct (caller c0) as [|jobId0].
    + cbn [fst scrape_settled running jobs]. intros c jobId Hc.
      apply Hinv. by apply Hsub.
    + destruct outcome; cbn [fst then_catch on_fulfilled on_rejected running
        jobs]; intros c jobId Hc Hcaller; apply lookup_insert_is_Some';
        right; eapply Hinv; eauto.
Qed.

Lemma unknown_id_step cfg s ev id :
  (∀ c jobId, c ∈ running s → caller c = FromAsync jobId →
              is_Some (jobs s !! jobId)) →
  (∀ body now, ev ≠ PostScrapeAsync body id now) →
  jobs s !! id = None →
  jobs (fst (step cfg s ev)) !! id = None.
Proof.
  intros Hinv Hev Hnone.
  destruct ev as [body|body id' now|i outcome now]; simpl.
  - unfold post_scrape. destruct (negb (truthy (req_query body))); [done|].
    by destruct (MAX_CONCURRENT_JOBS cfg <=? activeJobs s).
  - unfold post_scrape_async.
    destruct (negb (truthy (req_query body))); [done|].
    cbn [fst jobs]. rewrite lookup_insert_ne; [done|].
    intros ->. by apply (Hev body now).
  - unfold settled. destruct (running s !! i) as [c0|] eqn:Hi; [|done].
    destruct (caller c0) as [|jobId0] eqn:Hc0; [done|].
    assert (Hne : jobId0 ≠ id).
    { intros ->. destruct (Hinv c0 id) as (j & Hj); [|done|congruence].
      by eapply list_elem_of_lookup_2. }
    destruct outcome; cbn [fst then_catch on_fulfilled on_rejected jobs];
      by rewrite lookup_insert_ne.
Qed.

(** X26. A status request for an identifier that no submission was
    given finds no job, in every state the server can reach. *)
Theorem unknown_job_not_found cfg evs id :
  (∀ body now, PostScrapeAsync body id now ∉ evs) →
  get_status id (exec cfg initial evs) = JobNotFound.
Proof.
  intros Hnever. unfold get_status.
  assert (Hgoal : jobs (exec cfg initial evs) !! id = None ∧
            ∀ c jobId, c ∈ running (exec cfg initial evs) →
                       caller c = FromAsync jobId →
                       is_Some (jobs (exec cfg initial evs) !! jobId)).
  { induction evs as [|ev evs IH] using rev_ind.
    - split; [apply lookup_empty|]. by intros c jobId ?%elem_of_nil.
    - rewrite ServerFacts.exec_app.
      destruct IH as (Hnone & Hinv).
      { intros body now Hin. apply (Hnever body now).
        apply elem_of_app. by left. }
      unfold exec at 1 3 5. cbn [foldl]. split.
      + apply unknown_id_step; [done| |done].
        intros body now ->. apply (Hnever body now).
        apply elem_of_app. right. apply list_elem_of_here.
      + by apply running_has_job_step. }
  destruct Hgoal as (-> & _). done.
Qed.
End ServerLaws.

(** X22, witness: one slot, taken by a first request. *)
Lemma post_scrape_admits_below_limit_witness :
  let cfg := Server.one_job_at_a_time in
  let s := Server.exec cfg Server.initial [Server.PostScrape (Server.ask "cafe")] in
  truthy (Server.req_query (Server.ask "bar")) = true ∧
  (Server.sync_running s < Server.MAX_CONCURRENT_JOBS cfg →
   snd (Server.post_scrape cfg (Server.ask "bar") s) = None ∧
   Server.sync_running (fst (Server.post_scrape cfg (Server.ask "bar") s))
   = S (Server.sync_running s)) ∧
  (Server.sync_running s = Server.MAX_CONCURRENT_JOBS cfg →
   Server.post_scrape cfg (Server.ask "bar") s
   = (s, Some (Server.TooManyRequests (Server.MAX_CONCURRENT_JOBS cfg)
                                      (Server.MAX_CONCURRENT_JOBS cfg)))).
Proof.
  split; [reflexivity|].
  apply (ServerLaws.post_scrape_admits_below_limit Server.one_job_at_a_time
           [Server.PostScrape (Server.ask "cafe")] (Server.ask "bar")).
  reflexivity.
Defined.

(** X23, witness: the run of the only request in flight throws. *)
Lemma scrape_settled_frees_slot_witness :
  let cfg := Server.one_job_at_a_time in
  let s := Server.exec cfg Server.initial [Server.PostScrape (Server.ask "cafe")] in
  let call := {| Server.caller := Server.FromScrape;
                 Server.call_query := "cafe";
                 Server.call_maxResults := 20;
                 Server.call_workers := 3 |} in
  Server.running s !! 0 = Some call ∧
  Server.caller call = Server.FromScrape ∧
  ∃ s',
    Server.settled 0 (Thrown "Timeout") "t9" s
    = (s', Some (Server.ScrapeFailed "Timeout")) ∧
    S (Server.activeJobs s') = Server.activeJobs s ∧
    Server.jobs s' = Server.jobs s ∧
    Server.running s' = delete 0 (Server.running s).
Proof.
  split; [reflexivity|]. split; [reflexivity|].
  apply (ServerLaws.scrape_settled_frees_slot Server.one_job_at_a_time
           [Server.PostScrape (Server.ask "cafe")] 0
           {| Server.caller := Server.FromScrape;
              Server.call_query := "cafe";
              Server.call_maxResults := 20;
              Server.call_workers := 3 |} (Thrown "Timeout") "t9");
    reflexivity.
Defined.

(** X24, witness: a submission while the only slot is taken. *)
Lemma async_submit_is_pending_witness :
  let cfg := Server.one_job_at_a_time in
  let s := Server.exec cfg Server.initial [Server.PostScrape (Server.ask "cafe")] in
  truthy (Server.req_query (Server.ask "bar")) = true ∧
  snd (Server.post_scrape_async cfg (Server.ask "bar") "job-1" "t1" s)
    = Some (Server.JobAccepted "job-1") ∧
  Server.activeJobs
    (fst (Server.post_scrape_async cfg (Server.ask "bar") "job-1" "t1" s))
    = Server.activeJobs s ∧
  Server.get_status "job-1"
    (fst (Server.post_scrape_async cfg (Server.ask "bar") "job-1" "t1" s))
  = Server.JobFound "job-1"
      {| Server.status := Server.pending;
         Server.query := Server.req_query (Server.ask "bar");
         Server.createdAt := Some "t1"; Server.results := None;
         Server.error := None; Server.completedAt := None |}.
Proof.
  split; [reflexivity|].
  apply (ServerLaws.async_submit_is_pending Server.one_job_at_a_time
           (Server.ask "bar") "job-1" "t1"
           (Server.exec Server.one_job_at_a_time Server.initial
              [Server.PostScrape (Server.ask "cafe")])).
  reflexivity.
Defined.

(** X25, witness: the run of job-1 throws. *)
Lemma async_settle_is_final_witness :
  let cfg := Server.one_job_at_a_time in
  let evs := [Server.PostScrapeAsync (Server.ask "cafe") "job-1" "t1"] in
  let call := {| Server.caller := Server.FromAsync "job-1";
                 Server.call_query := "cafe";
                 Server.call_maxResults := 20;
                 Server.call_workers := 3 |} in
  Server.fresh_ids cfg Server.initial evs ∧
  Server.running (Server.exec cfg Server.initial evs) !! 0 = Some call ∧
  Server.caller call = Server.FromAsync "job-1" ∧
  ∃ j,
    Server.jobs (Server.exec cfg Server.initial evs) !! "job-1" = Some j ∧
    Server.status j = Server.pending ∧
    Server.get_status "job-1"
      (fst (Server.settled 0 (Thrown "Timeout") "t2"
              (Server.exec cfg Server.initial evs)))
    = Server.JobFound "job-1"
        {| Server.status := Server.failed; Server.query := Server.query j;
           Server.createdAt := Server.createdAt j; Server.results := None;
           Server.error := Some "Timeout";
           Server.completedAt := Some "t2" |}.
Proof.
  assert (Hfresh : Server.fresh_ids Server.one_job_at_a_time Server.initial
            [Server.PostScrapeAsync (Server.ask "cafe") "job-1" "t1"]).
  { vm_compute. repeat split. }
  split; [exact Hfresh|]. split; [reflexivity|]. split; [reflexivity|].
  apply (ServerLaws.async_settle_is_final Server.one_job_at_a_time
           [Server.PostScrapeAsync (Server.ask "cafe") "job-1" "t1"] 0
           {| Server.caller := Server.FromAsync "job-1";
              Server.call_query := "cafe";
              Server.call_maxResults := 20;
              Server.call_workers := 3 |} "job-1" (Thrown "Timeout") "t2");
    [exact Hfresh|reflexivity|reflexivity].
Defined.

(** X26, witness: job-1 is known, job-9 is asked for. *)
Lemma unknown_job_not_found_witness :
  let cfg := Server.one_job_at_a_time in
  let evs := [Server.PostScrapeAsync (Server.ask "cafe") "job-1" "t1";
              Server.Settled 0 (Returned []) "t2"] in
  (∀ body now, Server.PostScrapeAsync body "job-9" now ∉ evs) ∧
  Server.get_status "job-9" (Server.exec cfg Server.initial evs)
  = Server.JobNotFound.
Proof.
  assert (Hnever : ∀ body now,
            Server.PostScrapeAsync body "job-9" now
            ∉ [Server.PostScrapeAsync (Server.ask "cafe") "job-1" "t1";
               Server.Settled 0 (Returned []) "t2"]).
  { intros body now [Heq|[Heq|Hin]%elem_of_cons]%elem_of_cons;
      [discriminate Heq|discriminate Heq|by apply elem_of_nil in Hin]. }
  split; [exact Hnever|].
  apply (ServerLaws.unknown_job_not_found Server.one_job_at_a_time
           [Server.PostScrapeAsync (Server.ask "cafe") "job-1" "t1";
            Server.Settled 0 (Returned []) "t2"] "job-9").
  exact Hnever.
Defined.

(** ** POST /scrape/bulk *)

Module BulkLaws.
Import Bulk.

Lemma collect_batch_app run l1 : ∀ i l2 acc,
  collect_batch run i (l1 ++ l2) acc
  = collect_batch run (i + length l1) l2 (collect_batch run i l1 acc).
Proof.
  induction l1 as [|q l1 IH]; intros i l2 acc; simpl.
  - by rewrite Nat.add_0_r.
  - rewrite IH. f_equal. lia.
Qed.

(** The batches change nothing in what is reported: the loop reports
    the queries from position [i] on, one after the other. *)
Lemma bulk_loop_all run queries : ∀ fuel i acc,
  length queries - i ≤ fuel →
  bulk_loop fuel run queries i acc
  = Some (collect_batch run i (drop i queries) acc).
Proof.
  induction fuel as [|fuel IH]; intros i acc Hfuel; cbn [bulk_loop];
    destruct (i <? length queries) eqn:Hi.
  - apply Nat.ltb_lt in Hi. lia.
  - apply Nat.ltb_ge in Hi. by rewrite drop_ge.
  - apply Nat.ltb_lt in Hi. rewrite IH by (unfold batchSize; lia).
    f_equal. unfold slice, batchSize.
    replace (i + 3 - i) with 3 by lia.
    rewrite <-(take_drop 3 (drop i queries)) at 2.
    rewrite collect_batch_app, drop_drop.
    destruct (decide (i + 3 ≤ length queries)) as [Hfull|Hshort].
    + by rewrite length_take_le by (rewrite length_drop; lia).
    + rewrite (drop_ge queries (i + 3)) by lia. done.
  - apply Nat.ltb_ge in Hi. by rewrite drop_ge.
Qed.

Lemma assign_lookup_ne {V : Type} (key q : string) (value : V) object :
  q ≠ key → assign key value object !! q = object !! q.
Proof.
  intros Hne. unfold assign. destruct (decide (key = "__proto__")); [done|].
  by rewrite lookup_insert_ne.
Qed.

Lemma assign_lookup_eq {V : Type} (key : string) (value : V) object :
  key ≠ "__proto__" → assign key value object !! key = Some value.
Proof.
  intros Hne. unfold assign. destruct (decide (key = "__proto__")); [done|].
  by rewrite lookup_insert_eq.
Qed.

Lemma assign_proto {V : Type} (value : V) object :
  assign "__proto__" value object = object.
Proof. done. Qed.

(** What is reported for a query that stands once in the list. *)
Lemma collect_batch_lookup run : ∀ l i acc q,
  NoDup l →
  (q ∉ l →
   fst (collect_batch run i l acc) !! q = fst acc !! q ∧
   snd (collect_batch run i l acc) !! q = snd acc !! q) ∧
  (∀ k, l !! k = Some q → q ≠ "__proto__" →
     match run (i + k) q with
     | Returned rs =>
         fst (collect_batch run i l acc) !! q = Some rs ∧
         snd (collect_batch run i l acc) !! q = snd acc !! q
     | Thrown e =>
         snd (collect_batch run i l acc) !! q = Some (reason e) ∧
         fst (collect_batch run i l acc) !! q = fst acc !! q
     end).
Proof.
  induction l as [|q0 l IH]; intros i acc q Hnd.
  - split; [done|]. intros k Hk. by rewrite lookup_nil in Hk.
  - apply NoDup_cons in Hnd as (Hq0 & Hnd). cbn [collect_batch].
    match goal with
    | |- context [collect_batch run (S i) l ?a] => set (acc' := a)
    end.
    destruct (IH (S i) acc' q Hnd) as (Hout & Hin).
    assert (Hother : q ≠ q0 →
              fst acc' !! q = fst acc !! q ∧ snd acc' !! q = snd acc !! q).
    { intros Hne. unfold acc'. destruct (run i q0); simpl;
        by rewrite assign_lookup_ne. }
    split.
    + intros Hq. apply not_elem_of_cons in Hq as (Hne & Hq).
      destruct (Hout Hq) as (-> & ->). by apply Hother.
    + intros [|k] Hk Hkey; simpl in Hk.
      * injection Hk as ->. rewrite Nat.add_0_r.
        destruct (Hout Hq0) as (-> & ->). unfold acc'.
        destruct (run i q) as [rs|e]; simpl; by rewrite assign_lookup_eq.
      * assert (Hne : q ≠ q0).
        { intros ->. apply Hq0. by eapply list_elem_of_lookup_2. }
        specialize (Hin k Hk Hkey). replace (i + S k) with (S i + k) by lia.
        destruct (Hother Hne) as (Hf & Hs).
        destruct (run (S i + k) q); by rewrite <-?Hf, <-?Hs.
Qed.

(** Nothing is ever stored under the key ["__proto__"]. *)
Lemma collect_batch_proto run : ∀ l i acc,
  fst (collect_batch run i l acc) !! "__proto__" = fst acc !! "__proto__" ∧
  snd (collect_batch run i l acc) !! "__proto__" = snd acc !! "__proto__".
Proof.
  induction l as [|q0 l IH]; intros i acc; [done|]. cbn [collect_batch].
  match goal with
  | |- context [collect_batch run (S i) l ?a] => set (acc' := a)
  end.
  destruct (IH (S i) acc') as (-> & ->). unfold acc'.
  destruct (decide (q0 = "__proto__")) as [->|Hne].
  - destruct (run i "__proto__"); simpl; by rewrite assign_proto.
  - destruct (run i q0); simpl; by rewrite assign_lookup_ne.
Qed.

Lemma reportable_all l : "__proto__" ∉ l → reportable l = l.
Proof.
  induction l as [|q l IH]; [done|].
  intros [Hq Hl]%not_elem_of_cons. unfold reportable. rewrite filter_cons.
  fold (reportable l). rewrite IH by done.
  destruct (decide (q ≠ "__proto__")) as [_|Hkey]; [done|].
  destruct Hkey. by intros ->.
Qed.

Lemma reportable_one l :
  NoDup l → "__proto__" ∈ l → S (length (reportable l)) = length l.
Proof.
  induction l as [|q l IH]; [by intros _ ?%elem_of_nil|].
  intros [Hq Hnd]%NoDup_cons Hin. unfold reportable. rewrite filter_cons.
  fold (reportable l).
  destruct (decide (q ≠ "__proto__")) as [Hkey|Hkey].
  - apply elem_of_cons in Hin as [Heq|Hin]; [by destruct Hkey|].
    simpl. by rewrite IH.
  - assert (q = "__proto__") as -> by by destruct (decide (q = "__proto__")).
    rewrite reportable_all by done. done.
Qed.

(** Every reportable query that stands once adds one entry to one of the
    two objects. *)
Lemma collect_batch_size run : ∀ l i acc,
  NoDup l →
  (∀ q, q ∈ l → fst acc !! q = None ∧ snd acc !! q = None) →
  size (fst (collect_batch run i l acc)) + size (snd (collect_batch run i l acc))
  = size (fst acc) + size (snd acc) + length (reportable l).
Proof.
  induction l as [|q0 l IH]; intros i acc Hnd Hnew; simpl; [lia|].
  apply NoDup_cons in Hnd as (Hq0 & Hnd).
  destruct (Hnew q0) as (Hf0 & Hs0); [apply list_elem_of_here|].
  unfold reportable. rewrite filter_cons. fold (reportable l).
  rewrite IH; [| done |].
  - unfold assign.
    destruct (decide (q0 ≠ "__proto__")) as [Hkey|Hkey];
      destruct (decide (q0 = "__proto__")); try done;
      destruct (run i q0); simpl;
      rewrite ?map_size_insert_None by done; lia.
  - intros q Hq. destruct (Hnew q) as (Hf & Hs);
      [by apply list_elem_of_further|].
    assert (q ≠ q0) by (intros ->; done).
    destruct (run i q0); simpl; by rewrite ?assign_lookup_ne.
Qed.

(** X27. For a list of one to twenty queries without repetition, the
    bulk handler answers with every query other than ["__proto__"]
    reported exactly once, under its own name: with the results of its
    run if the run returned, with the message of its error if the run
    threw. The query ["__proto__"] is reported in neither object,
    whatever its run did. The number of successful queries and the
    number of errors add up to the number of queries other than
    ["__proto__"], and [errors] is left out when there is none. *)
Theorem bulk_reports_every_query fuel run body queries :
  req_queries body = Some queries →
  queries ≠ [] → length queries ≤ 20 → NoDup queries →
  length queries ≤ fuel →
  ∃ results errors,
    post_scrape_bulk fuel run body
    = Some (Done (length queries) (size results) results
                 (if 0 <? size errors then Some errors else None)) ∧
    size results + size errors = length (reportable queries) ∧
    ("__proto__" ∉ queries → size results + size errors = length queries) ∧
    ("__proto__" ∈ queries →
     S (size results + size errors) = length queries) ∧
    results !! "__proto__" = None ∧ errors !! "__proto__" = None ∧
    ∀ k q, queries !! k = Some q → q ≠ "__proto__" →
      match run k q with
      | Returned rs => results !! q = Some rs ∧ errors !! q = None
      | Thrown e => errors !! q = Some (reason e) ∧ results !! q = None
      end.
Proof.
  intros Hbody Hne Hmax Hnd Hfuel. unfold post_scrape_bulk. rewrite Hbody.
  destruct queries as [|q0 queries]; [done|].
  assert (Hcap : (20 <? length (q0 :: queries)) = false)
    by (apply Nat.ltb_ge; lia).
  rewrite Hcap, bulk_loop_all by lia. rewrite drop_0.
  destruct (collect_batch run 0 (q0 :: queries) (∅, ∅)) as [results errors]
    eqn:Hrep.
  exists results, errors. split; [done|].
  assert (Hsize : size results + size errors
                  = length (reportable (q0 :: queries))).
  { pose proof (collect_batch_size run (q0 :: queries) 0 (∅, ∅) Hnd) as Hsize.
    rewrite Hrep in Hsize. cbn [fst snd] in Hsize.
    rewrite Hsize; [by rewrite !map_size_empty|].
    intros q _. by rewrite !lookup_empty. }
  split; [done|]. split; [|split; [|split; [|split]]].
  - intros Hout. rewrite Hsize. by rewrite reportable_all.
  - intros Hin. rewrite Hsize. by apply reportable_one.
  - pose proof (collect_batch_proto run (q0 :: queries) 0 (∅, ∅)) as [Hp _].
    rewrite Hrep in Hp. cbn [fst] in Hp. by rewrite lookup_empty in Hp.
  - pose proof (collect_batch_proto run (q0 :: queries) 0 (∅, ∅)) as [_ Hp].
    rewrite Hrep in Hp. cbn [snd] in Hp. by rewrite lookup_empty in Hp.
  - intros k q Hk Hkey.
    destruct (collect_batch_lookup run (q0 :: queries) 0 (∅, ∅) q Hnd)
      as (_ & Hin).
    specialize (Hin k Hk Hkey). rewrite Hrep in Hin. cbn [fst snd] in Hin.
    rewrite !lookup_empty in Hin. by rewrite Nat.add_0_l in Hin.
Qed.

(** X28. The bulk handler refuses a request, with status 400, exactly
    when [queries] is missing, not an array or empty, or holds more than
    twenty queries; any other request is answered with the report. *)
Theorem bulk_refuses_bad_requests fuel run body :
  (∀ queries, req_queries body = Some queries → length queries ≤ fuel) →
  ((∃ message, post_scrape_bulk fuel run body = Some (BadRequest message)) ↔
   (req_queries body = None ∨ req_queries body = Some [] ∨
    ∃ queries, req_queries body = Some queries ∧ 20 < length queries)) ∧
  (∀ queries, req_queries body = Some queries →
     queries ≠ [] → length queries ≤ 20 →
     ∃ successful results errors,
       post_scrape_bulk fuel run body
       = Some (Done (length queries) successful results errors)).
Proof.
  intros Hfuel. unfold post_scrape_bulk.
  destruct (req_queries body) as [[|q0 queries]|] eqn:Hbody.
  - split; [split; [auto|eauto]|]. by intros queries [= <-].
  - destruct (20 <? length (q0 :: queries)) eqn:Hcap.
    + apply Nat.ltb_lt in Hcap. split; [split; [eauto 6|eauto]|].
      intros qs [= <-] _ Hlen. lia.
    + apply Nat.ltb_ge in Hcap.
      rewrite bulk_loop_all by (specialize (Hfuel _ eq_refl); lia).
      destruct (collect_batch run 0 (drop 0 (q0 :: queries)) (∅, ∅)).
      split; [split; [by intros (? & ?)|]|].
      * intros [?|[?|(qs & [= <-] & Hlen)]]; [done|done|lia].
      * intros qs [= <-] _ _. eauto.
  - split; [split; [auto|eauto]|]. done.
Qed.
End BulkLaws.

(** X27, witness: four queries, two batches, one run that throws and
    one query that is not reported. *)
Lemma bulk_reports_every_query_witness :
  let queries := ["a"; "bad"; "__proto__"; "d"] in
  Bulk.req_queries (Bulk.asks queries) = Some queries ∧
  queries ≠ [] ∧ length queries ≤ 20 ∧ NoDup queries ∧
  length queries ≤ 4 ∧
  Bulk.post_scrape_bulk 4 Bulk.sample_run (Bulk.asks queries)
  = Some (Bulk.Done 4 2 {["a" := []; "d" := []]}
                    (Some {["bad" := "Timeout"]})) ∧
  ∃ results errors,
    Bulk.post_scrape_bulk 4 Bulk.sample_run (Bulk.asks queries)
    = Some (Bulk.Done (length queries) (size results) results
                      (if 0 <? size errors then Some errors else None)) ∧
    size results + size errors = length (Bulk.reportable queries) ∧
    ("__proto__" ∉ queries → size results + size errors = length queries) ∧
    ("__proto__" ∈ queries →
     S (size results + size errors) = length queries) ∧
    results !! "__proto__" = None ∧ errors !! "__proto__" = None ∧
    ∀ k q, queries !! k = Some q → q ≠ "__proto__" →
      match Bulk.sample_run k q with
      | Returned rs => results !! q = Some rs ∧ errors !! q = None
      | Thrown e => errors !! q = Some (Bulk.reason e) ∧ results !! q = None
      end.
Proof.
  assert (Hnd : NoDup ["a"; "bad"; "__proto__"; "d"]).
  { apply (bool_decide_unpack (NoDup ["a"; "bad"; "__proto__"; "d"])).
    vm_compute. exact I. }
  split; [reflexivity|]. split; [done|]. split; [simpl; lia|].
  split; [exact Hnd|]. split; [simpl; lia|].
  split; [vm_compute; reflexivity|].
  apply (BulkLaws.bulk_reports_every_query 4 Bulk.sample_run
           (Bulk.asks ["a"; "bad"; "__proto__"; "d"])
           ["a"; "bad"; "__proto__"; "d"]);
    [reflexivity|done|simpl; lia|exact Hnd|simpl; lia].
Defined.

(** X28, witness: a request without [queries]. *)
Lemma bulk_refuses_bad_requests_witness :
  let body := {| Bulk.req_queries := None; Bulk.req_maxResults := Some 5;
                 Bulk.req_workers := None |} in
  (∀ queries, Bulk.req_queries body = Some queries → length queries ≤ 0) ∧
  ((∃ message, Bulk.post_scrape_bulk 0 Bulk.sample_run body
               = Some (Bulk.BadRequest message)) ↔
   (Bulk.req_queries body = None ∨ Bulk.req_queries body = Some [] ∨
    ∃ queries, Bulk.req_queries body = Some queries ∧ 20 < length queries)) ∧
  (∀ queries, Bulk.req_queries body = Some queries →
     queries ≠ [] → length queries ≤ 20 →
     ∃ successful results errors,
       Bulk.post_scrape_bulk 0 Bulk.sample_run body
       = Some (Bulk.Done (length queries) successful results errors)).
Proof.
  split; [by intros queries [=]|].
  apply (BulkLaws.bulk_refuses_bad_requests 0 Bulk.sample_run
           {| Bulk.req_queries := None; Bulk.req_maxResults := Some 5;
              Bulk.req_workers := None |}).
  by intros queries [=].
Defined.

(** ** chunkArray at its edges *)

Module PartitionerLaws.
Import Partitioner.
Section Edges.
Context {A : Type}.

(** With chunks of one item the loop pushes one chunk per item. *)
Lemma chunk_loop_singletons (array : list A) : ∀ fuel i chunks,
  length array - i ≤ fuel →
  chunk_loop fuel array 1 i chunks
  = Some (chunks ++ map (λ x, [x]) (drop i array)).
Proof.
  induction fuel as [|fuel IH]; intros i chunks Hfuel; cbn [chunk_loop];
    destruct (i <? length array) eqn:Hi.
  - apply Nat.ltb_lt in Hi. lia.
  - apply Nat.ltb_ge in Hi. by rewrite drop_ge, app_nil_r.
  - apply Nat.ltb_lt in Hi. rewrite IH by lia. f_equal.
    rewrite <-app_assoc. f_equal. unfold slice.
    replace (i + 1 - i) with 1 by lia. rewrite <-drop_drop.
    destruct (drop i array) as [|x rest] eqn:Hdrop; [|done].
    apply (f_equal length) in Hdrop. rewrite length_drop in Hdrop.
    simpl in Hdrop. lia.
  - apply Nat.ltb_ge in Hi. by rewrite drop_ge, app_nil_r.
Qed.

(** X29. [chunkArray] at its edges: the empty list gives no chunk at
    all; one part gives the whole list as the only chunk; and with at
    least as many parts as items every item is a chunk of its own, so
    that only as many chunks as items come back. *)
Theorem chunkArray_edges (items : list A) (parts fuel : nat) :
  1 ≤ parts → length items ≤ fuel →
  (items = [] → chunkArray fuel items parts = Some []) ∧
  (items ≠ [] → parts = 1 → chunkArray fuel items parts = Some [items]) ∧
  (items ≠ [] → length items ≤ parts →
   chunkArray fuel items parts = Some (map (λ x, [x]) items)).
Proof.
  intros Hparts Hfuel.
  destruct parts as [|parts]; [lia|]. split; [|split].
  - intros ->. simpl. by destruct fuel.
  - intros Hne [= ->].
    destruct (PartitionerFacts.chunkArray_spec items 1)
      as (chunks & Hrun & Hcat & Hlen & Hnth); [lia|].
    rewrite Hrun by done. f_equal.
    assert (Hpos : 0 < length items) by (destruct items; simpl; [done|lia]).
    assert (Hsize : ceil_div (length items) 1 = length items).
    { unfold ceil_div. rewrite Nat.div_1_r. lia. }
    rewrite Hsize in Hlen.
    assert (Hone : ceil_div (length items) (length items) = 1).
    { unfold ceil_div. symmetry.
      apply (Nat.div_unique _ _ 1 (length items - 1)); lia. }
    rewrite Hone in Hlen.
    destruct chunks as [|c [|c' chunks]]; simpl in Hlen; try lia.
    simpl in Hcat. by rewrite app_nil_r in Hcat; subst.
  - intros Hne Hle. unfold chunkArray.
    assert (Hpos : 0 < length items) by (destruct items; simpl; [done|lia]).
    assert (Hsize : ceil_div (length items) (S parts) = 1).
    { unfold ceil_div. symmetry.
      apply (Nat.div_unique _ _ 1 (length items - 1)); lia. }
    rewrite Hsize, chunk_loop_singletons by lia. by rewrite drop_0.
Qed.
End Edges.
End PartitionerLaws.

(** X29, witness: two items for five workers. *)
Lemma chunkArray_edges_witness :
  1 ≤ 5 ∧ length ["u1"; "u2"] ≤ 2 ∧
  (["u1"; "u2"] = [] → Partitioner.chunkArray 2 ["u1"; "u2"] 5 = Some []) ∧
  (["u1"; "u2"] ≠ [] → 5 = 1 →
   Partitioner.chunkArray 2 ["u1"; "u2"] 5 = Some [["u1"; "u2"]]) ∧
  (["u1"; "u2"] ≠ [] → length ["u1"; "u2"] ≤ 5 →
   Partitioner.chunkArray 2 ["u1"; "u2"] 5
   = Some (map (λ x, [x]) ["u1"; "u2"])).
Proof.
  split; [lia|]. split; [simpl; lia|].
  apply (PartitionerLaws.chunkArray_edges ["u1"; "u2"] 5 2); simpl; lia.
Defined.
